(** * GFM-IAIF: glottal flow model based iterative adaptive inverse filtering

    A shallow embedding of the notebook [gfmiaif.ipynb].  The notebook is a
    script over global variables: one cell fixes the parameters
    ([s_gvl], [nv], [ng], [d], [win]) and the following cells compute the
    pre-frame, cancel the lip radiation, estimate the glottis filter in a
    gross and a fine pass, and finally the vocal tract filter.

    The numeric code is written once, over an interface [Arith] of the
    arithmetic operations that the script and the routines it calls from
    numpy, scipy and librosa use.  The interface is instantiated with IEEE
    binary64 numbers (on which the definitions run) and with the real
    numbers (on which the algebraic facts are proved). *)

From Stdlib Require Import List ZArith Lia Bool.
From Stdlib Require Import Reals Lra Psatz.
From Stdlib Require Import PrimFloat.
Import ListNotations.

#[local] Set Warnings "-inexact-float".

(** ** Exceptions and results *)

(** The exceptions that the script can raise: [IndexError] (indexing an
    array out of its bounds), [ValueError] (numpy: shapes that do not
    broadcast, a negative number of samples), [ParameterError] (librosa: an
    order below one, a buffer that is not finite everywhere) and
    [FloatingPointError] (librosa's [lpc] on an ill-conditioned input). *)
Inductive exn : Set :=
| IndexError
| ValueError
| ParameterError
| FloatingPointError.

Inductive result (A : Type) : Type :=
| Ok (a : A)
| Raise (e : exn).

Arguments Ok {A} a.
Arguments Raise {A} e.

Definition bind {A B : Type} (r : result A) (k : A -> result B) : result B :=
  match r with
  | Ok a => k a
  | Raise e => Raise e
  end.

Declare Scope result_scope.
Delimit Scope result_scope with result.
Notation "x <- r ;; k" := (bind r (fun x => k))
  (at level 100, r at next level, right associativity) : result_scope.
Open Scope result_scope.

(** ** The arithmetic interface *)

Class Arith (F : Type) : Type := {
  zero : F;
  one : F;
  add : F -> F -> F;
  sub : F -> F -> F;
  mul : F -> F -> F;
  div : F -> F -> F;
  opp : F -> F;
  of_Z : Z -> F;
  eqb : F -> F -> bool;
  leb : F -> F -> bool;
  isfinite : F -> bool;
  pi : F;
  cos : F -> F
}.

Section Numeric.

Context {F : Type} {A : Arith F}.

(** The literal [0.5]. *)
Definition half : F := div one (of_Z 2).

Definition sq (x : F) : F := mul x x.

(** *** Arrays *)

(** Elementwise combination of two arrays of the same length. *)
Fixpoint map2 (f : F -> F -> F) (a b : list F) : list F :=
  match a, b with
  | x :: a', y :: b' => f x y :: map2 f a' b'
  | _, _ => []
  end.

(** [np.arange(lo, hi)] for integers. *)
Definition arange (lo hi : Z) : list Z :=
  map (fun k => (lo + Z.of_nat k)%Z) (seq 0 (Z.to_nat (hi - lo))).

(** [np.arange(lo, hi, 2)] for integers. *)
Definition arange2 (lo hi : Z) : list Z :=
  map (fun k => (lo + 2 * Z.of_nat k)%Z) (seq 0 (Z.to_nat ((hi - lo + 1) / 2))).

(** [l[j] = v] on an existing position. *)
Fixpoint set_nth (j : nat) (v : F) (l : list F) : list F :=
  match l, j with
  | [], _ => []
  | _ :: l', O => v :: l'
  | x :: l', S j' => x :: set_nth j' v l'
  end.

(** [a[i]] for one integer index: a negative index counts from the end. *)
Definition getitem (a : list F) (i : Z) : result F :=
  let n := Z.of_nat (length a) in
  if ((0 <=? i) && (i <? n))%Z then Ok (nth (Z.to_nat i) a zero)
  else if ((- n <=? i) && (i <? 0))%Z then Ok (nth (Z.to_nat (n + i)) a zero)
  else Raise IndexError.

(** [a[idx]] for an array of integer indices. *)
Fixpoint take (a : list F) (idx : list Z) : result (list F) :=
  match idx with
  | [] => Ok []
  | i :: idx' =>
      x <- getitem a i ;;
      r <- take a idx' ;;
      Ok (x :: r)
  end.

(** [np.multiply(a, b)]: elementwise, an array with one element is
    broadcast, other shapes that differ are refused. *)
Definition multiply (a b : list F) : result (list F) :=
  if Nat.eqb (length a) (length b) then Ok (map2 mul a b)
  else match a, b with
       | _, [y] => Ok (map (fun x => mul x y) a)
       | [x], _ => Ok (map (fun y => mul x y) b)
       | _, _ => Raise ValueError
       end.

(** [np.dot(a, b)] of two vectors of the same length. *)
Definition dot (a b : list F) : F :=
  fold_left add (map2 mul a b) zero.

(** *** [np.linspace(start, stop, num)] *)
Definition linspace (start stop : F) (num : Z) : result (list F) :=
  if (num <? 0)%Z then Raise ValueError
  else
    let dv := (num - 1)%Z in
    let y := map of_Z (arange 0 num) in
    let delta := sub stop start in
    let y :=
      if (0 <? dv)%Z then
        let step := div delta (of_Z dv) in
        if eqb step zero
        then map (fun v => mul (div v (of_Z dv)) delta) y
        else map (fun v => mul v step) y
      else map (fun v => mul v delta) y in
    let y := map (fun v => add v start) y in
    Ok (if (1 <? num)%Z then removelast y ++ [stop] else y).

(** *** [np.hanning(M)]

    The window of numpy at the time of the notebook,
    [0.5 - 0.5*cos(2.0*pi*n/(M-1))] for [n = arange(0, M)]. *)
Definition hanning (M : Z) : list F :=
  if (M <? 1)%Z then []
  else if (M =? 1)%Z then [one]
  else map (fun n => sub half (mul half (cos (div (mul (mul (of_Z 2) pi) (of_Z n))
                                                  (of_Z (M - 1))))))
           (arange 0 M).

(** The same window as numpy evaluates it from version 1.20 on,
    [0.5 + 0.5*cos(pi*n/(M-1))] for [n = arange(1-M, M, 2)]. *)
Definition hanning_symmetric (M : Z) : list F :=
  if (M <? 1)%Z then []
  else if (M =? 1)%Z then [one]
  else map (fun n => add half (mul half (cos (div (mul pi (of_Z n)) (of_Z (M - 1))))))
           (arange2 (1 - M) M).

(** *** [scipy.signal.lfilter(b, a, x)]

    The filter [a[0]*y[n] = b[0]*x[n] + ... + b[nb]*x[n-nb] - a[1]*y[n-1] -
    ... - a[na]*y[n-na]], run as scipy runs it: both coefficient arrays are
    padded with zeros to a common length [K] and divided by [a[0]], and the
    samples are pushed through a direct form II transposed structure whose
    [K-1] delays start at zero.  [a] is never empty in the script. *)

Definition pad (n : nat) (l : list F) : list F :=
  l ++ repeat zero (n - length l).

(** The new delays after the sample [x] produced the output [y]; [b] and [a]
    are the coefficients from position one on. *)
Fixpoint delays (b a z : list F) (x y : F) : list F :=
  match z with
  | [] => []
  | _ :: z' =>
      match z' with
      | [] => [sub (mul x (hd zero b)) (mul y (hd zero a))]
      | z1 :: _ =>
          sub (add z1 (mul x (hd zero b))) (mul y (hd zero a))
            :: delays (tl b) (tl a) z' x y
      end
  end.

Definition output (b0 : F) (z : list F) (x : F) : F :=
  match z with
  | [] => mul x b0
  | z0 :: _ => add z0 (mul b0 x)
  end.

Fixpoint lfilter_run (b0 : F) (b a z x : list F) : list F :=
  match x with
  | [] => []
  | xn :: x' =>
      let yn := output b0 z xn in
      yn :: lfilter_run b0 b a (delays b a z xn yn) x'
  end.

Definition lfilter (b a x : list F) : list F :=
  let K := Nat.max (length a) (length b) in
  let a0 := hd zero a in
  let b' := map (fun c => div c a0) (pad K b) in
  let a' := map (fun c => div c a0) (pad K a) in
  lfilter_run (hd zero b') (tl b') (tl a') (repeat zero (K - 1)) x.

(** The sum that a filter with the numerator [b] and the denominator
    [[1]] is to compute: [b[0]*x[n] + b[1]*x[n-1] + ...], from the samples
    [hist] before [x], the latest first. *)
Fixpoint weighted (b h : list F) : F :=
  match b, h with
  | c :: b', v :: h' => add (mul c v) (weighted b' h')
  | _, _ => zero
  end.

Fixpoint fir (b hist x : list F) : list F :=
  match x with
  | [] => []
  | xn :: x' => weighted b (xn :: hist) :: fir b (xn :: hist) x'
  end.

(** *** [np.convolve(a, v)] (mode [full]) *)

(** The [n]-th coefficient of the product, [a] being the longer array. *)
Definition conv_at (a v : list F) (n : nat) : F :=
  let lo := n - (length v - 1) in
  let hi := Nat.min n (length a - 1) in
  fold_left add
    (map (fun i => mul (nth i a zero) (nth (n - i) v zero)) (seq lo (hi + 1 - lo)))
    zero.

Definition convolve (a v : list F) : result (list F) :=
  match a, v with
  | [], _ => Raise ValueError
  | _, [] => Raise ValueError
  | _, _ =>
      let '(a, v) := if Nat.ltb (length a) (length v) then (v, a) else (a, v) in
      Ok (map (conv_at a v) (seq 0 (length a + length v - 1)))
  end.

(** *** [librosa.lpc(y, order)]: Burg's method

    The routine of librosa 0.7, the release of the notebook's time.  Its
    loop is compiled by numba in [nopython] mode, which checks no index: an
    index below zero counts from the end of the array, and an index that is
    outside of the array still reads, the memory beside the array.  What
    such a read finds is no data of the program; the model takes it from
    [m], the contents of that memory by the index read. *)
Definition peek (m : Z -> F) (a : list F) (i : Z) : F :=
  match getitem a i with
  | Ok v => v
  | Raise _ => m i
  end.

(** The state of the loop over the model order: the two coefficient
    buffers that the loop swaps, the forward and backward prediction errors
    and the denominator [DEN_M] of the reflection coefficient. *)
Record burg : Type := {
  ar_coeffs : list F;
  ar_coeffs_prev : list F;
  fwd_pred_error : list F;
  bwd_pred_error : list F;
  den : F
}.

(** The Levinson-Durbin update of the coefficients for the order [i+1]:
    [for j in range(1, i + 2):
       ar_coeffs[j] = ar_coeffs_prev[j] + reflect_coeff * ar_coeffs_prev[i - j + 1]]. *)
Definition levinson (i : nat) (reflect_coeff : F) (ar ar_prev : list F) : list F :=
  fold_left
    (fun ar j =>
       set_nth j (add (nth j ar_prev zero)
                      (mul reflect_coeff (nth (i + 1 - j) ar_prev zero))) ar)
    (seq 1 (i + 1)) ar.

(** One pass of the loop, for the order [i+1]:
    [if den <= 0: raise FloatingPointError], the reflection coefficient
    [-2 * dot(bwd, fwd) / den], the Levinson-Durbin update into the older
    buffer, the update of the two errors, the recursion
    [den = q * den - bwd[-1]**2 - fwd[0]**2] and the shift of the errors.
    The two indexed samples exist as long as the denominator is positive in
    exact arithmetic.  When rounding leaves a positive denominator with the
    errors used up, the two reads go outside of the empty buffers: they find
    what the memory [m i] of the pass holds, and the loop goes on. *)
Definition burg_step (m : nat -> Z -> F) (st : burg) (i : nat) : result burg :=
  if leb (den st) zero then Raise FloatingPointError
  else
    let reflect_coeff :=
      div (mul (of_Z (-2)) (dot (bwd_pred_error st) (fwd_pred_error st))) (den st) in
    let ar_prev := ar_coeffs st in
    let ar := levinson i reflect_coeff (ar_coeffs_prev st) ar_prev in
    let fwd_tmp := fwd_pred_error st in
    let fwd := map2 (fun f b => add f (mul reflect_coeff b))
                    (fwd_pred_error st) (bwd_pred_error st) in
    let bwd := map2 (fun b f => add b (mul reflect_coeff f))
                    (bwd_pred_error st) fwd_tmp in
    let q := sub one (sq reflect_coeff) in
    let bl := peek (m i) bwd (-1) in
    let f0 := peek (m i) fwd 0 in
    Ok {| ar_coeffs := ar;
          ar_coeffs_prev := ar_prev;
          fwd_pred_error := tl fwd;
          bwd_pred_error := removelast bwd;
          den := sub (sub (mul q (den st)) (sq bl)) (sq f0) |}.

Fixpoint burg_loop (m : nat -> Z -> F) (st : burg) (orders : list nat) : result burg :=
  match orders with
  | [] => Ok st
  | i :: orders' =>
      st' <- burg_step m st i ;;
      burg_loop m st' orders'
  end.

Definition burg_init (y : list F) (order : nat) : burg :=
  {| ar_coeffs := one :: repeat zero order;
     ar_coeffs_prev := one :: repeat zero order;
     fwd_pred_error := tl y;
     bwd_pred_error := removelast y;
     den := add (dot (tl y) (tl y)) (dot (removelast y) (removelast y)) |}.

(** The checks of [lpc] on the order and on the buffer
    ([util.valid_audio]), then the loop, in the memory [m]. *)
Definition lpc (m : nat -> Z -> F) (y : list F) (order : Z) : result (list F) :=
  if (order <? 1)%Z then Raise ParameterError
  else if negb (forallb isfinite y) then Raise ParameterError
  else
    st <- burg_loop m (burg_init y (Z.to_nat order)) (seq 0 (Z.to_nat order)) ;;
    Ok (ar_coeffs st).

(** ** The notebook

    The global variables of the notebook.  A cell reads and assigns them;
    before a run they hold whatever an earlier run left there.  With them
    goes [heap], the memory of the session outside of the arrays, by the
    pass of the loop of [lpc] and the index read: no cell assigns it, and
    only an unchecked read of [lpc] looks at it. *)
Record globals : Type := {
  s_gvl : list F;
  nv : Z;
  ng : Z;
  d : F;
  win : list F;
  Lpf : Z;
  x_gvl : list F;
  idx_pf : list Z;
  al : list F;
  s_gv : list F;
  x_gv : list F;
  ag1 : list F;
  x_v1x : list F;
  s_v1x : list F;
  ag1x : list F;
  x_g1 : list F;
  s_g1 : list F;
  ag : list F;
  x_v : list F;
  s_v : list F;
  av : list F;
  heap : nat -> Z -> F
}.

(** Assignments to one variable. *)
Definition set_s_gvl (v : list F) (g : globals) : globals :=
  {| s_gvl := v; nv := nv g; ng := ng g; d := d g; win := win g;
     Lpf := Lpf g; x_gvl := x_gvl g; idx_pf := idx_pf g; al := al g;
     s_gv := s_gv g; x_gv := x_gv g; ag1 := ag1 g; x_v1x := x_v1x g;
     s_v1x := s_v1x g; ag1x := ag1x g; x_g1 := x_g1 g; s_g1 := s_g1 g;
     ag := ag g; x_v := x_v g; s_v := s_v g; av := av g;
     heap := heap g |}.

Definition set_nv (v : Z) (g : globals) : globals :=
  {| s_gvl := s_gvl g; nv := v; ng := ng g; d := d g; win := win g;
     Lpf := Lpf g; x_gvl := x_gvl g; idx_pf := idx_pf g; al := al g;
     s_gv := s_gv g; x_gv := x_gv g; ag1 := ag1 g; x_v1x := x_v1x g;
     s_v1x := s_v1x g; ag1x := ag1x g; x_g1 := x_g1 g; s_g1 := s_g1 g;
     ag := ag g; x_v := x_v g; s_v := s_v g; av := av g;
     heap := heap g |}.

Definition set_ng (v : Z) (g : globals) : globals :=
  {| s_gvl := s_gvl g; nv := nv g; ng := v; d := d g; win := win g;
     Lpf := Lpf g; x_gvl := x_gvl g; idx_pf := idx_pf g; al := al g;
     s_gv := s_gv g; x_gv := x_gv g; ag1 := ag1 g; x_v1x := x_v1x g;
     s_v1x := s_v1x g; ag1x := ag1x g; x_g1 := x_g1 g; s_g1 := s_g1 g;
     ag := ag g; x_v := x_v g; s_v := s_v g; av := av g;
     heap := heap g |}.

Definition set_d (v : F) (g : globals) : globals :=
  {| s_gvl := s_gvl g; nv := nv g; ng := ng g; d := v; win := win g;
     Lpf := Lpf g; x_gvl := x_gvl g; idx_pf := idx_pf g; al := al g;
     s_gv := s_gv g; x_gv := x_gv g; ag1 := ag1 g; x_v1x := x_v1x g;
     s_v1x := s_v1x g; ag1x := ag1x g; x_g1 := x_g1 g; s_g1 := s_g1 g;
     ag := ag g; x_v := x_v g; s_v := s_v g; av := av g;
     heap := heap g |}.

Definition set_win (v : list F) (g : globals) : globals :=
  {| s_gvl := s_gvl g; nv := nv g; ng := ng g; d := d g; win := v;
     Lpf := Lpf g; x_gvl := x_gvl g; idx_pf := idx_pf g; al := al g;
     s_gv := s_gv g; x_gv := x_gv g; ag1 := ag1 g; x_v1x := x_v1x g;
     s_v1x := s_v1x g; ag1x := ag1x g; x_g1 := x_g1 g; s_g1 := s_g1 g;
     ag := ag g; x_v := x_v g; s_v := s_v g; av := av g;
     heap := heap g |}.

Definition set_Lpf (v : Z) (g : globals) : globals :=
  {| s_gvl := s_gvl g; nv := nv g; ng := ng g; d := d g; win := win g;
     Lpf := v; x_gvl := x_gvl g; idx_pf := idx_pf g; al := al g;
     s_gv := s_gv g; x_gv := x_gv g; ag1 := ag1 g; x_v1x := x_v1x g;
     s_v1x := s_v1x g; ag1x := ag1x g; x_g1 := x_g1 g; s_g1 := s_g1 g;
     ag := ag g; x_v := x_v g; s_v := s_v g; av := av g;
     heap := heap g |}.

Definition set_x_gvl (v : list F) (g : globals) : globals :=
  {| s_gvl := s_gvl g; nv := nv g; ng := ng g; d := d g; win := win g;
     Lpf := Lpf g; x_gvl := v; idx_pf := idx_pf g; al := al g;
     s_gv := s_gv g; x_gv := x_gv g; ag1 := ag1 g; x_v1x := x_v1x g;
     s_v1x := s_v1x g; ag1x := ag1x g; x_g1 := x_g1 g; s_g1 := s_g1 g;
     ag := ag g; x_v := x_v g; s_v := s_v g; av := av g;
     heap := heap g |}.

Definition set_idx_pf (v : list Z) (g : globals) : globals :=
  {| s_gvl := s_gvl g; nv := nv g; ng := ng g; d := d g; win := win g;
     Lpf := Lpf g; x_gvl := x_gvl g; idx_pf := v; al := al g; s_gv := s_gv g;
     x_gv := x_gv g; ag1 := ag1 g; x_v1x := x_v1x g; s_v1x := s_v1x g;
     ag1x := ag1x g; x_g1 := x_g1 g; s_g1 := s_g1 g; ag := ag g;
     x_v := x_v g; s_v := s_v g; av := av g;
     heap := heap g |}.

Definition set_al (v : list F) (g : globals) : globals :=
  {| s_gvl := s_gvl g; nv := nv g; ng := ng g; d := d g; win := win g;
     Lpf := Lpf g; x_gvl := x_gvl g; idx_pf := idx_pf g; al := v;
     s_gv := s_gv g; x_gv := x_gv g; ag1 := ag1 g; x_v1x := x_v1x g;
     s_v1x := s_v1x g; ag1x := ag1x g; x_g1 := x_g1 g; s_g1 := s_g1 g;
     ag := ag g; x_v := x_v g; s_v := s_v g; av := av g;
     heap := heap g |}.

Definition set_s_gv (v : list F) (g : globals) : globals :=
  {| s_gvl := s_gvl g; nv := nv g; ng := ng g; d := d g; win := win g;
     Lpf := Lpf g; x_gvl := x_gvl g; idx_pf := idx_pf g; al := al g;
     s_gv := v; x_gv := x_gv g; ag1 := ag1 g; x_v1x := x_v1x g;
     s_v1x := s_v1x g; ag1x := ag1x g; x_g1 := x_g1 g; s_g1 := s_g1 g;
     ag := ag g; x_v := x_v g; s_v := s_v g; av := av g;
     heap := heap g |}.

Definition set_x_gv (v : list F) (g : globals) : globals :=
  {| s_gvl := s_gvl g; nv := nv g; ng := ng g; d := d g; win := win g;
     Lpf := Lpf g; x_gvl := x_gvl g; idx_pf := idx_pf g; al := al g;
     s_gv := s_gv g; x_gv := v; ag1 := ag1 g; x_v1x := x_v1x g;
     s_v1x := s_v1x g; ag1x := ag1x g; x_g1 := x_g1 g; s_g1 := s_g1 g;
     ag := ag g; x_v := x_v g; s_v := s_v g; av := av g;
     heap := heap g |}.

Definition set_ag1 (v : list F) (g : globals) : globals :=
  {| s_gvl := s_gvl g; nv := nv g; ng := ng g; d := d g; win := win g;
     Lpf := Lpf g; x_gvl := x_gvl g; idx_pf := idx_pf g; al := al g;
     s_gv := s_gv g; x_gv := x_gv g; ag1 := v; x_v1x := x_v1x g;
     s_v1x := s_v1x g; ag1x := ag1x g; x_g1 := x_g1 g; s_g1 := s_g1 g;
     ag := ag g; x_v := x_v g; s_v := s_v g; av := av g;
     heap := heap g |}.

Definition set_x_v1x (v : list F) (g : globals) : globals :=
  {| s_gvl := s_gvl g; nv := nv g; ng := ng g; d := d g; win := win g;
     Lpf := Lpf g; x_gvl := x_gvl g; idx_pf := idx_pf g; al := al g;
     s_gv := s_gv g; x_gv := x_gv g; ag1 := ag1 g; x_v1x := v;
     s_v1x := s_v1x g; ag1x := ag1x g; x_g1 := x_g1 g; s_g1 := s_g1 g;
     ag := ag g; x_v := x_v g; s_v := s_v g; av := av g;
     heap := heap g |}.

Definition set_s_v1x (v : list F) (g : globals) : globals :=
  {| s_gvl := s_gvl g; nv := nv g; ng := ng g; d := d g; win := win g;
     Lpf := Lpf g; x_gvl := x_gvl g; idx_pf := idx_pf g; al := al g;
     s_gv := s_gv g; x_gv := x_gv g; ag1 := ag1 g; x_v1x := x_v1x g;
     s_v1x := v; ag1x := ag1x g; x_g1 := x_g1 g; s_g1 := s_g1 g; ag := ag g;
     x_v := x_v g; s_v := s_v g; av := av g;
     heap := heap g |}.

Definition set_ag1x (v : list F) (g : globals) : globals :=
  {| s_gvl := s_gvl g; nv := nv g; ng := ng g; d := d g; win := win g;
     Lpf := Lpf g; x_gvl := x_gvl g; idx_pf := idx_pf g; al := al g;
     s_gv := s_gv g; x_gv := x_gv g; ag1 := ag1 g; x_v1x := x_v1x g;
     s_v1x := s_v1x g; ag1x := v; x_g1 := x_g1 g; s_g1 := s_g1 g; ag := ag g;
     x_v := x_v g; s_v := s_v g; av := av g;
     heap := heap g |}.

Definition set_x_g1 (v : list F) (g : globals) : globals :=
  {| s_gvl := s_gvl g; nv := nv g; ng := ng g; d := d g; win := win g;
     Lpf := Lpf g; x_gvl := x_gvl g; idx_pf := idx_pf g; al := al g;
     s_gv := s_gv g; x_gv := x_gv g; ag1 := ag1 g; x_v1x := x_v1x g;
     s_v1x := s_v1x g; ag1x := ag1x g; x_g1 := v; s_g1 := s_g1 g; ag := ag g;
     x_v := x_v g; s_v := s_v g; av := av g;
     heap := heap g |}.

Definition set_s_g1 (v : list F) (g : globals) : globals :=
  {| s_gvl := s_gvl g; nv := nv g; ng := ng g; d := d g; win := win g;
     Lpf := Lpf g; x_gvl := x_gvl g; idx_pf := idx_pf g; al := al g;
     s_gv := s_gv g; x_gv := x_gv g; ag1 := ag1 g; x_v1x := x_v1x g;
     s_v1x := s_v1x g; ag1x := ag1x g; x_g1 := x_g1 g; s_g1 := v; ag := ag g;
     x_v := x_v g; s_v := s_v g; av := av g;
     heap := heap g |}.

Definition set_ag (v : list F) (g : globals) : globals :=
  {| s_gvl := s_gvl g; nv := nv g; ng := ng g; d := d g; win := win g;
     Lpf := Lpf g; x_gvl := x_gvl g; idx_pf := idx_pf g; al := al g;
     s_gv := s_gv g; x_gv := x_gv g; ag1 := ag1 g; x_v1x := x_v1x g;
     s_v1x := s_v1x g; ag1x := ag1x g; x_g1 := x_g1 g; s_g1 := s_g1 g;
     ag := v; x_v := x_v g; s_v := s_v g; av := av g;
     heap := heap g |}.

Definition set_x_v (v : list F) (g : globals) : globals :=
  {| s_gvl := s_gvl g; nv := nv g; ng := ng g; d := d g; win := win g;
     Lpf := Lpf g; x_gvl := x_gvl g; idx_pf := idx_pf g; al := al g;
     s_gv := s_gv g; x_gv := x_gv g; ag1 := ag1 g; x_v1x := x_v1x g;
     s_v1x := s_v1x g; ag1x := ag1x g; x_g1 := x_g1 g; s_g1 := s_g1 g;
     ag := ag g; x_v := v; s_v := s_v g; av := av g;
     heap := heap g |}.

Definition set_s_v (v : list F) (g : globals) : globals :=
  {| s_gvl := s_gvl g; nv := nv g; ng := ng g; d := d g; win := win g;
     Lpf := Lpf g; x_gvl := x_gvl g; idx_pf := idx_pf g; al := al g;
     s_gv := s_gv g; x_gv := x_gv g; ag1 := ag1 g; x_v1x := x_v1x g;
     s_v1x := s_v1x g; ag1x := ag1x g; x_g1 := x_g1 g; s_g1 := s_g1 g;
     ag := ag g; x_v := x_v g; s_v := v; av := av g;
     heap := heap g |}.

Definition set_av (v : list F) (g : globals) : globals :=
  {| s_gvl := s_gvl g; nv := nv g; ng := ng g; d := d g; win := win g;
     Lpf := Lpf g; x_gvl := x_gvl g; idx_pf := idx_pf g; al := al g;
     s_gv := s_gv g; x_gv := x_gv g; ag1 := ag1 g; x_v1x := x_v1x g;
     s_v1x := s_v1x g; ag1x := ag1x g; x_g1 := x_g1 g; s_g1 := s_g1 g;
     ag := ag g; x_v := x_v g; s_v := s_v g; av := v;
     heap := heap g |}.

(** *** The cells *)

(** The parameters of one run. *)
Definition cell_parameters (s : list F) (nv0 ng0 : Z) (d0 : F) (w : list F)
    (g : globals) : globals :=
  set_win w (set_d d0 (set_ng ng0 (set_nv nv0 (set_s_gvl s g)))).

(** Default parameters: [s_gvl.ravel()] leaves a frame as it is, and an
    empty [win] is replaced by the Hanning window of the frame's length. *)
Definition cell_defaults (g : globals) : globals :=
  match win g with
  | [] => set_win (hanning (Z.of_nat (length (s_gvl g)))) g
  | _ :: _ => g
  end.

(** Addition of the pre-frame. *)
Definition cell_preframe (g : globals) : result globals :=
  let g := set_Lpf (nv g + 1)%Z g in
  s0 <- getitem (s_gvl g) 0 ;;
  ramp <- linspace (opp s0) s0 (Lpf g) ;;
  let g := set_x_gvl (ramp ++ s_gvl g) g in
  Ok (set_idx_pf (arange (Lpf g) (Z.of_nat (length (x_gvl g)))) g).

(** Cancellation of the lip radiation contribution. *)
Definition cell_lip (g : globals) : globals :=
  let g := set_al [one; opp (d g)] g in
  let g := set_s_gv (lfilter [one] (al g) (s_gvl g)) g in
  set_x_gv (lfilter [one] (al g) (x_gvl g)) g.

(** One pass of the loop of the gross glottis estimation. *)
Definition gross_step (g : globals) : result globals :=
  let g := set_x_v1x (lfilter (ag1 g) [one] (x_gv g)) g in
  r <- take (x_v1x g) (idx_pf g) ;;
  let g := set_s_v1x r g in
  y <- multiply (s_v1x g) (win g) ;;
  a <- lpc (heap g) y 1 ;;
  let g := set_ag1x a g in
  c <- convolve (ag1 g) (ag1x g) ;;
  Ok (set_ag1 c g).

Fixpoint gross_loop (n : nat) (g : globals) : result globals :=
  match n with
  | O => Ok g
  | S n' =>
      g' <- gross_step g ;;
      gross_loop n' g'
  end.

(** Gross glottis estimation. *)
Definition cell_gross (g : globals) : result globals :=
  y <- multiply (s_gv g) (win g) ;;
  a <- lpc (heap g) y 1 ;;
  gross_loop (Z.to_nat (ng g)) (set_ag1 a g).

(** Fine glottis estimation. *)
Definition cell_fine_glottis (g : globals) : result globals :=
  let g := set_x_g1 (lfilter (ag1 g) [one] (x_gv g)) g in
  r <- take (x_g1 g) (idx_pf g) ;;
  let g := set_s_g1 r g in
  y <- multiply (s_g1 g) (win g) ;;
  a <- lpc (heap g) y (ng g) ;;
  Ok (set_ag a g).

(** Fine vocal tract estimation. *)
Definition cell_fine_vocal_tract (g : globals) : result globals :=
  let g := set_x_v (lfilter (ag g) [one] (x_gv g)) g in
  r <- take (x_v g) (idx_pf g) ;;
  let g := set_s_v r g in
  y <- multiply (s_v g) (win g) ;;
  a <- lpc (heap g) y (nv g) ;;
  Ok (set_av a g).

(** The cells after the parameters, in the order of the notebook. *)
Definition run_cells (g : globals) : result globals :=
  g <- cell_preframe (cell_defaults g) ;;
  g <- cell_gross (cell_lip g) ;;
  g <- cell_fine_glottis g ;;
  cell_fine_vocal_tract g.

(** One run of the notebook from the globals [g0]: the value of the last
    cell, [av, ag, al]. *)
Definition gfmiaif (s : list F) (nv0 ng0 : Z) (d0 : F) (w : list F)
    (g0 : globals) : result (list F * list F * list F) :=
  g <- run_cells (cell_parameters s nv0 ng0 d0 w g0) ;;
  Ok (av g, ag g, al g).

(** Globals of a fresh session. *)
Definition fresh : globals :=
  {| s_gvl := []; nv := 0; ng := 0; d := zero; win := [];
     Lpf := 0; x_gvl := []; idx_pf := []; al := []; s_gv := []; x_gv := [];
     ag1 := []; x_v1x := []; s_v1x := []; ag1x := []; x_g1 := []; s_g1 := [];
     ag := []; x_v := []; s_v := []; av := [];
     heap := fun _ _ => zero |}.

End Numeric.

Arguments globals F : clear implicits.
Arguments burg F : clear implicits.

(** ** Binary64 arithmetic

    The arithmetic of the notebook: numpy's [float64].  The cosine stands
    for the one of the C library: it is evaluated by a reduction of the
    argument to [[0, pi/4]] and the Taylor polynomials of the sine and the
    cosine there, and can differ from the library's in the last binary
    digit.  Only the runs on binary64 numbers with the default window depend
    on it. *)
Module Float64.

Local Open Scope float_scope.

Fixpoint of_pos (p : positive) : float :=
  match p with
  | xH => 1
  | xO p' => 2 * of_pos p'
  | xI p' => 2 * of_pos p' + 1
  end.

Definition of_Z (z : Z) : float :=
  match z with
  | Z0 => 0
  | Zpos p => of_pos p
  | Zneg p => - of_pos p
  end.

(** [np.pi], and what the real number lacks of it. *)
Definition pi : float := 0x1.921fb54442d18p+1.
Definition pi_lo : float := 0x1.1a62633145c07p-53.

Definition cos_poly (t : float) : float :=
  let u := t * t in
  1 + u * (-0.5 + u * (1 / 24 + u * (-1 / 720 + u * (1 / 40320
    + u * (-1 / 3628800 + u * (1 / 479001600 + u * (-1 / 87178291200
    + u * (1 / 20922789888000)))))))).

Definition sin_poly (t : float) : float :=
  let u := t * t in
  t * (1 + u * (-1 / 6 + u * (1 / 120 + u * (-1 / 5040 + u * (1 / 362880
    + u * (-1 / 39916800 + u * (1 / 6227020800 + u * (-1 / 1307674368000
    + u * (1 / 355687428096000))))))))).

(** The nearest integer, for a small argument. *)
Definition round_int (v : float) : float :=
  (v + 6755399441055744) - 6755399441055744.

Definition cos (x : float) : float :=
  let r := abs x in
  let k := round_int (r / (2 * pi)) in
  let a := abs ((r - k * (2 * pi)) - k * (2 * pi_lo)) in
  if a <=? pi / 4 then cos_poly a
  else if a <=? 3 * pi / 4 then sin_poly ((pi / 2 - a) + pi_lo / 2)
  else - cos_poly ((pi - a) + pi_lo).

Definition isfinite (x : float) : bool :=
  negb (is_nan x || is_infinity x).

End Float64.

#[export] Instance Float64_Arith : Arith float := {|
  zero := 0%float;
  one := 1%float;
  add := PrimFloat.add;
  sub := PrimFloat.sub;
  mul := PrimFloat.mul;
  div := PrimFloat.div;
  opp := PrimFloat.opp;
  of_Z := Float64.of_Z;
  eqb := PrimFloat.eqb;
  leb := PrimFloat.leb;
  isfinite := Float64.isfinite;
  pi := Float64.pi;
  cos := Float64.cos
|}.

(** ** Real arithmetic *)
Module Real.

Definition eqb (x y : R) : bool := if Req_dec_T x y then true else false.
Definition leb (x y : R) : bool := if Rle_dec x y then true else false.

End Real.

#[export] Instance Real_Arith : Arith R := {|
  zero := 0%R;
  one := 1%R;
  add := Rplus;
  sub := Rminus;
  mul := Rmult;
  div := Rdiv;
  opp := Ropp;
  of_Z := IZR;
  eqb := Real.eqb;
  leb := Real.leb;
  isfinite := fun _ => true;
  pi := PI;
  cos := Rtrigo_def.cos
|}.

(** ** Exact arithmetic

    What the algebraic facts below use of an arithmetic without rounding:
    the ring laws, the two simplest facts on the division and the
    comparison, and that every number is finite. *)
Class ExactArith (F : Type) {A : Arith F} : Prop := {
  arith_ring : ring_theory zero one add mul sub opp (@eq F);
  div_zero : forall y : F, div zero y = zero;
  div_one : forall x : F, div x one = x;
  leb_zero : leb (zero : F) zero = true;
  isfinite_all : forall x : F, isfinite x = true
}.

(** The real numbers are an exact arithmetic. *)
#[export] Instance Real_Exact : ExactArith R.
Proof.
  split.
  - exact RTheory.
  - intros y. simpl. unfold Rdiv. ring.
  - intros x. simpl. field.
  - simpl. unfold Real.leb. destruct (Rle_dec 0 0); [reflexivity|lra].
  - reflexivity.
Qed.

(** ** Inputs on which the definitions are run *)

(** The frame of the notebook: [np.arange(1, 201)/200]. *)
Definition golden_frame : list float :=
  map (fun k => PrimFloat.div (Float64.of_Z k) 200%float) (arange 1 201).

(** The literal [0.99]. *)
Definition d_golden : float := 0x1.fae147ae147aep-1%float.

(** The globals of the notebook as it stands: after the pre-frame cell,
    after the gross and after the fine glottis estimation. *)
Definition golden_preframe : globals float :=
  Eval vm_compute in
    match cell_preframe (cell_defaults (cell_parameters golden_frame 16 3 d_golden [] fresh)) with
    | Ok g => g
    | Raise _ => fresh
    end.

Definition golden_gross : globals float :=
  Eval vm_compute in
    match cell_gross (cell_lip golden_preframe) with
    | Ok g => g
    | Raise _ => fresh
    end.

Definition golden_fine_glottis : globals float :=
  Eval vm_compute in
    match cell_fine_glottis golden_gross with
    | Ok g => g
    | Raise _ => fresh
    end.

(** The globals of a session that has a gross estimate left from an
    earlier run, and ones in the memory outside of the arrays. *)
Definition stale : globals float :=
  {| s_gvl := []; nv := 0; ng := 0; d := 0%float; win := [];
     Lpf := 0; x_gvl := []; idx_pf := []; al := []; s_gv := []; x_gv := [];
     ag1 := [1; -0.5]%float; x_v1x := []; s_v1x := []; ag1x := []; x_g1 := [];
     s_g1 := []; ag := []; x_v := []; s_v := []; av := [];
     heap := fun _ _ => 1%float |}.

(** The run on the frame [[1, 2]] with [nv = 3], [ng = 1], [d = 0.5] and
    the window [[1]]: the globals before the last cell, and the signal of
    two samples that the last cell fits a filter of the order three on. *)
Definition pair_fine_glottis : globals float :=
  Eval vm_compute in
    match (g <- cell_preframe
                  (cell_defaults
                     (cell_parameters [1; 2]%float 3 1 0.5%float [1%float] fresh)) ;;
           g <- cell_gross (cell_lip g) ;;
           cell_fine_glottis g) with
    | Ok g => g
    | Raise _ => fresh
    end.

Definition pair_windowed : list float :=
  Eval vm_compute in
    match (r <- take (lfilter (ag pair_fine_glottis) [1%float] (x_gv pair_fine_glottis))
                  (idx_pf pair_fine_glottis) ;;
           multiply r (win pair_fine_glottis)) with
    | Ok y => y
    | Raise _ => []
    end.

(** A short frame, with [nv = 1], [ng = 1] and [d = 0.5]. *)
Definition ramp5 : list float := [1; 2; 3; 4; 5]%float.

Definition ramp5_run : result (list float * list float * list float) :=
  Eval vm_compute in gfmiaif ramp5 1 1 0.5%float [] fresh.

(** The same frame with [d = 2]. *)
Definition ramp5_d2_run : result (list float * list float * list float) :=
  Eval vm_compute in gfmiaif ramp5 1 1 2%float [] fresh.

(** The same frame with a window of one weight. *)
Definition ramp5_w1_run : result (list float * list float * list float) :=
  Eval vm_compute in gfmiaif ramp5 1 1 0.5%float [1%float] fresh.

(** ** Notions for the statements *)

Section Notions.

Context {F : Type} {A : Arith F}.

(** A monic coefficient array with [n + 1] entries. *)
Definition monic (n : nat) (a : list F) : Prop :=
  length a = S n /\ hd_error a = Some one.

(** Both coefficient buffers of Burg's loop are monic. *)
Definition burg_monic (n : nat) (st : burg F) : Prop :=
  monic n (ar_coeffs st) /\ monic n (ar_coeffs_prev st).

(** The variables that are assigned before the gross glottis estimation
    starts; the later cells only read them. *)
Definition context_of (g : globals F) :=
  (s_gvl g, nv g, ng g, d g, win g, (Lpf g, x_gvl g, idx_pf g), (al g, s_gv g, x_gv g)).

(** Two results are the same to an observer who sees [view] of the globals. *)
Definition same_result {X : Type} (view : globals F -> X)
    (r r' : result (globals F)) : Prop :=
  match r, r' with
  | Ok g, Ok g' => view g = view g'
  | Raise e, Raise e' => e = e'
  | _, _ => False
  end.

(** What the user sets before a run. *)
Definition inputs_of (g : globals F) := (s_gvl g, nv g, ng g, d g, win g).

(** What the gross estimation reads and assigns. *)
Definition gross_view (g : globals F) := (context_of g, ag1 g).

(** What the fine vocal tract estimation reads. *)
Definition fine_view (g : globals F) := (context_of g, ag g).

(** What a run returns. *)
Definition outputs_of (g : globals F) := (av g, ag g, al g).

(** An array of zeros. *)
Definition silent (x : list F) : Prop := Forall (fun v => v = zero) x.

(** The delays of the filter after the samples [hist]. *)
Fixpoint state_of (b hist : list F) : list F :=
  match b with
  | [] => []
  | _ :: b' => weighted b hist :: state_of b' hist
  end.

End Notions.

(** ** The statements that the code does not meet, as they are worded *)

Section Worded.

Context {F : Type} {A : Arith F}.

(** [d] lies strictly between zero and one. *)
Definition valid_d (d0 : F) : bool :=
  negb (leb d0 zero) && negb (leb one d0).

(** Every call with [d] outside of (0, 1), an empty frame, an order below
    one or a window of another length than the frame fails. *)
Definition rejects_invalid_parameters : Prop :=
  forall (s : list F) (nv0 ng0 : Z) (d0 : F) (w : list F) (g0 : globals F),
    valid_d d0 = false \/ s = [] \/ (nv0 <= 0)%Z \/ (ng0 <= 0)%Z \/
    (w <> [] /\ length w <> length s) ->
    exists e, gfmiaif s nv0 ng0 d0 w g0 = Raise e.

(** The globals [g] at the start of a pass of the loop of the gross
    estimation, in the run on the given parameters. *)
Definition in_gross_loop (s : list F) (nv0 ng0 : Z) (d0 : F) (w : list F)
    (g0 g : globals F) : Prop :=
  exists gp y a k,
    cell_preframe (cell_defaults (cell_parameters s nv0 ng0 d0 w g0)) = Ok gp /\
    multiply (s_gv (cell_lip gp)) (win (cell_lip gp)) = Ok y /\
    lpc (heap (cell_lip gp)) y 1 = Ok a /\
    k < Z.to_nat ng0 /\
    gross_loop k (set_ag1 a (cell_lip gp)) = Ok g.

(** The residual of a pass as the specification words it: [x_gv] filtered
    with the gross estimate as the denominator and [[1]] as the numerator,
    without its first [Lpf] samples. *)
Definition allpole_residual (g : globals F) : list F :=
  skipn (Z.to_nat (Lpf g)) (lfilter [one] (ag1 g) (x_gv g)).

Definition inverse_filters_by_denominator : Prop :=
  forall (s : list F) (nv0 ng0 : Z) (d0 : F) (w : list F) (g0 g g' : globals F),
    in_gross_loop s nv0 ng0 d0 w g0 g ->
    gross_step g = Ok g' ->
    s_v1x g' = allpole_residual g.

(** Two runs on the same parameters return the same, whatever the session
    holds of earlier runs. *)
Definition deterministic : Prop :=
  forall (s : list F) (nv0 ng0 : Z) (d0 : F) (w : list F) (g0 g0' : globals F),
    gfmiaif s nv0 ng0 d0 w g0 = gfmiaif s nv0 ng0 d0 w g0'.

(** The energy of a signal. *)
Definition energy (x : list F) : F := dot x x.

(** The residual after the gross estimation has no more energy than the
    windowed frame. *)
Definition residual_energy_bounded : Prop :=
  forall (s : list F) (nv0 ng0 : Z) (d0 : F) (w : list F) (g0 g : globals F)
         (y : list F),
    run_cells (cell_parameters s nv0 ng0 d0 w g0) = Ok g ->
    multiply (s_gvl g) (win g) = Ok y ->
    leb (energy (s_g1 g)) (energy y) = true.

End Worded.

Arguments rejects_invalid_parameters F {A}.
Arguments inverse_filters_by_denominator F {A}.
Arguments residual_energy_bounded F {A}.
Arguments deterministic F {A}.

(** The globals of the run on [ramp5] when the loop of the gross estimation
    is entered, and after its only pass. *)
Definition ramp5_preframe : globals float :=
  Eval vm_compute in
    match cell_preframe (cell_defaults (cell_parameters ramp5 1 1 0.5%float [] fresh)) with
    | Ok g => g
    | Raise _ => fresh
    end.

Definition ramp5_windowed : list float :=
  Eval vm_compute in
    match multiply (s_gv (cell_lip ramp5_preframe)) (win (cell_lip ramp5_preframe)) with
    | Ok y => y
    | Raise _ => []
    end.

Definition ramp5_first_fit : list float :=
  Eval vm_compute in
    match lpc (heap (cell_lip ramp5_preframe)) ramp5_windowed 1 with
    | Ok a => a
    | Raise _ => []
    end.

Definition ramp5_loop_entry : globals float :=
  set_ag1 ramp5_first_fit (cell_lip ramp5_preframe).

Definition ramp5_loop_exit : globals float :=
  Eval vm_compute in
    match gross_step ramp5_loop_entry with
    | Ok g => g
    | Raise _ => fresh
    end.

(** Two arrays of binary64 numbers hold the same numbers. *)
Fixpoint same_floats (a b : list float) : bool :=
  match a, b with
  | [], [] => true
  | x :: a', y :: b' => PrimFloat.eqb x y && same_floats a' b'
  | _, _ => false
  end.

(** A frame of three ones, with [nv = 1], [ng = 1], [d = 0.5] and the
    default window. *)
Definition ones3 : list float := [1; 1; 1]%float.

Definition ones3_globals : globals float :=
  Eval vm_compute in
    match run_cells (cell_parameters ones3 1 1 0.5%float [] fresh) with
    | Ok g => g
    | Raise _ => fresh
    end.

Definition ones3_windowed : list float :=
  Eval vm_compute in
    match multiply (s_gvl ones3_globals) (win ones3_globals) with
    | Ok y => y
    | Raise _ => []
    end.

(** The output of the first order filter [[1, c]] as numerator, from the
    delay [z] on. *)
Fixpoint fir1 (c z : R) (x : list R) : list R :=
  match x with
  | [] => []
  | x0 :: x' => (z + x0)%R :: fir1 c (c * x0)%R x'
  end.

(** The last cell of the notebook as it stands. *)
Definition golden_fine_vocal_tract : globals float :=
  Eval vm_compute in
    match cell_fine_vocal_tract golden_fine_glottis with
    | Ok g => g
    | Raise _ => fresh
    end.

(** The output that the notebook displays: the gross estimate after the
    last pass of the loop, and the three filters. *)
Definition notebook_ag1 : list float :=
  [1; -3.99916214; 5.99748668; -3.99748694; 0.9991624]%float.

Definition notebook_av : list float :=
  [ 1.00000000e+00; -5.67742566e+00; 1.33603247e+01; -1.66525007e+01;
    1.15628476e+01; -4.21722459e+00; 6.19505951e-01; 4.16028924e-03;
    1.73642216e-04; 6.39553507e-05; 8.71622415e-06; -3.17808103e-03;
    1.95867928e-02; -4.64771440e-02; 5.44628758e-02; -3.16935984e-02;
    7.36528743e-03 ]%float.

Definition notebook_ag : list float :=
  [1; 0.15079032; -0.09182607; -0.16945253]%float.

Definition notebook_al : list float := [1.0; -0.99]%float.

(** Every number of [a] is within [tol] of its counterpart in [b]. *)
Fixpoint close_to (tol : float) (a b : list float) : bool :=
  match a, b with
  | [], [] => true
  | x :: a', y :: b' =>
      PrimFloat.leb (PrimFloat.abs (PrimFloat.sub x y)) tol && close_to tol a' b'
  | _, _ => false
  end.

(** ** Further notions for the statements *)

Section Recursions.

Context {F : Type} {A : Arith F}.

(** The leaky integration [y[n] = x[n] + d0*y[n-1]], started with [z] for
    [d0*y[-1]]. *)
Fixpoint leaky (d0 z : F) (x : list F) : list F :=
  match x with
  | [] => []
  | xn :: x' => add z xn :: leaky d0 (mul d0 (add z xn)) x'
  end.

(** [n] samples of the transient [z, d0*z, d0*d0*z, ...]. *)
Fixpoint decay (d0 z : F) (n : nat) : list F :=
  match n with
  | O => []
  | S n' => z :: decay d0 (mul d0 z) n'
  end.

(** The sum of the elements of an array. *)
Definition total (x : list F) : F := fold_left add x zero.

(** The array [x] with every element multiplied by [c]. *)
Definition scaled (c : F) (x : list F) : list F := map (mul c) x.

(** What makes the fits of the order [order] on the frame come out the
    same in two sessions [g] and [g']: their memories hold the same, or the
    order does not exceed the number of samples of the frame, or the
    arithmetic lets no fit of this order read the memory. *)
Definition fits_alike (order : Z) (g g' : globals F) : Prop :=
  (forall i k, heap g i k = heap g' i k) \/
  (order <= Z.of_nat (length (idx_pf g)))%Z \/
  (forall y, lpc (heap g) y order = lpc (heap g') y order).

End Recursions.

Section Products.

Context {F : Type} {A : Arith F}.

(** The [n]-th coefficient of the product of two sequences,
    [f 0 * g n + f 1 * g (n-1) + ... + f n * g 0]. *)
Fixpoint cauchy (f g : nat -> F) (n : nat) : F :=
  match n with
  | O => mul (f 0) (g 0)
  | S n' => add (mul (f 0) (g (S n'))) (cauchy (fun i => f (S i)) g n')
  end.

(** An array as a sequence that goes on with zeros. *)
Definition coeff (a : list F) (i : nat) : F := nth i a zero.

End Products.

(** The state of Burg's loop is balanced when the two prediction errors
    have one length and the denominator is the sum of their energies. *)
Definition burg_balanced (st : burg R) : Prop :=
  length (fwd_pred_error st) = length (bwd_pred_error st) /\
  den st = (energy (fwd_pred_error st) + energy (bwd_pred_error st))%R.

(** The coefficient buffers of Burg's loop after [i] passes, for the
    order [n]: both are monic, their coefficients beyond the order [i] are
    zero, and the coefficient of the order [i] lies between minus one and
    one. *)
Definition burg_order (n i : nat) (st : burg R) : Prop :=
  burg_monic n st /\
  (forall j, i < j -> nth j (ar_coeffs st) 0%R = 0%R) /\
  (forall j, i < j -> nth j (ar_coeffs_prev st) 0%R = 0%R) /\
  (-1 <= nth i (ar_coeffs st) 0 <= 1)%R.

(** The lengths that [np.multiply] accepts: equal, or one of them one. *)
Definition broadcasts (n m : nat) : bool :=
  Nat.eqb n m || Nat.eqb m 1 || Nat.eqb n 1.

(** ** Notions for the invariance under the gain of the frame and of the
    window *)

(** A function applied to the value of a result. *)
Definition rmap {X Y : Type} (f : X -> Y) (r : result X) : result Y :=
  match r with
  | Ok a => Ok (f a)
  | Raise e => Raise e
  end.

(** Two results raise the same exception, or are both values, related by
    [P]. *)
Definition both {X : Type} (P : X -> X -> Prop) (r r' : result X) : Prop :=
  match r, r' with
  | Ok a, Ok a' => P a a'
  | Raise e, Raise e' => e = e'
  | _, _ => False
  end.

(** The state of Burg's loop on a signal and on the signal multiplied by
    [c]. *)
Definition burg_scaled (c : R) (st st' : burg R) : Prop :=
  ar_coeffs st' = ar_coeffs st /\ ar_coeffs_prev st' = ar_coeffs_prev st /\
  fwd_pred_error st' = scaled c (fwd_pred_error st) /\
  bwd_pred_error st' = scaled c (bwd_pred_error st) /\
  den st' = (c * c * den st)%R.

(** The variables that the estimation cells read, in a run on a frame and
    in the run on the frame multiplied by [c]. *)
Definition globals_scaled (c : R) (g g' : globals R) : Prop :=
  nv g' = nv g /\ ng g' = ng g /\ win g' = win g /\ idx_pf g' = idx_pf g /\
  al g' = al g /\ ag1 g' = ag1 g /\ ag g' = ag g /\ av g' = av g /\
  s_gv g' = scaled c (s_gv g) /\ x_gv g' = scaled c (x_gv g).

(** The variables that the estimation cells read, in a run with a window
    and in the run with the window multiplied by [c]. *)
Definition window_scaled (c : R) (g g' : globals R) : Prop :=
  nv g' = nv g /\ ng g' = ng g /\ win g' = scaled c (win g) /\
  idx_pf g' = idx_pf g /\ al g' = al g /\ ag1 g' = ag1 g /\ ag g' = ag g /\
  av g' = av g /\ s_gv g' = s_gv g /\ x_gv g' = x_gv g.
(** ** Facts that hold in every arithmetic *)

Lemma bind_Ok {A B : Type} (r : result A) (k : A -> result B) (b : B) :
  bind r k = Ok b -> exists a, r = Ok a /\ k a = Ok b.
Proof.
  destruct r as [a|e]; simpl; intros H; [exists a; auto | discriminate].
Qed.

(** [inv_bind H] splits a successful sequence [H : (x <- r ;; k) = Ok b]. *)
Ltac inv_bind H :=
  let v := fresh "v" in
  let E := fresh "E" in
  apply bind_Ok in H; destruct H as (v & E & H).

Ltac inv_Ok H := injection H as H; subst.

(** [inv_results] splits every successful sequence among the hypotheses. *)
Ltac inv_results :=
  repeat match goal with
         | H : bind _ _ = Ok _ |- _ => inv_bind H
         | H : Ok _ = Ok _ |- _ => inv_Ok H
         end.

Section Shapes.

Context {F : Type} {A : Arith F}.

Lemma length_map2 (f : F -> F -> F) (a b : list F) :
  length (map2 f a b) = Nat.min (length a) (length b).
Proof.
  revert b; induction a as [|x a IH]; intros [|y b]; simpl; auto.
Qed.

Lemma length_arange (lo hi : Z) : length (arange lo hi) = Z.to_nat (hi - lo).
Proof. unfold arange; now rewrite length_map, length_seq. Qed.

Lemma length_set_nth (j : nat) (v : F) (l : list F) :
  length (set_nth j v l) = length l.
Proof.
  revert j; induction l as [|x l IH]; intros [|j]; simpl; auto.
Qed.

Lemma hd_set_nth (j : nat) (v : F) (l : list F) :
  hd_error (set_nth (S j) v l) = hd_error l.
Proof. destruct l; reflexivity. Qed.

Lemma getitem_nth (a : list F) (i : nat) :
  i < length a -> getitem a (Z.of_nat i) = Ok (nth i a zero).
Proof.
  intros Hi. unfold getitem.
  replace ((0 <=? Z.of_nat i) && (Z.of_nat i <? Z.of_nat (length a)))%Z with true.
  - now rewrite Nat2Z.id.
  - symmetry. apply andb_true_iff. split; [apply Z.leb_le | apply Z.ltb_lt]; lia.
Qed.

(** Indexing with the indices from [lo] to the end drops the first [lo]
    elements. *)
Lemma take_skipn (n : nat) (a : list F) (lo : nat) :
  length a = lo + n ->
  take a (arange (Z.of_nat lo) (Z.of_nat (length a))) = Ok (skipn lo a).
Proof.
  unfold arange. intros Hlen.
  replace (Z.to_nat (Z.of_nat (length a) - Z.of_nat lo)) with n by lia.
  revert a lo Hlen.
  induction n as [|n IH]; intros a lo Hlen.
  - simpl. rewrite skipn_all2 by lia. reflexivity.
  - assert (Hs : skipn lo a = nth lo a zero :: skipn (S lo) a).
    { clear IH. revert lo Hlen. induction a as [|x a IHa]; intros [|lo] Hlen;
        simpl in *; try lia; auto. }
    rewrite Hs. cbn [seq map take].
    rewrite Z.add_0_r, getitem_nth by lia. cbn [bind].
    specialize (IH a (S lo)).
    rewrite <- seq_shift, map_map.
    rewrite (map_ext (fun k => (Z.of_nat lo + Z.of_nat (S k))%Z)
                     (fun k => (Z.of_nat (S lo) + Z.of_nat k)%Z)) by (intros; lia).
    rewrite IH by lia. reflexivity.
Qed.

Lemma length_lfilter_run (b0 : F) (b a z x : list F) :
  length (lfilter_run b0 b a z x) = length x.
Proof.
  revert z; induction x as [|xn x IH]; intros z; simpl; auto.
Qed.

Lemma length_lfilter (b a x : list F) : length (lfilter b a x) = length x.
Proof. apply length_lfilter_run. Qed.

(** Arrays of different lengths, both with at least two elements, do not
    broadcast. *)
Lemma multiply_mismatch (a b : list F) :
  2 <= length a -> 2 <= length b -> length a <> length b ->
  multiply a b = Raise ValueError.
Proof.
  unfold multiply. intros Ha Hb Hn.
  destruct (Nat.eqb_spec (length a) (length b)) as [|_]; [contradiction|].
  destruct a as [|x [|x' a]]; simpl in Ha; try lia.
  destruct b as [|y [|y' b]]; simpl in Hb; try lia.
  reflexivity.
Qed.

Lemma length_linspace (start stop : F) (num : Z) (y : list F) :
  linspace start stop num = Ok y -> length y = Z.to_nat num /\ (0 <= num)%Z.
Proof.
  unfold linspace. destruct (Z.ltb_spec num 0) as [|Hn]; [discriminate|].
  intros H. inv_Ok H. split; [|assumption].
  set (y0 := map _ (if (0 <? num - 1)%Z then _ else _)).
  assert (Hy : length y0 = Z.to_nat num).
  { unfold y0. destruct (0 <? num - 1)%Z; [destruct (eqb _ _)|];
      now rewrite !length_map, length_arange, Z.sub_0_r. }
  destruct (Z.ltb_spec 1 num); [|assumption].
  rewrite length_app. simpl.
  rewrite removelast_firstn_len, length_firstn. simpl. lia.
Qed.

End Shapes.

(** *** The shape of an LPC estimate *)

Section LpcShape.

Context {F : Type} {A : Arith F}.

Lemma levinson_monic (n i : nat) (k : F) (ar ar_prev : list F) :
  monic n ar -> monic n (levinson i k ar ar_prev).
Proof.
  unfold levinson.
  assert (Hpos : Forall (fun j => 1 <= j) (seq 1 (i + 1))).
  { apply Forall_forall. intros j Hj. apply in_seq in Hj. lia. }
  revert Hpos. generalize (seq 1 (i + 1)). intros js Hpos. revert ar. induction Hpos as [|j js Hj _ IH]; intros ar Har; simpl; auto.
  apply IH. destruct Har as [Hl Hh]. split.
  - now rewrite length_set_nth.
  - destruct j as [|j]; [lia|]. now rewrite hd_set_nth.
Qed.

Lemma burg_step_monic (m : nat -> Z -> F) (n i : nat) (st st' : burg F) :
  burg_monic n st -> burg_step m st i = Ok st' -> burg_monic n st'.
Proof.
  intros [Ha Hp] H. unfold burg_step in H.
  destruct (leb (den st) zero); [discriminate|].
  inv_Ok H. split; simpl; auto using levinson_monic.
Qed.

Lemma burg_loop_monic (m : nat -> Z -> F) (n : nat) (orders : list nat)
    (st st' : burg F) :
  burg_monic n st -> burg_loop m st orders = Ok st' -> burg_monic n st'.
Proof.
  revert st; induction orders as [|i orders IH]; simpl; intros st Hst H.
  - inv_Ok H. assumption.
  - inv_bind H. eauto using burg_step_monic.
Qed.

(** [lpc] refuses an order below one, and a successful estimate of order
    [order] is monic with [order + 1] coefficients. *)
Lemma lpc_monic (m : nat -> Z -> F) (y : list F) (order : Z) (a : list F) :
  lpc m y order = Ok a -> (1 <= order)%Z /\ monic (Z.to_nat order) a.
Proof.
  unfold lpc. destruct (Z.ltb_spec order 1) as [|Ho]; [discriminate|].
  destruct (negb (forallb isfinite y)); [discriminate|].
  intros H. inv_bind H. inv_Ok H. split; [assumption|].
  eapply (burg_loop_monic m (Z.to_nat order)) in E.
  - apply E.
  - split; split; simpl; auto; now rewrite repeat_length.
Qed.

(** The product of two arrays has one coefficient less than both together. *)
Lemma length_convolve (a v c : list F) :
  convolve a v = Ok c -> length c = length a + length v - 1.
Proof.
  unfold convolve. destruct a as [|x a]; [discriminate|].
  destruct v as [|y v]; [discriminate|].
  destruct (Nat.ltb _ _); intros H; inv_Ok H;
    rewrite length_map, length_seq; simpl; lia.
Qed.

End LpcShape.

(** ** The cells, one by one *)

Section Cells.

Context {F : Type} {A : Arith F}.

Lemma context_of_eq (g g' : globals F) :
  context_of g = context_of g' ->
  s_gvl g = s_gvl g' /\ nv g = nv g' /\ ng g = ng g' /\ d g = d g' /\
  win g = win g' /\ Lpf g = Lpf g' /\ idx_pf g = idx_pf g' /\
  al g = al g' /\ x_gv g = x_gv g'.
Proof. unfold context_of. intros H. injection H. intros. repeat split; assumption. Qed.

Lemma gross_step_context (g g' : globals F) :
  gross_step g = Ok g' -> context_of g' = context_of g.
Proof.
  unfold gross_step. intros H. repeat inv_bind H. inv_Ok H. reflexivity.
Qed.

Lemma gross_loop_context (n : nat) (g g' : globals F) :
  gross_loop n g = Ok g' -> context_of g' = context_of g.
Proof.
  revert g; induction n as [|n IH]; simpl; intros g H.
  - inv_Ok H. reflexivity.
  - inv_bind H. rewrite (IH _ H). now apply gross_step_context.
Qed.

Lemma cell_gross_context (g g' : globals F) :
  cell_gross g = Ok g' -> context_of g' = context_of g.
Proof.
  unfold cell_gross. intros H. repeat inv_bind H.
  now rewrite (gross_loop_context _ _ _ H).
Qed.

Lemma cell_fine_glottis_context (g g' : globals F) :
  cell_fine_glottis g = Ok g' -> context_of g' = context_of g /\ ag1 g' = ag1 g.
Proof.
  unfold cell_fine_glottis. intros H. repeat inv_bind H. inv_Ok H. split; reflexivity.
Qed.

Lemma cell_fine_vocal_tract_context (g g' : globals F) :
  cell_fine_vocal_tract g = Ok g' ->
  context_of g' = context_of g /\ ag1 g' = ag1 g /\ ag g' = ag g.
Proof.
  unfold cell_fine_vocal_tract. intros H. repeat inv_bind H. inv_Ok H.
  repeat split; reflexivity.
Qed.

(** What the pre-frame cell assigns. *)
Lemma cell_preframe_Ok (g g' : globals F) :
  cell_preframe g = Ok g' ->
  exists s0 ramp,
    getitem (s_gvl g) 0 = Ok s0 /\
    linspace (opp s0) s0 (nv g + 1) = Ok ramp /\
    g' = set_idx_pf (arange (nv g + 1) (Z.of_nat (length (ramp ++ s_gvl g))))
           (set_x_gvl (ramp ++ s_gvl g) (set_Lpf (nv g + 1)%Z g)).
Proof.
  unfold cell_preframe. intros H. simpl in H. repeat inv_bind H. inv_Ok H.
  eauto.
Qed.

(** Each pass of the loop multiplies the gross estimate by one first order
    filter. *)
Lemma gross_step_length (g g' : globals F) :
  gross_step g = Ok g' -> length (ag1 g') = length (ag1 g) + 1.
Proof.
  unfold gross_step. intros H. repeat inv_bind H. inv_Ok H. simpl in *.
  apply length_convolve in E2. apply lpc_monic in E1 as [_ [Hl _]].
  rewrite E2, Hl. simpl. lia.
Qed.

Lemma gross_loop_length (n : nat) (g g' : globals F) :
  gross_loop n g = Ok g' -> length (ag1 g') = length (ag1 g) + n.
Proof.
  revert g; induction n as [|n IH]; simpl; intros g H.
  - inv_Ok H. lia.
  - inv_bind H. rewrite (IH _ H), (gross_step_length _ _ E). lia.
Qed.

End Cells.

(** ** The three filters of a run *)

Section Run.

Context {F : Type} {A : Arith F}.

(** A successful run went through the four estimation cells. *)
Lemma run_cells_Ok (g gf : globals F) :
  run_cells g = Ok gf ->
  exists gp gg ga,
    cell_preframe (cell_defaults g) = Ok gp /\
    cell_gross (cell_lip gp) = Ok gg /\
    cell_fine_glottis gg = Ok ga /\
    cell_fine_vocal_tract ga = Ok gf.
Proof.
  unfold run_cells. intros H. do 3 inv_bind H.
  do 3 eexists. repeat split; eassumption.
Qed.

Lemma cell_defaults_inputs (g : globals F) :
  s_gvl (cell_defaults g) = s_gvl g /\ nv (cell_defaults g) = nv g /\
  ng (cell_defaults g) = ng g /\ d (cell_defaults g) = d g.
Proof. unfold cell_defaults. destruct (win g); repeat split; reflexivity. Qed.

Lemma cell_preframe_inputs (g g' : globals F) :
  cell_preframe g = Ok g' ->
  s_gvl g' = s_gvl g /\ nv g' = nv g /\ ng g' = ng g /\ d g' = d g /\ win g' = win g.
Proof.
  intros H. apply cell_preframe_Ok in H as (s0 & ramp & _ & _ & ->).
  repeat split; reflexivity.
Qed.

(** The variables fixed before the gross estimation keep their values to
    the end of the run. *)
Lemma run_cells_context (g gp gf : globals F) :
  cell_preframe (cell_defaults g) = Ok gp ->
  run_cells g = Ok gf ->
  context_of gf = context_of (cell_lip gp).
Proof.
  intros Hp H. apply run_cells_Ok in H as (gp' & gg & ga & Hp' & Hg & Ha & Hf).
  rewrite Hp in Hp'. inv_Ok Hp'.
  apply cell_fine_vocal_tract_context in Hf as (-> & _).
  apply cell_fine_glottis_context in Ha as (-> & _).
  now apply cell_gross_context.
Qed.

Lemma cell_fine_glottis_ag (g g' : globals F) :
  cell_fine_glottis g = Ok g' -> exists y, lpc (heap g) y (ng g) = Ok (ag g').
Proof.
  unfold cell_fine_glottis. intros H. repeat inv_bind H. inv_Ok H. simpl in *. eauto.
Qed.

Lemma cell_fine_vocal_tract_av (g g' : globals F) :
  cell_fine_vocal_tract g = Ok g' -> exists y, lpc (heap g) y (nv g) = Ok (av g').
Proof.
  unfold cell_fine_vocal_tract. intros H. repeat inv_bind H. inv_Ok H. simpl in *. eauto.
Qed.

(** C2.  Whatever the frame, the lip radiation filter that a run returns is
    [[1, -d]]: the filter is assigned from the parameter [d] and no later
    cell assigns it again. *)
Theorem lip_radiation_invariance (s : list F) (nv0 ng0 : Z) (d0 : F) (w : list F)
    (g0 : globals F) (av' ag' al' : list F) :
  gfmiaif s nv0 ng0 d0 w g0 = Ok (av', ag', al') ->
  al' = [one; opp d0].
Proof.
  unfold gfmiaif. intros H. inv_bind H. inv_Ok H.
  destruct (run_cells_Ok _ _ E) as (gp & _ & _ & Hp & _).
  pose proof (run_cells_context _ _ _ Hp E) as Hc.
  apply context_of_eq in Hc as (_ & _ & _ & _ & _ & _ & _ & -> & _).
  apply cell_preframe_inputs in Hp as (_ & _ & _ & Hd & _).
  destruct (cell_defaults_inputs (cell_parameters s nv0 ng0 d0 w g0)) as (_ & _ & _ & Hd').
  simpl. now rewrite Hd, Hd'.
Qed.

(** The three filters of a successful run, and the orders that a run
    accepts. *)
Lemma run_shapes (s : list F) (nv0 ng0 : Z) (d0 : F) (w : list F)
    (g0 : globals F) (av' ag' al' : list F) :
  gfmiaif s nv0 ng0 d0 w g0 = Ok (av', ag', al') ->
  (1 <= nv0)%Z /\ (1 <= ng0)%Z /\
  monic (Z.to_nat nv0) av' /\ monic (Z.to_nat ng0) ag'.
Proof.
  intros H. unfold gfmiaif in H. inv_bind H. inv_Ok H.
  destruct (run_cells_Ok _ _ E) as (gp & gg & ga & Hp & Hg & Ha & Hf).
  pose proof (cell_preframe_inputs _ _ Hp) as (_ & Hnv & Hng & _).
  destruct (cell_defaults_inputs (cell_parameters s nv0 ng0 d0 w g0)) as (_ & Hnv' & Hng' & _).
  rewrite Hnv' in Hnv. rewrite Hng' in Hng. simpl in Hnv, Hng.
  pose proof (cell_gross_context _ _ Hg) as Hcg.
  apply context_of_eq in Hcg as (_ & Hnv1 & Hng1 & _). simpl in Hnv1, Hng1.
  pose proof (cell_fine_glottis_context _ _ Ha) as (Hca & _).
  apply context_of_eq in Hca as (_ & Hnv2 & _).
  pose proof (cell_fine_vocal_tract_context _ _ Hf) as (_ & _ & Hag).
  destruct (cell_fine_glottis_ag _ _ Ha) as (y & Hy).
  destruct (cell_fine_vocal_tract_av _ _ Hf) as (y' & Hy').
  apply lpc_monic in Hy as (Hge & Hm).
  apply lpc_monic in Hy' as (Hge' & Hm').
  rewrite Hag.
  replace nv0 with (nv ga) by congruence. replace ng0 with (ng gg) by congruence.
  auto.
Qed.

(** C3.  In a successful run the vocal tract filter has [nv + 1]
    coefficients, the glottis filter has [ng + 1] coefficients, and each of
    the three filters starts with the coefficient one. *)
Theorem shape_invariants (s : list F) (nv0 ng0 : Z) (d0 : F) (w : list F)
    (g0 : globals F) (av' ag' al' : list F) :
  gfmiaif s nv0 ng0 d0 w g0 = Ok (av', ag', al') ->
  Z.of_nat (length av') = (nv0 + 1)%Z /\
  Z.of_nat (length ag') = (ng0 + 1)%Z /\
  hd_error av' = Some one /\ hd_error ag' = Some one /\ hd_error al' = Some one.
Proof.
  intros H.
  destruct (run_shapes _ _ _ _ _ _ _ _ _ H) as (Hnv & Hng & (Hl & Hh) & (Hl' & Hh')).
  unfold gfmiaif in H. inv_bind H. inv_Ok H.
  destruct (run_cells_Ok _ _ E) as (gp & _ & _ & Hp & _).
  pose proof (run_cells_context _ _ _ Hp E) as Hc.
  apply context_of_eq in Hc as (_ & _ & _ & _ & _ & _ & _ & Hal & _).
  rewrite Hl, Hl', Hal.
  repeat split; try assumption; try reflexivity; lia.
Qed.

(** C5.  When the gross estimation is through, the gross estimate [ag1] has
    [ng + 2] coefficients: the first fit contributes two and each of the
    [ng] passes of the loop one more. *)
Theorem gross_cascade_length (g g' : globals F) :
  cell_gross g = Ok g' ->
  length (ag1 g') = Z.to_nat (ng g) + 2.
Proof.
  unfold cell_gross. intros H. repeat inv_bind H.
  apply gross_loop_length in H. apply lpc_monic in E0 as (_ & Hl & _).
  rewrite H. simpl. rewrite Hl. simpl. lia.
Qed.

(** The Hanning window for a frame has the length of the frame. *)
Lemma length_hanning (n : nat) : length (hanning (F := F) (Z.of_nat n)) = n.
Proof.
  unfold hanning.
  destruct (Z.ltb_spec (Z.of_nat n) 1) as [H|H]; [simpl; lia|].
  destruct (Z.eqb_spec (Z.of_nat n) 1) as [H1|H1]; [simpl; lia|].
  rewrite length_map, length_arange. lia.
Qed.

(** C10.  An empty [win] is not compared with the frame: a run with it is
    the run with the Hanning window of the frame's length, which has as
    many weights as the frame has samples. *)
Theorem empty_window_is_default (s : list F) (nv0 ng0 : Z) (d0 : F) (g0 : globals F) :
  gfmiaif s nv0 ng0 d0 [] g0
  = gfmiaif s nv0 ng0 d0 (hanning (Z.of_nat (length s))) g0
  /\ win (cell_defaults (cell_parameters s nv0 ng0 d0 [] g0))
     = hanning (Z.of_nat (length s))
  /\ length (hanning (F := F) (Z.of_nat (length s))) = length s.
Proof.
  split; [|split; [reflexivity | apply length_hanning]].
  unfold gfmiaif, run_cells.
  replace (cell_defaults (cell_parameters s nv0 ng0 d0 (hanning (Z.of_nat (length s))) g0))
    with (cell_defaults (cell_parameters s nv0 ng0 d0 [] g0)); [reflexivity|].
  unfold cell_defaults. simpl.
  destruct (hanning (Z.of_nat (length s))); reflexivity.
Qed.

End Run.

(** The run of the short frame, for C2 and C3. *)
Lemma ramp5_run_eq : gfmiaif ramp5 1 1 0.5%float [] fresh = ramp5_run.
Proof. vm_compute. reflexivity. Qed.

Lemma lip_radiation_invariance_witness :
  exists av' ag' al',
    gfmiaif ramp5 1 1 0.5%float [] fresh = Ok (av', ag', al') /\
    al' = [1; -0.5]%float.
Proof.
  pose proof ramp5_run_eq as E. unfold ramp5_run in E.
  eexists _, _, _. split; [exact E|].
  exact (lip_radiation_invariance _ _ _ _ _ _ _ _ _ E).
Defined.

Lemma shape_invariants_witness :
  exists av' ag' al',
    gfmiaif ramp5 1 1 0.5%float [] fresh = Ok (av', ag', al') /\
    length av' = 2 /\ length ag' = 2 /\
    hd_error av' = Some 1%float /\ hd_error ag' = Some 1%float /\
    hd_error al' = Some 1%float.
Proof.
  pose proof ramp5_run_eq as E. unfold ramp5_run in E.
  eexists _, _, _. split; [exact E|].
  destruct (shape_invariants _ _ _ _ _ _ _ _ _ E) as (H1 & H2 & H3 & H4 & H5).
  repeat split; try assumption; lia.
Defined.

(** ** Parameters that a run refuses *)

Section Refused.

Context {F : Type} {A : Arith F}.

(** An empty frame has no first sample for the pre-frame. *)
Lemma empty_frame_IndexError (nv0 ng0 : Z) (d0 : F) (w : list F) (g0 : globals F) :
  gfmiaif [] nv0 ng0 d0 w g0 = Raise IndexError.
Proof.
  unfold gfmiaif, run_cells, cell_preframe. cbn [s_gvl set_Lpf].
  destruct (cell_defaults_inputs (cell_parameters [] nv0 ng0 d0 w g0)) as (-> & _).
  reflexivity.
Qed.

(** A window that is given is the window of the run. *)
Lemma cell_defaults_window (s : list F) (nv0 ng0 : Z) (d0 : F) (w : list F)
    (g0 : globals F) :
  w <> [] -> win (cell_defaults (cell_parameters s nv0 ng0 d0 w g0)) = w.
Proof.
  intros Hw. unfold cell_defaults. simpl. destruct w; [contradiction|reflexivity].
Qed.

(** [linspace] raises nothing but [ValueError]. *)
Lemma linspace_Raise (start stop : F) (num : Z) (e : exn) :
  linspace start stop num = Raise e -> e = ValueError.
Proof.
  unfold linspace. destruct (num <? 0)%Z; intros H; [|discriminate].
  now injection H.
Qed.

(** A window of another length than the frame, both with two entries at
    least, makes the run raise [ValueError]: at the first product with the
    window, unless the pre-frame has raised it already. *)
Lemma window_mismatch_ValueError (s : list F) (nv0 ng0 : Z) (d0 : F) (w : list F)
    (g0 : globals F) :
  2 <= length w -> 2 <= length s -> length w <> length s ->
  gfmiaif s nv0 ng0 d0 w g0 = Raise ValueError.
Proof.
  intros Hw Hs Hne. unfold gfmiaif, run_cells.
  set (g := cell_defaults (cell_parameters s nv0 ng0 d0 w g0)).
  assert (Hg : s_gvl g = s /\ win g = w).
  { destruct (cell_defaults_inputs (cell_parameters s nv0 ng0 d0 w g0)) as (H1 & _).
    split; [exact H1|].
    apply cell_defaults_window. destruct w; simpl in *; [lia|discriminate]. }
  destruct Hg as (Hgs & Hgw).
  destruct (cell_preframe g) as [gp|e] eqn:Hp.
  - cbn [bind]. apply cell_preframe_inputs in Hp as (Hs' & _ & _ & _ & Hw').
    unfold cell_gross. rewrite multiply_mismatch; [reflexivity| | |]; simpl.
    + rewrite length_lfilter, Hs', Hgs. exact Hs.
    + rewrite Hw', Hgw. exact Hw.
    + rewrite length_lfilter, Hs', Hgs, Hw', Hgw. congruence.
  - cbn [bind]. f_equal. unfold cell_preframe in Hp. cbn [s_gvl set_Lpf Lpf] in Hp.
    rewrite Hgs in Hp. destruct s as [|s0 s']; [simpl in Hs; lia|].
    change (getitem (s0 :: s') 0) with (getitem (s0 :: s') (Z.of_nat 0)) in Hp.
    rewrite getitem_nth in Hp by (simpl; lia). cbn [bind nth] in Hp.
    destruct (linspace (opp s0) s0 (nv g + 1)) as [ramp|e'] eqn:Hl; [discriminate|].
    cbn [bind] in Hp. injection Hp as <-. exact (linspace_Raise _ _ _ _ Hl).
Qed.


End Refused.


Lemma ramp5_d2_run_eq : gfmiaif ramp5 1 1 2%float [] fresh = ramp5_d2_run.
Proof. vm_compute. reflexivity. Qed.


(** Not every [d] is: with a [d] that is no number, or with an infinite
    one, the leaky integration leaves numbers that are not finite, which
    [lpc] refuses at the first fit.  The range of [d] is not what is
    tested. *)
Lemma nonfinite_d_is_refused :
  gfmiaif ramp5 1 1 nan [] fresh = Raise ParameterError /\
  gfmiaif ramp5 1 1 infinity [] fresh = Raise ParameterError.
Proof. split; vm_compute; reflexivity. Qed.

Lemma ramp5_w1_run_eq : gfmiaif ramp5 1 1 0.5%float [1%float] fresh = ramp5_w1_run.
Proof. vm_compute. reflexivity. Qed.

(** So is a window of one weight for a frame of five samples: numpy
    broadcasts it. *)
Lemma window_of_one_weight_is_accepted :
  exists r, gfmiaif ramp5 1 1 0.5%float [1%float] fresh = Ok r.
Proof. rewrite ramp5_w1_run_eq. unfold ramp5_w1_run. eauto. Qed.

(** ** The passes of the gross estimation *)

Section GrossLoop.

Context {F : Type} {A : Arith F}.

(** The pre-frame and the indices that exclude it, during the loop. *)
Lemma in_gross_loop_shape (s : list F) (nv0 ng0 : Z) (d0 : F) (w : list F)
    (g0 g : globals F) :
  in_gross_loop s nv0 ng0 d0 w g0 g ->
  (0 <= nv0 + 1)%Z /\ Lpf g = (nv0 + 1)%Z /\
  length (x_gv g) = Z.to_nat (nv0 + 1) + length s /\
  idx_pf g = arange (nv0 + 1) (Z.of_nat (length (x_gv g))).
Proof.
  intros (gp & y & a & k & Hp & _ & _ & _ & Hk).
  apply gross_loop_context, context_of_eq in Hk
    as (_ & _ & _ & _ & _ & HL & Hi & _ & Hx).
  rewrite HL, Hi, Hx. clear HL Hi Hx.
  apply cell_preframe_Ok in Hp as (s0 & ramp & _ & Hr & ->).
  destruct (cell_defaults_inputs (cell_parameters s nv0 ng0 d0 w g0)) as (Hs & Hnv & _).
  rewrite Hs, Hnv in *. simpl in *.
  apply length_linspace in Hr as (Hr & Hpos).
  rewrite !length_lfilter, length_app, Hr. auto.
Qed.

(** Indexing a signal as long as [x_gv] with [idx_pf] removes the
    pre-frame and leaves as many samples as the frame has. *)
Lemma take_idx_pf (s : list F) (nv0 ng0 : Z) (d0 : F) (w : list F)
    (g0 g : globals F) (x : list F) :
  in_gross_loop s nv0 ng0 d0 w g0 g ->
  length x = length (x_gv g) ->
  take x (idx_pf g) = Ok (skipn (Z.to_nat (Lpf g)) x) /\
  length (skipn (Z.to_nat (Lpf g)) x) = length s.
Proof.
  intros Hin Hx.
  destruct (in_gross_loop_shape _ _ _ _ _ _ _ Hin) as (Hpos & HL & Hlen & Hidx).
  rewrite Hidx, HL, <- Hx. rewrite <- Hx in Hlen.
  rewrite <- (Z2Nat.id (nv0 + 1)) at 1 by assumption.
  rewrite (take_skipn (length s)) by assumption.
  split; [reflexivity|]. rewrite length_skipn. lia.
Qed.

(** C4, as the code has it.  In each pass of the loop the padded
    integrated signal [x_gv] is filtered with the gross estimate [ag1] as
    the numerator and [[1]] as the denominator, and the residual of the
    pass is the output without its first [Lpf] samples, as long as the
    frame. *)
Theorem gross_step_inverse_filter (s : list F) (nv0 ng0 : Z) (d0 : F) (w : list F)
    (g0 g g' : globals F) :
  in_gross_loop s nv0 ng0 d0 w g0 g ->
  gross_step g = Ok g' ->
  x_v1x g' = lfilter (ag1 g) [one] (x_gv g) /\
  s_v1x g' = skipn (Z.to_nat (Lpf g)) (x_v1x g') /\
  length (s_v1x g') = length s.
Proof.
  intros Hin H.
  destruct (take_idx_pf _ _ _ _ _ _ _ (lfilter (ag1 g) [one] (x_gv g)) Hin
              (length_lfilter _ _ _)) as (Ht & Hl).
  unfold gross_step in H. cbn [x_v1x set_x_v1x idx_pf] in H.
  rewrite Ht in H. cbn [bind] in H.
  repeat inv_bind H. inv_Ok H. cbn. auto.
Qed.

End GrossLoop.

Lemma ramp5_in_gross_loop :
  in_gross_loop ramp5 1 1 0.5%float [] fresh ramp5_loop_entry.
Proof.
  exists ramp5_preframe, ramp5_windowed, ramp5_first_fit, 0.
  repeat split; vm_compute; reflexivity.
Qed.

Lemma ramp5_gross_step : gross_step ramp5_loop_entry = Ok ramp5_loop_exit.
Proof. vm_compute. reflexivity. Qed.

Lemma gross_step_inverse_filter_witness :
  x_v1x ramp5_loop_exit
  = lfilter (ag1 ramp5_loop_entry) [1%float] (x_gv ramp5_loop_entry) /\
  s_v1x ramp5_loop_exit = skipn 2 (x_v1x ramp5_loop_exit) /\
  length (s_v1x ramp5_loop_exit) = 5.
Proof.
  exact (gross_step_inverse_filter _ _ _ _ _ _ _ _ ramp5_in_gross_loop ramp5_gross_step).
Defined.

(** C4, as it is worded, fails: the residual of the pass on [ramp5] is not
    the output of the filter with the gross estimate as the denominator. *)
Lemma denominator_residual_differs : ~ inverse_filters_by_denominator float.
Proof.
  intros H.
  specialize (H _ _ _ _ _ _ _ _ ramp5_in_gross_loop ramp5_gross_step).
  apply (f_equal (same_floats (s_v1x ramp5_loop_exit))) in H.
  vm_compute in H. discriminate.
Qed.

(** ** The gross estimate of the notebook *)

Lemma golden_preframe_eq :
  cell_preframe (cell_defaults (cell_parameters golden_frame 16 3 d_golden [] fresh))
  = Ok golden_preframe.
Proof. vm_compute. reflexivity. Qed.

Lemma golden_gross_eq : cell_gross (cell_lip golden_preframe) = Ok golden_gross.
Proof. vm_compute. reflexivity. Qed.

Lemma golden_orders : nv (cell_lip golden_preframe) = 16%Z /\ ng (cell_lip golden_preframe) = 3%Z.
Proof. split; vm_compute; reflexivity. Qed.

Lemma gross_cascade_length_witness :
  cell_gross (cell_lip golden_preframe) = Ok golden_gross /\
  length (ag1 golden_gross) = Z.to_nat 3 + 2.
Proof.
  split; [exact golden_gross_eq|].
  rewrite <- (proj2 golden_orders).
  exact (gross_cascade_length _ _ golden_gross_eq).
Defined.

(** ** Silence, in exact arithmetic *)

Section Silence.

Context {F : Type} {A : Arith F} {E : ExactArith F}.

Add Ring exact_ring : arith_ring.

Lemma silent_repeat (n : nat) : silent (repeat zero n).
Proof. induction n; simpl; constructor; auto. Qed.

Lemma silent_app (x y : list F) : silent x -> silent y -> silent (x ++ y).
Proof. apply Forall_app_2 || (intros; apply Forall_app; auto). Qed.

Lemma silent_tl (x : list F) : silent x -> silent (tl x).
Proof. intros H. destruct H; simpl; auto. constructor. Qed.

Lemma silent_removelast (x : list F) : silent x -> silent (removelast x).
Proof.
  induction 1 as [|v x Hv Hx IH]; simpl; [constructor|].
  destruct x; [constructor|]. constructor; auto.
Qed.

Lemma silent_map (f : F -> F) (x : list F) :
  (forall v, In v x -> f v = zero) -> silent (map f x).
Proof.
  intros H. apply Forall_forall. intros v Hv.
  apply in_map_iff in Hv as (u & <- & Hu). auto.
Qed.

Lemma silent_map2_mul (x y : list F) : silent x -> silent (map2 mul x y).
Proof.
  intros H. revert y. induction H as [|v x Hv Hx IH]; intros [|u y]; simpl;
    constructor; [subst; ring | apply IH].
Qed.

Lemma silent_multiply (x w y : list F) :
  silent x -> multiply x w = Ok y -> silent y.
Proof.
  intros Hx. unfold multiply.
  destruct (Nat.eqb (length x) (length w)).
  - intros H. inv_Ok H. now apply silent_map2_mul.
  - assert (Hl : forall u, silent (map (fun v => mul v u) x)).
    { intros u. unfold silent. rewrite Forall_map.
      eapply Forall_impl; [|exact Hx]. simpl. intros v ->. ring. }
    assert (Hr : forall v, v = zero -> silent (map (fun u => mul v u) w)).
    { intros v ->. apply silent_map. intros. ring. }
    destruct x as [|v [|v' x]], w as [|u [|u' w]]; intros H;
      try discriminate; inv_Ok H;
      first [apply Forall_nil | apply Hl | apply Hr; now inversion Hx].
Qed.

Lemma fold_add_silent (x : list F) : silent x -> fold_left add x zero = zero.
Proof.
  induction 1 as [|v x Hv Hx IH]; simpl; [reflexivity|].
  subst. replace (add zero zero) with (zero : F) by ring. assumption.
Qed.

Lemma dot_silent (x y : list F) : silent x -> dot x y = zero.
Proof. intros H. apply fold_add_silent. now apply silent_map2_mul. Qed.

(** A filter at rest stays at rest on a silent input. *)
Lemma silent_delays (b a z : list F) : silent z -> silent (delays b a z zero zero).
Proof.
  intros H. revert b a. induction H as [|v z Hv Hz IH]; intros b a; simpl.
  - constructor.
  - destruct z as [|z1 z'].
    + constructor; [ring|constructor].
    + constructor; [|apply IH].
      inversion Hz; subst. ring.
Qed.

Lemma silent_lfilter_run (b0 : F) (b a z x : list F) :
  silent z -> silent x -> silent (lfilter_run b0 b a z x).
Proof.
  intros Hz Hx. revert z Hz. induction Hx as [|v x Hv Hx IH]; intros z Hz; simpl.
  - constructor.
  - subst. assert (Ho : output b0 z zero = zero).
    { unfold output. destruct Hz; subst; ring. }
    rewrite Ho. constructor; [reflexivity|].
    apply IH. now apply silent_delays.
Qed.

Lemma silent_lfilter (b a x : list F) : silent x -> silent (lfilter b a x).
Proof. intros H. apply silent_lfilter_run; [apply silent_repeat | exact H]. Qed.

(** The ramp from minus zero to zero. *)
Lemma silent_linspace (num : Z) :
  (0 <= num)%Z ->
  exists y, linspace (opp zero) zero num = Ok y /\ silent y.
Proof.
  intros Hn. unfold linspace. destruct (Z.ltb_spec num 0) as [|_]; [lia|].
  eexists. split; [reflexivity|].
  assert (Hd : sub zero (opp zero) = (zero : F)) by ring.
  rewrite Hd, div_zero.
  set (y0 := map _ (if (0 <? num - 1)%Z then _ else _)).
  assert (Hy : silent y0).
  { unfold y0. apply silent_map. intros v Hv.
    assert (Hz : v = zero); [|subst; ring].
    destruct (0 <? num - 1)%Z; [destruct (eqb _ _)|];
      apply in_map_iff in Hv as (u & <- & _); ring. }
  destruct (1 <? num)%Z; [|assumption].
  apply silent_app; [now apply silent_removelast | repeat constructor].
Qed.

(** [lpc] on silence: the denominator of the first reflection coefficient
    is zero. *)
Lemma lpc_silent (m : nat -> Z -> F) (y : list F) (order : Z) :
  (1 <= order)%Z -> silent y -> lpc m y order = Raise FloatingPointError.
Proof.
  intros Ho Hy. unfold lpc. destruct (Z.ltb_spec order 1) as [|_]; [lia|].
  assert (Hf : forallb isfinite y = true).
  { apply forallb_forall. intros; apply isfinite_all. }
  rewrite Hf. simpl.
  destruct (Z.to_nat order) as [|n] eqn:Hn; [lia|].
  cbn [seq burg_loop]. unfold burg_step at 1. cbn [den burg_init].
  rewrite !dot_silent by auto using silent_tl, silent_removelast.
  replace (add zero zero) with (zero : F) by ring.
  rewrite leb_zero. reflexivity.
Qed.

(** The pre-frame of a silent frame is silent. *)
Lemma cell_preframe_silent (n : nat) (g : globals F) :
  0 < n -> (-1 <= nv g)%Z -> s_gvl g = repeat zero n ->
  exists gp, cell_preframe g = Ok gp /\ s_gvl gp = repeat zero n /\ win gp = win g.
Proof.
  intros Hn Hnv Hs.
  destruct (silent_linspace (nv g + 1)) as (ramp & Hr & _); [lia|].
  unfold cell_preframe.
  change (s_gvl (set_Lpf (nv g + 1) g)) with (s_gvl g).
  change (Lpf (set_Lpf (nv g + 1) g)) with (nv g + 1)%Z.
  rewrite Hs. destruct n as [|n]; [lia|].
  change (getitem (repeat zero (S n)) 0)
    with (getitem (zero :: repeat zero n) (Z.of_nat 0)).
  rewrite getitem_nth by (simpl; lia).
  cbn [bind nth]. rewrite Hr. cbn [bind].
  eexists. split; [reflexivity|]. split; [exact Hs | reflexivity].
Qed.

(** The gross estimation of a silent frame stops at the first fit. *)
Lemma cell_gross_silent (g : globals F) :
  silent (s_gv g) -> length (s_gv g) = length (win g) ->
  cell_gross g = Raise FloatingPointError.
Proof.
  intros Hs Hl. unfold cell_gross.
  destruct (multiply (s_gv g) (win g)) as [y|e] eqn:Hm.
  - cbn [bind]. rewrite lpc_silent; [reflexivity | lia | eauto using silent_multiply].
  - unfold multiply in Hm. rewrite Hl, Nat.eqb_refl in Hm. discriminate.
Qed.

Lemma cell_defaults_window_length (n : nat) (s : list F) (nv0 ng0 : Z) (d0 : F)
    (w : list F) (g0 : globals F) :
  length s = n -> w = [] \/ length w = n ->
  length (win (cell_defaults (cell_parameters s nv0 ng0 d0 w g0))) = n.
Proof.
  intros Hs Hw. unfold cell_defaults.
  change (win (cell_parameters s nv0 ng0 d0 w g0)) with w.
  destruct w as [|u w].
  - change (s_gvl (cell_parameters s nv0 ng0 d0 [] g0)) with s.
    rewrite Hs. apply length_hanning.
  - destruct Hw as [Hw|Hw]; [discriminate|exact Hw].
Qed.


End Silence.

(** ** A numerator alone, in exact arithmetic *)

Section Numerator.

Context {F : Type} {A : Arith F} {E : ExactArith F}.

Add Ring numerator_ring : arith_ring.

Lemma state_of_nil (b : list F) : state_of b [] = repeat zero (length b).
Proof.
  induction b as [|c b IH]; simpl; [reflexivity|]. now rewrite IH.
Qed.

Lemma delays_state_of (b hist : list F) (x y : F) :
  delays b (repeat zero (length b)) (state_of b hist) x y = state_of b (x :: hist).
Proof.
  induction b as [|c b IH]; [reflexivity|].
  cbn [state_of delays length repeat hd tl].
  destruct b as [|c' b].
  - cbn [state_of weighted]. f_equal. ring.
  - rewrite <- IH. clear IH.
    change (state_of (c' :: b) hist) with (weighted (c' :: b) hist :: state_of b hist).
    cbn [weighted]. f_equal. destruct hist; ring.
Qed.

Lemma output_state_of (b0 : F) (b hist : list F) (x : F) :
  output b0 (state_of b hist) x = weighted (b0 :: b) (x :: hist).
Proof.
  change (weighted (b0 :: b) (x :: hist)) with (add (mul b0 x) (weighted b hist)).
  destruct b as [|c b]; cbn [state_of output]; [cbn [weighted]|]; ring.
Qed.

Lemma lfilter_run_fir (b0 : F) (b hist x : list F) :
  lfilter_run b0 b (repeat zero (length b)) (state_of b hist) x
  = fir (b0 :: b) hist x.
Proof.
  revert hist. induction x as [|xn x IH]; intros hist; [reflexivity|].
  cbn [lfilter_run fir]. rewrite output_state_of, delays_state_of, IH. reflexivity.
Qed.

(** With the denominator [[1]], [lfilter] computes the weighted sums of
    the numerator. *)
Lemma lfilter_numerator (b x : list F) :
  b <> [] -> lfilter b [one] x = fir b [] x.
Proof.
  destruct b as [|b0 b]; [contradiction|]. intros _.
  unfold lfilter, pad. cbn [length Nat.max hd].
  replace (Nat.max 1 (S (length b))) with (S (length b)) by lia.
  rewrite Nat.sub_diag. cbn [repeat]. rewrite app_nil_r.
  assert (Hb : map (fun c => div c one) (b0 :: b) = b0 :: b).
  { rewrite <- (map_id (b0 :: b)) at 2. apply map_ext. intros; apply div_one. }
  rewrite Hb. cbn [hd tl app Nat.sub map].
  rewrite Nat.sub_0_r, map_repeat, div_zero.
  rewrite <- (state_of_nil b) at 2. apply lfilter_run_fir.
Qed.

(** The gross estimate is never empty during the loop. *)
Lemma in_gross_loop_ag1 (s : list F) (nv0 ng0 : Z) (d0 : F) (w : list F)
    (g0 g : globals F) :
  in_gross_loop s nv0 ng0 d0 w g0 g -> ag1 g <> [].
Proof.
  intros (gp & y & a & k & _ & _ & Ha & _ & Hk) Hnil.
  apply gross_loop_length in Hk. apply lpc_monic in Ha as (_ & Hl & _).
  rewrite Hnil in Hk. simpl in Hk. lia.
Qed.

(** In exact arithmetic the residual of a pass is the signal [x_gv]
    weighted with the coefficients of the gross estimate,
    [ag1[0]*x_gv[n] + ag1[1]*x_gv[n-1] + ...], for the samples of the
    frame. *)
Lemma gross_step_residual_fir (s : list F) (nv0 ng0 : Z) (d0 : F) (w : list F)
    (g0 g g' : globals F) :
  in_gross_loop s nv0 ng0 d0 w g0 g ->
  gross_step g = Ok g' ->
  s_v1x g' = skipn (Z.to_nat (Lpf g)) (fir (ag1 g) [] (x_gv g)).
Proof.
  intros Hin H.
  destruct (take_idx_pf _ _ _ _ _ _ _ (lfilter (ag1 g) [one] (x_gv g)) Hin
              (length_lfilter _ _ _)) as (Ht & _).
  unfold gross_step in H. cbn [x_v1x set_x_v1x idx_pf] in H.
  rewrite Ht in H. cbn [bind] in H.
  repeat inv_bind H. inv_Ok H. cbn.
  f_equal. apply lfilter_numerator.
  exact (in_gross_loop_ag1 _ _ _ _ _ _ _ Hin).
Qed.

End Numerator.


(** ** The energy of a residual *)

Lemma ones3_run : run_cells (cell_parameters ones3 1 1 0.5%float [] fresh) = Ok ones3_globals.
Proof. vm_compute. reflexivity. Qed.

Lemma ones3_window : multiply (s_gvl ones3_globals) (win ones3_globals) = Ok ones3_windowed.
Proof. vm_compute. reflexivity. Qed.

(** The residual of the frame of three ones after the gross estimation, and
    the windowed frame. *)
Lemma ones3_residual :
  win ones3_globals = [0; 1; 0]%float /\
  ag1 ones3_globals = [1; 0; 0]%float /\
  s_g1 ones3_globals = [1.25; 1.625; 1.8125]%float /\
  energy (s_g1 ones3_globals) = 7.48828125%float /\
  energy ones3_windowed = 1%float.
Proof. repeat split; vm_compute; reflexivity. Qed.

(** C8, as it is worded, fails: the residual of the frame of three ones has
    more energy than the windowed frame. *)
Lemma residual_energy_increases : ~ residual_energy_bounded float.
Proof.
  intros H.
  specialize (H _ _ _ _ _ _ _ _ ones3_run ones3_window).
  vm_compute in H. discriminate.
Qed.

(** It has more energy whichever of the two signals is windowed, and also
    when the integrated frame is taken for the frame. *)
Lemma windowed_residual_has_more_energy :
  exists r y,
    multiply (s_g1 ones3_globals) (win ones3_globals) = Ok r /\
    multiply (s_gv ones3_globals) (win ones3_globals) = Ok y /\
    PrimFloat.ltb (energy ones3_windowed) (energy r) = true /\
    PrimFloat.ltb (energy y) (energy r) = true /\
    PrimFloat.ltb (energy y) (energy (s_g1 ones3_globals)) = true.
Proof. do 2 eexists. repeat split; vm_compute; reflexivity. Qed.

(** On the frame of the notebook the residual has far less energy than
    the windowed frame. *)
Lemma golden_residual_energy :
  exists y,
    multiply (s_gvl golden_fine_glottis) (win golden_fine_glottis) = Ok y /\
    PrimFloat.leb (energy (s_g1 golden_fine_glottis)) 1e-4 = true /\
    PrimFloat.leb 20 (energy y) = true.
Proof. eexists. repeat split; vm_compute; reflexivity. Qed.

Section FirstOrderFit.

Local Open Scope R_scope.

Lemma fold_Rplus_acc (l : list R) (acc : R) :
  fold_left Rplus l acc = acc + fold_left Rplus l 0.
Proof.
  revert acc. induction l as [|x l IH]; intros acc; simpl; [lra|].
  rewrite (IH (acc + x)), (IH (0 + x)). lra.
Qed.

Lemma dot_nil_l (b : list R) : dot [] b = 0.
Proof. reflexivity. Qed.

Lemma dot_cons (x y : R) (a b : list R) : dot (x :: a) (y :: b) = x * y + dot a b.
Proof.
  unfold dot. simpl. rewrite fold_Rplus_acc. lra.
Qed.

Lemma energy_cons (x : R) (a : list R) : energy (x :: a) = x * x + energy a.
Proof. apply dot_cons. Qed.

Lemma energy_nonneg (a : list R) : 0 <= energy a.
Proof.
  induction a as [|x a IH]; [unfold energy; rewrite dot_nil_l; lra|].
  rewrite energy_cons. nra.
Qed.

(** A first order estimate is [[1, k]], for the reflection coefficient [k]
    of Burg's method. *)
Lemma lpc_first_order (m : nat -> Z -> R) (y a : list R) :
  lpc m y 1 = Ok a ->
  let fwd := tl y in
  let bwd := removelast y in
  let D := dot fwd fwd + dot bwd bwd in
  0 < D /\ a = [1; 0 + (-2 * dot bwd fwd / D) * 1].
Proof.
  unfold lpc. simpl.
  replace (forallb (fun _ : R => true) y) with true
    by (symmetry; apply forallb_forall; reflexivity).
  simpl. unfold burg_step. cbn [den burg_init fwd_pred_error bwd_pred_error
    ar_coeffs ar_coeffs_prev leb Real_Arith zero add].
  unfold Real.leb.
  destruct (Rle_dec _ 0) as [|Hd]; [discriminate|].
  intros H. inv_results.
  split; [lra|]. reflexivity.
Qed.

(** The filter with the numerator [[1, c]] and the denominator [[1]]. *)
Lemma lfilter_first_order (c : R) (x : list R) :
  lfilter [1; c] [1] x = fir1 c 0 x.
Proof.
  unfold lfilter. simpl.
  generalize 0 at 2 3. intros z.
  revert z. induction x as [|x0 x IH]; intros z; simpl; [reflexivity|].
  f_equal; [field|].
  rewrite <- IH. f_equal. f_equal. field.
Qed.

(** The energy of the prediction error of the fit [[1, c]], from the sample
    after [p] on. *)
Lemma energy_fir1 (c p : R) (l : list R) :
  energy (fir1 c (c * p) l)
  = dot l l + 2 * c * dot (removelast (p :: l)) l
    + c * c * dot (removelast (p :: l)) (removelast (p :: l)).
Proof.
  revert p. induction l as [|x l IH]; intros p.
  - simpl. unfold energy. rewrite !dot_nil_l. lra.
  - cbn [fir1]. rewrite energy_cons, IH.
    change (removelast (p :: x :: l)) with (p :: removelast (x :: l)).
    rewrite !dot_cons. lra.
Qed.

(** C8, as the code has it.  In exact arithmetic, filtering the signal [y]
    that a first order LPC estimate was fitted on (as each windowed signal
    of the gross estimation is) with the estimate as the numerator does not
    increase its energy. *)
Theorem first_order_fit_energy (m : nat -> Z -> R) (y a : list R) :
  lpc m y 1 = Ok a ->
  energy (lfilter a [1] y) <= energy y.
Proof.
  intros H. apply lpc_first_order in H as (HD & ->).
  rewrite lfilter_first_order.
  destruct y as [|y0 l]; [simpl; lra|].
  cbn [tl] in *.
  set (Fw := dot l l) in *.
  set (Bw := dot (removelast (y0 :: l)) (removelast (y0 :: l))) in *.
  set (Cw := dot (removelast (y0 :: l)) l) in *.
  set (c := 0 + _ * 1).
  cbn [fir1]. rewrite !energy_cons.
  rewrite energy_fir1. fold Fw Bw Cw. unfold energy. fold Fw.
  assert (HF : 0 <= Fw) by apply energy_nonneg.
  assert (Hc : c * (Fw + Bw) = -2 * Cw) by (unfold c; field; lra).
  assert (Hk : 2 * c * Cw + c * c * Bw = - (c * c) * Fw) by nra.
  nra.
Qed.

End FirstOrderFit.

Lemma first_order_fit_energy_witness :
  exists a : list R,
    lpc (heap fresh) [1; 2]%R 1 = Ok a /\
    (energy (lfilter a [1] [1; 2]) <= energy [1; 2])%R.
Proof.
  assert (E : exists a : list R, lpc (heap fresh) [1; 2]%R 1 = Ok a).
  { unfold lpc. simpl. unfold burg_step. simpl. unfold Real.leb, dot. simpl.
    destruct (Rle_dec _ 0) as [Hd|Hd]; [exfalso; lra|]. eexists. reflexivity. }
  destruct E as (a & E). exists a. split; [exact E|].
  exact (first_order_fit_energy _ _ _ E).
Defined.

(** ** The notebook as it stands, in binary64 *)

Lemma golden_fine_glottis_eq : cell_fine_glottis golden_gross = Ok golden_fine_glottis.
Proof. vm_compute. reflexivity. Qed.

(** The gross estimate and the glottis filter agree with what the notebook
    displays, and the lip radiation filter is the one it displays. *)
Lemma golden_glottis :
  close_to 1e-8 (ag1 golden_gross) notebook_ag1 = true /\
  close_to 1e-4 (ag golden_fine_glottis) notebook_ag = true /\
  al golden_fine_glottis = notebook_al.
Proof. repeat split; vm_compute; reflexivity. Qed.

(** The vocal tract filter is another matter.  The signal that it is
    fitted on is so regular that the denominators of Burg's recursion fall
    to the size of the rounding errors after a few orders, and the
    coefficients follow the rounding: with the sums taken from left to
    right the sixteenth order fit has the seventeen coefficients, but not
    the ones that the notebook displays. *)
Lemma golden_vocal_tract_rounding :
  cell_fine_vocal_tract golden_fine_glottis = Ok golden_fine_vocal_tract /\
  length (av golden_fine_vocal_tract) = 17 /\
  close_to 1e-4 (av golden_fine_vocal_tract) notebook_av = false /\
  close_to 1 (av golden_fine_vocal_tract) notebook_av = true.
Proof. repeat split; vm_compute; reflexivity. Qed.

(** With the window evaluated as [0.5 + 0.5*cos(pi*n/(M-1))], which differs
    from the window above in the last binary digits only, a denominator
    comes out negative and the same fit raises. *)
Lemma golden_vocal_tract_symmetric_window :
  gfmiaif golden_frame 16 3 d_golden (hanning_symmetric 200) fresh
  = Raise FloatingPointError.
Proof. vm_compute. reflexivity. Qed.

(** A frame of two hundred zeros makes the first fit raise, in binary64
    as in exact arithmetic. *)
Lemma silent_frame_binary64 :
  gfmiaif (repeat 0%float 200) 16 3 d_golden [] fresh = Raise FloatingPointError.
Proof. vm_compute. reflexivity. Qed.

Section SameWindow.

Local Open Scope R_scope.

(** On the real numbers the two evaluations give one window. *)
Lemma hanning_symmetric_real (M : Z) : hanning_symmetric (F := R) M = hanning M.
Proof.
  unfold hanning_symmetric, hanning.
  destruct (Z.ltb_spec M 1) as [|HM]; [reflexivity|].
  destruct (Z.eqb_spec M 1) as [|HM1]; [reflexivity|].
  unfold arange2, arange. rewrite !map_map.
  replace ((M - (1 - M) + 1) / 2)%Z with (M - 0)%Z
    by (replace (M - (1 - M) + 1)%Z with ((M - 0) * 2)%Z by lia;
        now rewrite Z.div_mul by lia).
  apply map_ext. intros k. unfold half.
  cbn [add sub mul div of_Z pi cos one Real_Arith].
  assert (HM' : IZR (M - 1) <> 0) by (apply not_0_IZR; lia).
  replace (PI * IZR (1 - M + 2 * Z.of_nat k) / IZR (M - 1))
    with (2 * PI * IZR (0 + Z.of_nat k) / IZR (M - 1) - PI).
  - rewrite cos_minus, cos_PI, sin_PI. lra.
  - repeat (rewrite minus_IZR || rewrite plus_IZR || rewrite mult_IZR).
    rewrite minus_IZR in HM'. field. exact HM'.
Qed.

End SameWindow.

(** ** The pre-frame cell *)

Section PreFrame.

Context {F : Type} {A : Arith F}.

Lemma getitem_first (x : F) (l : list F) : getitem (x :: l) 0 = Ok x.
Proof.
  change (getitem (x :: l) 0) with (getitem (x :: l) (Z.of_nat 0)).
  rewrite getitem_nth by (simpl; lia). reflexivity.
Qed.

Lemma linspace_Ok (start stop : F) (num : Z) :
  (0 <= num)%Z -> exists y, linspace start stop num = Ok y.
Proof.
  unfold linspace. intros H. destruct (Z.ltb_spec num 0); [lia|].
  eexists. reflexivity.
Qed.

(** The pre-frame cell raises nothing on a frame with a sample and a
    pre-frame length that is not negative. *)
Lemma cell_preframe_succeeds (g : globals F) :
  s_gvl g <> [] -> (-1 <= nv g)%Z -> exists g', cell_preframe g = Ok g'.
Proof.
  intros Hs Hnv. unfold cell_preframe. cbn [s_gvl set_Lpf Lpf].
  destruct (s_gvl g) as [|s0 s']; [contradiction|].
  rewrite getitem_first. cbn [bind].
  destruct (linspace_Ok (opp s0) s0 (nv g + 1)) as (y & ->); [lia|].
  cbn [bind]. eexists. reflexivity.
Qed.

(** X1.  The pre-frame cell fails in two cases only: on an empty frame,
    with [IndexError] (at [s_gvl[0]]), and on a frame with samples when
    [nv < -1], with [ValueError] (the number of samples of [np.linspace],
    [nv + 1], is negative).  In every other case it assigns the pre-frame,
    also for [nv = -1] and [nv = 0]. *)
Theorem preframe_outcome (g : globals F) :
  match cell_preframe g with
  | Ok _ => s_gvl g <> [] /\ (-1 <= nv g)%Z
  | Raise e =>
      (s_gvl g = [] /\ e = IndexError) \/
      (s_gvl g <> [] /\ (nv g < -1)%Z /\ e = ValueError)
  end.
Proof.
  unfold cell_preframe. cbn [s_gvl set_Lpf Lpf].
  destruct (s_gvl g) as [|s0 s'].
  - left. split; reflexivity.
  - rewrite getitem_first. cbn [bind]. unfold linspace.
    destruct (Z.ltb_spec (nv g + 1) 0) as [Hn|Hn]; cbn [bind].
    + right. repeat split; [discriminate | lia].
    + split; [discriminate | lia].
Qed.

(** X2.  After the pre-frame cell, [Lpf = nv + 1], the padded frame [x_gvl]
    has [Lpf] samples more than the frame and ends with the frame, and
    [idx_pf] holds the [N] indices from [Lpf] on, so that [x_gvl[idx_pf]] is
    the frame again. *)
Theorem preframe_shapes (g g' : globals F) :
  cell_preframe g = Ok g' ->
  Lpf g' = (nv g + 1)%Z /\ (0 <= Lpf g')%Z /\
  length (x_gvl g') = Z.to_nat (Lpf g') + length (s_gvl g) /\
  skipn (Z.to_nat (Lpf g')) (x_gvl g') = s_gvl g /\
  idx_pf g' = arange (Lpf g') (Lpf g' + Z.of_nat (length (s_gvl g))) /\
  take (x_gvl g') (idx_pf g') = Ok (s_gvl g).
Proof.
  intros H. apply cell_preframe_Ok in H as (s0 & ramp & _ & Hr & ->).
  apply length_linspace in Hr as (Hr & Hpos).
  cbn [Lpf x_gvl idx_pf set_idx_pf set_x_gvl set_Lpf].
  assert (Hlen : length (ramp ++ s_gvl g) = Z.to_nat (nv g + 1) + length (s_gvl g))
    by (rewrite length_app; lia).
  assert (Hskip : skipn (Z.to_nat (nv g + 1)) (ramp ++ s_gvl g) = s_gvl g).
  { rewrite <- Hr, skipn_app, Nat.sub_diag, skipn_all. reflexivity. }
  repeat split; try assumption.
  - f_equal. lia.
  - rewrite <- (Z2Nat.id (nv g + 1)) at 1 by assumption.
    rewrite (take_skipn (length (s_gvl g))) by assumption.
    now rewrite Hskip.
Qed.

(** X3.  For [nv >= 1] the ramp of the pre-frame ends on the first sample
    of the frame: the last sample of the pre-frame and the first sample
    after it are both [s_gvl[0]] ([np.linspace] stores its end point as it
    is given). *)
Theorem preframe_joins_frame (g g' : globals F) :
  cell_preframe g = Ok g' ->
  (1 <= nv g)%Z ->
  getitem (x_gvl g') (Lpf g' - 1) = getitem (s_gvl g) 0 /\
  getitem (x_gvl g') (Lpf g') = getitem (s_gvl g) 0.
Proof.
  intros H Hnv. apply cell_preframe_Ok in H as (s0 & ramp & Hs & Hr & ->).
  cbn [Lpf x_gvl set_idx_pf set_x_gvl set_Lpf].
  pose proof (length_linspace _ _ _ _ Hr) as (Hlen & _).
  destruct (s_gvl g) as [|s1 s'] eqn:Hg; [discriminate|].
  rewrite getitem_first in Hs. inv_Ok Hs. rewrite getitem_first.
  unfold linspace in Hr.
  destruct (Z.ltb_spec (nv g + 1) 0) as [|_]; [lia|].
  destruct (Z.ltb_spec 1 (nv g + 1)) as [_|]; [|lia].
  inv_Ok Hr. set (body := removelast _) in *.
  assert (Hb : length body = Z.to_nat (nv g)).
  { rewrite length_app in Hlen. simpl in Hlen. lia. }
  split.
  - replace (nv g + 1 - 1)%Z with (Z.of_nat (length body)) by lia.
    rewrite getitem_nth by (rewrite !length_app; simpl; lia).
    rewrite <- app_assoc, app_nth2, Nat.sub_diag by lia. reflexivity.
  - replace (nv g + 1)%Z with (Z.of_nat (length (body ++ [s0])))
      by (rewrite length_app; simpl; lia).
    rewrite getitem_nth by (rewrite !length_app; simpl; lia).
    rewrite app_nth2, Nat.sub_diag by lia. reflexivity.
Qed.

End PreFrame.

Lemma ramp5_preframe_eq :
  cell_preframe (cell_defaults (cell_parameters ramp5 1 1 0.5%float [] fresh))
  = Ok ramp5_preframe.
Proof. vm_compute. reflexivity. Qed.

(** The pre-frame of the notebook's run: the values that the cell prints. *)
Lemma preframe_shapes_witness :
  Lpf golden_preframe = 17%Z /\ length (x_gvl golden_preframe) = 217 /\
  skipn 17 (x_gvl golden_preframe) = golden_frame /\
  idx_pf golden_preframe = arange 17 217 /\
  take (x_gvl golden_preframe) (idx_pf golden_preframe) = Ok golden_frame.
Proof.
  destruct (preframe_shapes _ _ golden_preframe_eq) as (H1 & _ & H2 & H3 & H4 & H5).
  split; [exact H1|]. split; [exact H2|]. split; [exact H3|].
  split; [exact H4 | exact H5].
Defined.

Lemma preframe_joins_frame_witness :
  getitem (x_gvl ramp5_preframe) (Lpf ramp5_preframe - 1) = Ok 1%float /\
  getitem (x_gvl ramp5_preframe) (Lpf ramp5_preframe) = Ok 1%float.
Proof.
  assert (Hnv : (1 <= nv (cell_defaults (cell_parameters ramp5 1 1 0.5%float [] fresh)))%Z)
    by (vm_compute; discriminate).
  exact (preframe_joins_frame _ _ ramp5_preframe_eq Hnv).
Defined.

(** ** The two fine estimation cells *)

(** Reading a variable after assignments. *)
Ltac read_globals :=
  cbn [s_gvl nv ng d win Lpf x_gvl idx_pf al s_gv x_gv ag1 x_v1x s_v1x ag1x
       x_g1 s_g1 ag x_v s_v av heap
       set_s_gvl set_nv set_ng set_d set_win set_Lpf set_x_gvl set_idx_pf set_al
       set_s_gv set_x_gv set_ag1 set_x_v1x set_s_v1x set_ag1x set_x_g1 set_s_g1
       set_ag set_x_v set_s_v set_av].

Ltac read_globals_in H :=
  cbn [s_gvl nv ng d win Lpf x_gvl idx_pf al s_gv x_gv ag1 x_v1x s_v1x ag1x
       x_g1 s_g1 ag x_v s_v av heap
       set_s_gvl set_nv set_ng set_d set_win set_Lpf set_x_gvl set_idx_pf set_al
       set_s_gv set_x_gv set_ag1 set_x_v1x set_s_v1x set_ag1x set_x_g1 set_s_g1
       set_ag set_x_v set_s_v set_av] in H.

Section FineCells.

Context {F : Type} {A : Arith F}.

(** What the fine glottis cell assigns. *)
Lemma cell_fine_glottis_Ok (g g' : globals F) :
  cell_fine_glottis g = Ok g' ->
  exists r y a,
    take (lfilter (ag1 g) [one] (x_gv g)) (idx_pf g) = Ok r /\
    multiply r (win g) = Ok y /\
    lpc (heap g) y (ng g) = Ok a /\
    g' = set_ag a (set_s_g1 r (set_x_g1 (lfilter (ag1 g) [one] (x_gv g)) g)).
Proof.
  unfold cell_fine_glottis. intros H. repeat inv_bind H. inv_Ok H.
  do 3 eexists. repeat split; eassumption.
Qed.

(** What the fine vocal tract cell assigns. *)
Lemma cell_fine_vocal_tract_Ok (g g' : globals F) :
  cell_fine_vocal_tract g = Ok g' ->
  exists r y a,
    take (lfilter (ag g) [one] (x_gv g)) (idx_pf g) = Ok r /\
    multiply r (win g) = Ok y /\
    lpc (heap g) y (nv g) = Ok a /\
    g' = set_av a (set_s_v r (set_x_v (lfilter (ag g) [one] (x_gv g)) g)).
Proof.
  unfold cell_fine_vocal_tract. intros H. repeat inv_bind H. inv_Ok H.
  do 3 eexists. repeat split; eassumption.
Qed.

(** The variables that the estimation cells read, as the pre-frame and the
    lip radiation cell leave them. *)
Lemma context_shape (g gp g' : globals F) :
  cell_preframe g = Ok gp ->
  context_of g' = context_of (cell_lip gp) ->
  (0 <= Lpf g')%Z /\ Lpf g' = (nv g + 1)%Z /\
  length (x_gv g') = Z.to_nat (Lpf g') + length (s_gvl g) /\
  length (s_gv g') = length (s_gvl g) /\
  idx_pf g' = arange (Lpf g') (Z.of_nat (length (x_gv g'))).
Proof.
  intros Hp Hc.
  assert (Hsgv : s_gv g' = s_gv (cell_lip gp)).
  { pose proof (f_equal snd Hc) as H. cbn [snd context_of] in H.
    pose proof (f_equal snd H) as H1. pose proof (f_equal fst H) as H0.
    cbn [fst snd] in H0, H1. exact (f_equal snd H0). }
  apply context_of_eq in Hc as (_ & _ & _ & _ & _ & HL & Hi & _ & Hx).
  rewrite HL, Hi, Hx, Hsgv. clear HL Hi Hx Hsgv.
  apply cell_preframe_Ok in Hp as (s0 & ramp & _ & Hr & ->).
  apply length_linspace in Hr as (Hr & Hpos).
  unfold cell_lip.
  cbn [x_gv s_gv set_x_gv set_s_gv set_al Lpf set_idx_pf set_x_gvl set_Lpf x_gvl
       idx_pf s_gvl nv al].
  rewrite !length_lfilter, length_app, Hr. auto.
Qed.

(** Indexing a signal as long as [x_gv] with [idx_pf] drops the pre-frame. *)
Lemma take_frame (g gp g' : globals F) (x : list F) :
  cell_preframe g = Ok gp ->
  context_of g' = context_of (cell_lip gp) ->
  length x = length (x_gv g') ->
  take x (idx_pf g') = Ok (skipn (Z.to_nat (Lpf g')) x) /\
  length (skipn (Z.to_nat (Lpf g')) x) = length (s_gvl g).
Proof.
  intros Hp Hc Hx.
  destruct (context_shape _ _ _ Hp Hc) as (Hpos & _ & Hlen & _ & Hidx).
  rewrite Hidx, <- Hx. rewrite <- Hx in Hlen.
  rewrite <- (Z2Nat.id (Lpf g')) at 1 by assumption.
  rewrite (take_skipn (length (s_gvl g))) by assumption.
  split; [reflexivity|]. rewrite length_skipn. lia.
Qed.


End FineCells.


(** ** The lip radiation cell, in exact arithmetic *)

Section LipRadiation.

Context {F : Type} {A : Arith F} {E : ExactArith F}.

Add Ring lip_ring : arith_ring.

(** The integrating filter with its one delay holding [z]. *)
Lemma lfilter_run_leaky (d0 z : F) (x : list F) :
  lfilter_run (div one one) [div zero one] [div (opp d0) one] [z] x = leaky d0 z x.
Proof.
  rewrite !div_one. revert z.
  induction x as [|xn x IH]; intros z; [reflexivity|].
  cbn [lfilter_run leaky output delays hd]. rewrite <- IH.
  f_equal; [ring|]. f_equal. f_equal. ring.
Qed.

(** [lfilter([1.0], [1.0, -d], x)] is the leaky integration of [x]. *)
Lemma lfilter_integrator (d0 : F) (x : list F) :
  lfilter [one] [one; opp d0] x = leaky d0 zero x.
Proof. apply lfilter_run_leaky. Qed.

(** The filter with the numerator [[1, -d]] takes the integration back. *)
Lemma fir_leaky (d0 z : F) (hist x : list F) :
  (hist = [] /\ z = zero) \/ (exists p rest, hist = p :: rest /\ z = mul d0 p) ->
  fir [one; opp d0] hist (leaky d0 z x) = x.
Proof.
  revert z hist. induction x as [|xn x IH]; intros z hist Hz; [reflexivity|].
  cbn [leaky fir]. f_equal.
  - destruct Hz as [(-> & ->)|(p & rest & -> & ->)]; cbn [weighted]; ring.
  - apply IH. right. eauto.
Qed.

Lemma lfilter_differentiator (d0 : F) (x : list F) :
  lfilter [one; opp d0] [one] (lfilter [one] [one; opp d0] x) = x.
Proof.
  rewrite lfilter_numerator by discriminate.
  rewrite lfilter_integrator. apply fir_leaky. left. split; reflexivity.
Qed.

(** X5.  In exact arithmetic, the lip radiation filter [al] that the cell
    returns takes its own integration back: filtering the integrated frame
    [s_gv] (or the integrated padded frame [x_gv]) with [al] as the
    numerator gives the frame [s_gvl] (the padded frame [x_gvl]) again,
    for every [d]. *)
Theorem lip_round_trip (g : globals F) :
  lfilter (al (cell_lip g)) [one] (s_gv (cell_lip g)) = s_gvl g /\
  lfilter (al (cell_lip g)) [one] (x_gv (cell_lip g)) = x_gvl g.
Proof.
  unfold cell_lip. read_globals. split; apply lfilter_differentiator.
Qed.

(** The integration of two signals in a row. *)
Lemma leaky_app (d0 z : F) (x y : list F) :
  leaky d0 z (x ++ y)
  = leaky d0 z x
    ++ leaky d0 (match x with [] => z | _ :: _ => mul d0 (last (leaky d0 z x) zero) end) y.
Proof.
  revert z. induction x as [|xn x IH]; intros z; [reflexivity|].
  cbn [app leaky]. f_equal. rewrite IH. f_equal.
  destruct x as [|x1 x]; reflexivity.
Qed.

(** A delay that is not zero adds a transient to the integrated signal. *)
Lemma leaky_add (d0 z1 z2 : F) (x : list F) :
  leaky d0 (add z1 z2) x = map2 add (leaky d0 z1 x) (decay d0 z2 (length x)).
Proof.
  revert z1 z2. induction x as [|xn x IH]; intros z1 z2; [reflexivity|].
  cbn [leaky length decay map2]. f_equal; [ring|].
  rewrite <- IH. f_equal. ring.
Qed.

Lemma length_leaky (d0 z : F) (x : list F) : length (leaky d0 z x) = length x.
Proof.
  revert z. induction x as [|xn x IH]; intros z; simpl; auto.
Qed.

Lemma nth_pred_last (l : list F) : nth (length l - 1) l zero = last l zero.
Proof.
  induction l as [|x l IH]; [reflexivity|].
  destruct l as [|y l]; [reflexivity|].
  cbn [length] in *. rewrite Nat.sub_succ, Nat.sub_0_r in *. exact IH.
Qed.

(** X6.  In exact arithmetic and for [nv >= 0], the integrated padded
    frame differs from the integrated frame, on the samples of the frame,
    by the transient that the pre-frame leaves behind only:
    [x_gv[Lpf + n] = s_gv[n] + d**(n+1) * x_gv[Lpf - 1]]. *)
Theorem preframe_transient (g gp : globals F) :
  cell_preframe g = Ok gp ->
  (0 <= nv g)%Z ->
  skipn (Z.to_nat (Lpf gp)) (x_gv (cell_lip gp))
  = map2 add (s_gv (cell_lip gp))
      (decay (d g) (mul (d g) (nth (Z.to_nat (nv g)) (x_gv (cell_lip gp)) zero))
         (length (s_gvl g))).
Proof.
  intros H Hnv. apply cell_preframe_Ok in H as (s0 & ramp & _ & Hr & ->).
  apply length_linspace in Hr as (Hr & _).
  unfold cell_lip. read_globals.
  rewrite !lfilter_integrator, leaky_app.
  destruct ramp as [|r0 ramp]; [simpl in Hr; lia|].
  set (y := leaky (d g) zero (r0 :: ramp)).
  assert (Hy : length y = Z.to_nat (nv g + 1)) by (unfold y; now rewrite length_leaky).
  rewrite <- Hy, skipn_app, Nat.sub_diag, skipn_all. cbn [app skipn].
  replace (Z.to_nat (nv g)) with (length y - 1) by lia.
  rewrite app_nth1 by lia.
  rewrite nth_pred_last, <- leaky_add. f_equal. ring.
Qed.

End LipRadiation.

Lemma lip_round_trip_witness :
  let g := cell_parameters [1; 2; 3]%R 1 1 (1 / 2)%R [] fresh in
  lfilter (al (cell_lip g)) [1%R] (s_gv (cell_lip g)) = s_gvl g /\
  lfilter (al (cell_lip g)) [1%R] (x_gv (cell_lip g)) = x_gvl g.
Proof. exact (lip_round_trip (cell_parameters [1; 2; 3]%R 1 1 (1 / 2)%R [] fresh)). Defined.

Lemma preframe_transient_witness :
  let g := cell_parameters [1; 2; 3]%R 1 1 (1 / 2)%R [] fresh in
  exists gp,
    cell_preframe g = Ok gp /\
    skipn (Z.to_nat (Lpf gp)) (x_gv (cell_lip gp))
    = map2 add (s_gv (cell_lip gp))
        (decay (d g) (mul (d g) (nth (Z.to_nat (nv g)) (x_gv (cell_lip gp)) zero))
           (length (s_gvl g))).
Proof.
  intros g.
  assert (Hs : s_gvl g <> []) by discriminate.
  assert (Hnv : (-1 <= nv g)%Z) by (simpl; lia).
  assert (Hnv' : (0 <= nv g)%Z) by (simpl; lia).
  destruct (cell_preframe_succeeds g Hs Hnv) as (gp & Hp).
  exists gp. split; [exact Hp|].
  exact (preframe_transient g gp Hp Hnv').
Defined.

(** ** Products of filters, in exact arithmetic *)

Section Cascade.

Context {F : Type} {A : Arith F} {E : ExactArith F}.

Add Ring cascade_ring : arith_ring.

Lemma fold_add_acc (l : list F) (acc : F) :
  fold_left add l acc = add acc (fold_left add l zero).
Proof.
  revert acc. induction l as [|x l IH]; intros acc; simpl; [ring|].
  rewrite (IH (add acc x)), (IH (add zero x)). ring.
Qed.

Lemma total_cons (x : F) (l : list F) : total (x :: l) = add x (total l).
Proof. unfold total. simpl. rewrite fold_add_acc. ring. Qed.

Lemma total_app (l1 l2 : list F) : total (l1 ++ l2) = add (total l1) (total l2).
Proof.
  induction l1 as [|x l1 IH]; simpl.
  - unfold total at 2. simpl. ring.
  - rewrite !total_cons, IH. ring.
Qed.

Lemma total_zeros (t : nat -> F) (l : list nat) :
  (forall i, In i l -> t i = zero) -> total (map t l) = zero.
Proof.
  intros H. apply fold_add_silent. apply Forall_forall.
  intros v Hv. apply in_map_iff in Hv as (i & <- & Hi). auto.
Qed.

Lemma cauchy_ext (f f' g g' : nat -> F) (n : nat) :
  (forall i, i <= n -> f i = f' i) -> (forall i, i <= n -> g i = g' i) ->
  cauchy f g n = cauchy f' g' n.
Proof.
  revert f f'. induction n as [|n IH]; intros f f' Hf Hg; cbn [cauchy].
  - rewrite Hf, Hg by lia. reflexivity.
  - rewrite (Hf 0), (Hg (S n)) by lia. f_equal.
    apply IH; intros i Hi; [apply Hf | apply Hg]; lia.
Qed.

Lemma cauchy_zero_l (f g : nat -> F) (n : nat) :
  (forall i, f i = zero) -> cauchy f g n = zero.
Proof.
  revert f. induction n as [|n IH]; intros f Hf; cbn [cauchy].
  - rewrite Hf. ring.
  - rewrite Hf, IH by (intros; apply Hf). ring.
Qed.

Lemma cauchy_linear (r p q h : nat -> F) (c : F) (n : nat) :
  (forall i, i <= n -> r i = add (mul c (p i)) (q i)) ->
  cauchy r h n = add (mul c (cauchy p h n)) (cauchy q h n).
Proof.
  revert r p q. induction n as [|n IH]; intros r p q Hr; cbn [cauchy].
  - rewrite Hr by lia. ring.
  - rewrite Hr by lia.
    rewrite (IH (fun i => r (S i)) (fun i => p (S i)) (fun i => q (S i)))
      by (intros; apply Hr; lia).
    ring.
Qed.

(** The product of sequences is associative. *)
Lemma cauchy_assoc (f g h : nat -> F) (n : nat) :
  cauchy (cauchy f g) h n = cauchy f (cauchy g h) n.
Proof.
  revert f. induction n as [|n IH]; intros f.
  - cbn [cauchy]. ring.
  - change (cauchy (cauchy f g) h (S n))
      with (add (mul (mul (f 0) (g 0)) (h (S n)))
                (cauchy (fun i => cauchy f g (S i)) h n)).
    rewrite (cauchy_linear (fun i => cauchy f g (S i)) (fun i => g (S i))
               (cauchy (fun j => f (S j)) g) h (f 0) n)
      by (intros; reflexivity).
    rewrite IH. cbn [cauchy]. ring.
Qed.

Lemma cauchy_last (f g : nat -> F) (n : nat) :
  cauchy f g (S n) = add (mul (f (S n)) (g 0)) (cauchy f (fun i => g (S i)) n).
Proof.
  revert f. induction n as [|n IH]; intros f.
  - cbn [cauchy]. ring.
  - change (cauchy f g (S (S n)))
      with (add (mul (f 0) (g (S (S n)))) (cauchy (fun i => f (S i)) g (S n))).
    rewrite IH. cbn [cauchy]. ring.
Qed.

(** The product of sequences is commutative. *)
Lemma cauchy_comm (f g : nat -> F) (n : nat) : cauchy f g n = cauchy g f n.
Proof.
  revert f. induction n as [|n IH]; intros f.
  - cbn [cauchy]. ring.
  - rewrite (cauchy_last g f). cbn [cauchy]. rewrite IH. ring.
Qed.

Lemma cauchy_total (f g : nat -> F) (n : nat) :
  cauchy f g n = total (map (fun i => mul (f i) (g (n - i))) (seq 0 (S n))).
Proof.
  revert f. induction n as [|n IH]; intros f.
  - unfold total. simpl. ring.
  - cbn [cauchy]. rewrite IH.
    change (seq 0 (S (S n))) with (0 :: seq 1 (S n)).
    rewrite <- seq_shift, map_cons, total_cons, map_map. reflexivity.
Qed.

(** Beyond the degrees of both factors the product has zeros. *)
Lemma cauchy_beyond (f g : nat -> F) (p q n : nat) :
  (forall i, p <= i -> f i = zero) -> (forall i, q <= i -> g i = zero) ->
  p + q <= S n -> cauchy f g n = zero.
Proof.
  revert f p. induction n as [|n IH]; intros f p Hf Hg Hn;
    (destruct p as [|p]; [apply cauchy_zero_l; intros; apply Hf; lia|]);
    cbn [cauchy].
  - rewrite Hg by lia. ring.
  - rewrite (IH (fun i => f (S i)) p); [| |assumption|lia].
    + rewrite Hg by lia. ring.
    + intros i Hi. apply Hf. lia.
Qed.

Lemma coeff_beyond (a : list F) (i : nat) : length a <= i -> coeff a i = zero.
Proof. apply nth_overflow. Qed.

(** A coefficient of [np.convolve] is a coefficient of the product. *)
Lemma conv_at_cauchy (a v : list F) (n : nat) :
  conv_at a v n = cauchy (coeff a) (coeff v) n.
Proof.
  rewrite cauchy_total. unfold conv_at.
  set (t := fun i => mul (coeff a i) (coeff v (n - i))).
  set (lo := n - (length v - 1)). set (hi := Nat.min n (length a - 1)).
  set (len := hi + 1 - lo).
  change (total (map t (seq lo len)) = total (map t (seq 0 (S n)))).
  replace (S n) with (lo + (len + (S n - lo - len))) by lia.
  rewrite !seq_app, !map_app, !total_app. change (0 + lo) with lo.
  rewrite (total_zeros t (seq 0 lo)), (total_zeros t (seq (lo + len) _)); [ring| |].
  - intros i Hi. apply in_seq in Hi. unfold t.
    rewrite (coeff_beyond a i) by lia. ring.
  - intros i Hi. apply in_seq in Hi. unfold t.
    rewrite (coeff_beyond v (n - i)) by lia. ring.
Qed.

Lemma coeff_map_seq (f : nat -> F) (m j : nat) :
  coeff (map f (seq 0 m)) j = if Nat.ltb j m then f j else zero.
Proof.
  unfold coeff. destruct (Nat.ltb_spec j m) as [Hj|Hj].
  - rewrite (nth_indep _ zero (f 0)) by (now rewrite length_map, length_seq).
    rewrite map_nth, seq_nth by assumption. reflexivity.
  - apply nth_overflow. now rewrite length_map, length_seq.
Qed.

(** The coefficients of [np.convolve(a, v)] are those of the product of
    the two arrays. *)
Lemma convolve_cauchy (a v c : list F) (j : nat) :
  convolve a v = Ok c -> coeff c j = cauchy (coeff a) (coeff v) j.
Proof.
  unfold convolve. destruct a as [|a0 a]; [discriminate|].
  destruct v as [|v0 v]; [discriminate|].
  remember (a0 :: a) as a' eqn:Ea. remember (v0 :: v) as v' eqn:Ev.
  assert (Hz : length a' + length v' <= S j ->
               cauchy (coeff a') (coeff v') j = zero).
  { apply cauchy_beyond; intros; now apply coeff_beyond. }
  assert (Hl : 1 <= length a' /\ 1 <= length v') by (subst; simpl; lia).
  clear Ea Ev.
  destruct (Nat.ltb (length a') (length v')); intros H; injection H as <-;
    rewrite coeff_map_seq;
    match goal with
    | |- (if Nat.ltb ?i ?m then _ else _) = _ => destruct (Nat.ltb_spec i m)
    end;
    rewrite ?conv_at_cauchy, ?Hz by lia; auto using cauchy_comm.
Qed.

Lemma weighted_nil_r (b : list F) : weighted b [] = zero.
Proof. destruct b; reflexivity. Qed.

Lemma rev_map_seq_S (g : nat -> F) (k : nat) :
  rev (map g (seq 0 (S k))) = g k :: rev (map g (seq 0 k)).
Proof. rewrite seq_S, map_app, rev_app_distr. reflexivity. Qed.

(** The weighted sum over the samples [g n, ..., g 0]. *)
Lemma weighted_cauchy (b : list F) (g : nat -> F) (n : nat) :
  weighted b (rev (map g (seq 0 (S n)))) = cauchy (coeff b) g n.
Proof.
  revert b. induction n as [|n IH]; intros b.
  - destruct b as [|b0 b]; cbn [seq map rev app weighted cauchy coeff nth];
      rewrite ?weighted_nil_r; ring.
  - rewrite rev_map_seq_S. destruct b as [|b0 b].
    + rewrite cauchy_zero_l by (intros [|i]; reflexivity). reflexivity.
    + cbn [weighted]. rewrite IH. reflexivity.
Qed.

Lemma fir_cauchy (b : list F) (g : nat -> F) (k m : nat) :
  fir b (rev (map g (seq 0 k))) (map g (seq k m))
  = map (cauchy (coeff b) g) (seq k m).
Proof.
  revert k. induction m as [|m IH]; intros k; [reflexivity|].
  cbn [seq map fir]. rewrite <- rev_map_seq_S, weighted_cauchy, IH. reflexivity.
Qed.

Lemma map_coeff_seq (x : list F) : map (coeff x) (seq 0 (length x)) = x.
Proof.
  induction x as [|x0 x IH]; [reflexivity|].
  cbn [length seq map]. rewrite <- seq_shift, map_map. f_equal. exact IH.
Qed.

(** The output of a numerator alone is the product of the numerator and
    the signal, cut to the length of the signal. *)
Lemma fir_product (b x : list F) :
  fir b [] x = map (cauchy (coeff b) (coeff x)) (seq 0 (length x)).
Proof.
  rewrite <- (fir_cauchy b (coeff x) 0 (length x)), map_coeff_seq. reflexivity.
Qed.

(** Filtering with a product of two numerators is filtering with the one
    and then with the other. *)
Lemma lfilter_convolve (a v c x : list F) :
  convolve a v = Ok c ->
  lfilter c [one] x = lfilter v [one] (lfilter a [one] x).
Proof.
  intros H.
  assert (Ha : a <> [] /\ v <> []).
  { unfold convolve in H. destruct a; [discriminate|].
    destruct v; [discriminate|]. split; discriminate. }
  assert (Hc : c <> []).
  { apply length_convolve in H. destruct Ha as (Ha & Hv).
    destruct a; [contradiction|]. destruct v; [contradiction|].
    destruct c; [simpl in H; lia | discriminate]. }
  destruct Ha as (Ha & Hv).
  rewrite !lfilter_numerator by assumption.
  rewrite (fir_product v), !fir_product, length_map, length_seq.
  apply map_ext_in. intros n Hn. apply in_seq in Hn.
  rewrite (cauchy_ext (coeff c) (cauchy (coeff v) (coeff a)) (coeff x) (coeff x) n).
  - rewrite cauchy_assoc. apply cauchy_ext; [reflexivity|].
    intros i Hi. rewrite coeff_map_seq.
    destruct (Nat.ltb_spec i (length x)); [reflexivity|lia].
  - intros i _. rewrite (convolve_cauchy _ _ _ _ H). apply cauchy_comm.
  - reflexivity.
Qed.

(** The product of two arrays that start with one starts with one. *)
Lemma convolve_monic (a v c : list F) :
  convolve a v = Ok c ->
  hd_error a = Some one -> hd_error v = Some one -> hd_error c = Some one.
Proof.
  intros H Ha Hv. pose proof (convolve_cauchy _ _ _ 0 H) as H0.
  pose proof (length_convolve _ _ _ H) as Hl.
  destruct a as [|a0 a]; [discriminate|]. destruct v as [|v0 v]; [discriminate|].
  destruct c as [|c0 c]; [simpl in Hl; lia|].
  cbn in H0, Ha, Hv. injection Ha as ->. injection Hv as ->.
  simpl. f_equal. rewrite H0. ring.
Qed.

End Cascade.

(** ** The gross estimation, in exact arithmetic *)

Section GrossExact.

Context {F : Type} {A : Arith F} {E : ExactArith F}.

Add Ring gross_ring : arith_ring.

(** What a pass of the loop assigns. *)
Lemma gross_step_Ok (g g' : globals F) :
  gross_step g = Ok g' ->
  exists r y a c,
    take (lfilter (ag1 g) [one] (x_gv g)) (idx_pf g) = Ok r /\
    multiply r (win g) = Ok y /\
    lpc (heap g) y 1 = Ok a /\
    convolve (ag1 g) a = Ok c /\
    g' = set_ag1 c (set_ag1x a (set_s_v1x r
           (set_x_v1x (lfilter (ag1 g) [one] (x_gv g)) g))).
Proof.
  unfold gross_step. intros H. repeat inv_bind H. inv_Ok H.
  do 4 eexists. repeat split; eassumption.
Qed.

Lemma gross_step_monic (g g' : globals F) :
  gross_step g = Ok g' ->
  hd_error (ag1 g) = Some one -> hd_error (ag1 g') = Some one.
Proof.
  intros H Hg. apply gross_step_Ok in H as (r & y & a & c & _ & _ & Ha & Hc & ->).
  read_globals. apply lpc_monic in Ha as (_ & _ & Ha).
  eauto using convolve_monic.
Qed.

Lemma gross_loop_monic (n : nat) (g g' : globals F) :
  gross_loop n g = Ok g' ->
  hd_error (ag1 g) = Some one -> hd_error (ag1 g') = Some one.
Proof.
  revert g. induction n as [|n IH]; simpl; intros g H Hg.
  - inv_Ok H. assumption.
  - inv_bind H. eauto using gross_step_monic.
Qed.

(** X7.  In exact arithmetic the gross estimate [ag1] of a successful
    gross estimation starts with the coefficient one: the first fit does,
    and the product with a first order filter in each pass of the loop
    keeps it. *)
Theorem gross_estimate_monic (g g' : globals F) :
  cell_gross g = Ok g' -> hd_error (ag1 g') = Some one.
Proof.
  unfold cell_gross. intros H. inv_bind H. inv_bind H.
  apply (gross_loop_monic _ _ _ H). read_globals.
  now apply lpc_monic in E1 as (_ & _ & Ha).
Qed.

(** X8.  In exact arithmetic, filtering with the gross estimate that a
    pass of the loop leaves ([np.convolve(ag1, ag1x)] as the numerator) is
    filtering with the gross estimate before the pass and then with the
    first order filter [ag1x] of the pass; on the signal of the script,
    filtering [x_gv] with the new estimate gives the signal [x_v1x] of the
    pass filtered with [ag1x]. *)
Theorem gross_step_cascade (g g' : globals F) :
  gross_step g = Ok g' ->
  (forall x, lfilter (ag1 g') [one] x
             = lfilter (ag1x g') [one] (lfilter (ag1 g) [one] x)) /\
  lfilter (ag1 g') [one] (x_gv g') = lfilter (ag1x g') [one] (x_v1x g').
Proof.
  intros H. apply gross_step_Ok in H as (r & y & a & c & _ & _ & _ & Hc & ->).
  read_globals. split; intros; now apply lfilter_convolve.
Qed.

(** A signal of less than two samples leaves no prediction error to fit. *)
Lemma lpc_short (m : nat -> Z -> F) (y : list F) (order : Z) :
  length y <= 1 -> (1 <= order)%Z -> lpc m y order = Raise FloatingPointError.
Proof.
  intros Hy Ho. unfold lpc. destruct (Z.ltb_spec order 1) as [|_]; [lia|].
  assert (Hf : forallb isfinite y = true).
  { apply forallb_forall. intros; apply isfinite_all. }
  rewrite Hf. cbn [negb].
  destruct (Z.to_nat order) as [|n] eqn:Hn; [lia|].
  cbn [seq burg_loop]. unfold burg_step at 1. cbn [den burg_init].
  assert (Ht : tl y = [] /\ removelast y = []).
  { destruct y as [|y0 [|y1 y]]; simpl in Hy; try lia; split; reflexivity. }
  destruct Ht as (-> & ->). unfold dot. cbn [map2 fold_left].
  replace (add zero zero) with (zero : F) by ring.
  rewrite leb_zero. reflexivity.
Qed.

(** X9.  In exact arithmetic a frame of one sample is refused with
    [FloatingPointError], whatever the sample, for the default window or a
    window of one weight and [nv >= -1]: the first fit has no prediction
    error to divide by. *)
Theorem single_sample_frame (x : F) (nv0 ng0 : Z) (d0 : F) (w : list F)
    (g0 : globals F) :
  (-1 <= nv0)%Z -> w = [] \/ length w = 1 ->
  gfmiaif [x] nv0 ng0 d0 w g0 = Raise FloatingPointError.
Proof.
  intros Hnv Hw.
  pose proof (cell_defaults_window_length 1 [x] nv0 ng0 d0 w g0 eq_refl Hw) as Hl.
  destruct (cell_defaults_inputs (cell_parameters [x] nv0 ng0 d0 w g0))
    as (Hs & Hv & _).
  change (s_gvl (cell_parameters [x] nv0 ng0 d0 w g0)) with [x] in Hs.
  change (nv (cell_parameters [x] nv0 ng0 d0 w g0)) with nv0 in Hv.
  unfold gfmiaif, run_cells.
  destruct (cell_preframe_succeeds (cell_defaults (cell_parameters [x] nv0 ng0 d0 w g0)))
    as (gp & Hp); [rewrite Hs; discriminate | rewrite Hv; assumption |].
  rewrite Hp. cbn [bind].
  apply cell_preframe_inputs in Hp as (Hs' & _ & _ & _ & Hw').
  unfold cell_gross, cell_lip. read_globals.
  set (y := lfilter _ _ (s_gvl gp)).
  assert (Hy : length y = 1) by (unfold y; now rewrite length_lfilter, Hs', Hs).
  unfold multiply. rewrite Hy, Hw', Hl. cbn [Nat.eqb bind].
  rewrite lpc_short; [reflexivity | | lia].
  rewrite length_map2, Hy. lia.
Qed.

End GrossExact.

(** An LPC fit over the real numbers whose denominator is positive. *)
Ltac real_fit :=
  unfold lpc; simpl; unfold burg_step; simpl; unfold Real.leb, dot; simpl;
  match goal with
  | |- context [Rle_dec ?v 0] => destruct (Rle_dec v 0); [exfalso; lra|]
  end; simpl.

Lemma single_sample_frame_witness :
  gfmiaif [1%R] 16 3 (99 / 100)%R [] fresh = Raise FloatingPointError.
Proof.
  assert (Hnv : (-1 <= 16)%Z) by lia.
  exact (single_sample_frame 1%R 16 3 (99 / 100)%R [] fresh Hnv (or_introl eq_refl)).
Defined.

(** ** A run over the real numbers *)

(** Equalities of arrays of real numbers that are given by their values. *)
Ltac real_values :=
  repeat match goal with
         | |- Ok _ = Ok _ => apply f_equal
         | |- cons _ _ = cons _ _ => apply f_equal2
         | |- @eq R _ _ => first [lra | field; lra]
         | |- @eq (list R) nil nil => reflexivity
         end.

Ltac evaluate t v tac :=
  let H := fresh in assert (H : t = v) by tac; rewrite H; clear H.

(** The run on the frame [[2, -1]] with [nv = ng = 1], [d = 1/2] and the
    window [[1, 1]], cell by cell: the integrated signals are [[2, 0]] and
    [[-2, 1, 5/2, 1/4]], the gross estimate is [[1, -20/101, 0]]. *)
Lemma real_run :
  gfmiaif [2; -1]%R 1 1 (1 / 2)%R [1; 1]%R fresh
  = Ok ([1; - (636008245940 / 1201423513421)]%R, [1; 20460 / 97189]%R,
        [1; - (1 / 2)]%R).
Proof.
  unfold gfmiaif, run_cells, cell_parameters, cell_defaults. read_globals.
  unfold cell_preframe. read_globals. rewrite getitem_first. cbn [bind].
  unfold linspace. simpl. unfold Real.eqb.
  match goal with
  | |- context [Req_dec_T ?a ?b] =>
      destruct (Req_dec_T a b) as [He|He]; [exfalso; lra|]
  end.
  simpl. clear He.
  replace (0 * ((2 - - (2)) / 1) + - (2))%R with (-2)%R by lra.
  unfold cell_gross, cell_lip. read_globals.
  evaluate (lfilter [one] [one; opp (1 / 2)%R] [2; -1]%R)
    ([2; 0]%R)
    ltac:(unfold lfilter; simpl; real_values).
  evaluate (lfilter [one] [one; opp (1 / 2)%R] [-2; 2; 2; -1]%R)
    ([-2; 1; 5 / 2; 1 / 4]%R)
    ltac:(unfold lfilter; simpl; real_values).
  unfold multiply at 1. cbn [length Nat.eqb map2 bind].
  assert (H1 : forall m, lpc m [mul 2 1; mul 0 1]%R 1 = Ok [1; 0]%R)
    by (intros m; real_fit; unfold levinson; simpl; real_values).
  rewrite H1. clear H1. cbn [bind]. change (Z.to_nat 1) with 1%nat.
  cbn [gross_loop]. unfold gross_step. read_globals.
  evaluate (lfilter [1; 0]%R [one] [-2; 1; 5 / 2; 1 / 4]%R)
    ([-2; 1; 5 / 2; 1 / 4]%R)
    ltac:(unfold lfilter; simpl; real_values).
  assert (Ht : forall x0 x1 x2 x3 : R, take [x0; x1; x2; x3] (arange 2 4) = Ok [x2; x3])
    by reflexivity.
  rewrite Ht. cbn [bind]. read_globals.
  unfold multiply at 1. cbn [length Nat.eqb map2 bind].
  assert (H2 : forall m, lpc m [mul (5 / 2) 1; mul (1 / 4) 1]%R 1 = Ok [1; - (20 / 101)]%R)
    by (intros m; real_fit; unfold levinson; simpl; real_values).
  rewrite H2. clear H2. cbn [bind]. read_globals.
  evaluate (convolve [1; 0]%R [1; - (20 / 101)]%R)
    ((Ok [1; - (20 / 101); 0]%R))
    ltac:(unfold convolve, conv_at; simpl; real_values).
  cbn [bind]. unfold cell_fine_glottis. read_globals.
  evaluate (lfilter [1; - (20 / 101); 0]%R [one] [-2; 1; 5 / 2; 1 / 4]%R)
    ([-2; 141 / 101; 465 / 202; - (99 / 404)]%R)
    ltac:(unfold lfilter; simpl; real_values).
  rewrite Ht. cbn [bind]. read_globals.
  unfold multiply at 1. cbn [length Nat.eqb map2 bind].
  assert (H3 : forall m, lpc m [mul (465 / 202) 1; mul (- (99 / 404)) 1]%R 1
               = Ok [1; 20460 / 97189]%R)
    by (intros m; real_fit; unfold levinson; simpl; real_values).
  rewrite H3. clear H3. cbn [bind]. unfold cell_fine_vocal_tract. read_globals.
  evaluate (lfilter [1; 20460 / 97189]%R [one] [-2; 1; 5 / 2; 1 / 4]%R)
    ([-2; 56269 / 97189; 526865 / 194378; 301789 / 388756]%R)
    ltac:(unfold lfilter; simpl; real_values).
  rewrite Ht. cbn [bind]. read_globals.
  unfold multiply at 1. cbn [length Nat.eqb map2 bind].
  assert (H4 : forall m, lpc m [mul (526865 / 194378) 1; mul (301789 / 388756) 1]%R 1
               = Ok [1; - (636008245940 / 1201423513421)]%R)
    by (intros m; real_fit; unfold levinson; simpl; real_values).
  rewrite H4. clear H4. reflexivity.
Qed.

Section RunCells.

Context {F : Type} {A : Arith F}.

(** A run that returns went through the gross estimation and through a
    first pass of its loop. *)
Lemma run_Ok_cells (s : list F) (nv0 ng0 : Z) (d0 : F) (w : list F)
    (g0 : globals F) (r : list F * list F * list F) :
  gfmiaif s nv0 ng0 d0 w g0 = Ok r ->
  exists gp gg,
    cell_preframe (cell_defaults (cell_parameters s nv0 ng0 d0 w g0)) = Ok gp /\
    cell_gross (cell_lip gp) = Ok gg.
Proof.
  intros H. unfold gfmiaif in H. inv_bind H.
  destruct (run_cells_Ok _ _ E) as (gp & gg & _ & Hp & Hg & _).
  exists gp, gg. split; assumption.
Qed.

Lemma cell_gross_first_pass (g gg : globals F) :
  cell_gross g = Ok gg -> (1 <= ng g)%Z ->
  exists y a g1,
    multiply (s_gv g) (win g) = Ok y /\ lpc (heap g) y 1 = Ok a /\
    gross_step (set_ag1 a g) = Ok g1.
Proof.
  intros H Hng. unfold cell_gross in H. inv_bind H. inv_bind H.
  replace (Z.to_nat (ng g)) with (S (Z.to_nat (ng g) - 1)) in H by lia.
  cbn [gross_loop] in H. inv_bind H. eauto 6.
Qed.

Lemma run_Ok_gross_step (s : list F) (nv0 ng0 : Z) (d0 : F) (w : list F)
    (g0 : globals F) (r : list F * list F * list F) :
  gfmiaif s nv0 ng0 d0 w g0 = Ok r ->
  exists g g', in_gross_loop s nv0 ng0 d0 w g0 g /\ gross_step g = Ok g'.
Proof.
  intros H. destruct r as ((av' & ag') & al').
  destruct (run_shapes _ _ _ _ _ _ _ _ _ H) as (_ & Hng & _).
  destruct (run_Ok_cells _ _ _ _ _ _ _ H) as (gp & gg & Hp & Hg).
  pose proof (cell_preframe_inputs _ _ Hp) as (_ & _ & Hn & _).
  destruct (cell_defaults_inputs (cell_parameters s nv0 ng0 d0 w g0))
    as (_ & _ & Hn' & _).
  assert (Hng' : (1 <= ng (cell_lip gp))%Z).
  { change (ng (cell_lip gp)) with (ng gp). rewrite Hn, Hn'. exact Hng. }
  destruct (cell_gross_first_pass _ _ Hg Hng') as (y & a & g1 & Hy & Ha & H1).
  exists (set_ag1 a (cell_lip gp)), g1. split; [|exact H1].
  exists gp, y, a, 0. split; [exact Hp|]. split; [exact Hy|].
  split; [exact Ha|]. split; [lia|reflexivity].
Qed.

End RunCells.

Lemma gross_estimate_monic_witness :
  exists gp gg,
    cell_preframe (cell_defaults (cell_parameters [2; -1]%R 1 1 (1 / 2)%R [1; 1]%R fresh))
    = Ok gp /\
    cell_gross (cell_lip gp) = Ok gg /\
    hd_error (ag1 gg) = Some 1%R.
Proof.
  destruct (run_Ok_cells _ _ _ _ _ _ _ real_run) as (gp & gg & Hp & Hg).
  exists gp, gg.
  split; [exact Hp|]. split; [exact Hg|].
  exact (gross_estimate_monic _ _ Hg).
Defined.

Lemma gross_step_cascade_witness :
  exists g g',
    in_gross_loop [2; -1]%R 1 1 (1 / 2)%R [1; 1]%R fresh g /\
    gross_step g = Ok g' /\
    (forall x, lfilter (ag1 g') [1%R] x
               = lfilter (ag1x g') [1%R] (lfilter (ag1 g) [1%R] x)) /\
    lfilter (ag1 g') [1%R] (x_gv g') = lfilter (ag1x g') [1%R] (x_v1x g').
Proof.
  destruct (run_Ok_gross_step _ _ _ _ _ _ _ real_run) as (g & g' & Hin & H).
  exists g, g'.
  split; [exact Hin|]. split; [exact H|].
  exact (gross_step_cascade _ _ H).
Defined.

(** ** First order fits over the real numbers *)

Section FirstOrderReal.

Local Open Scope R_scope.

Lemma dot_nil_r (a : list R) : dot a [] = 0.
Proof. destruct a; reflexivity. Qed.

(** Twice the product of two signals is bounded by their energies. *)
Lemma dot_bound (a b : list R) :
  - (energy a + energy b) <= 2 * dot a b <= energy a + energy b.
Proof.
  revert b. induction a as [|x a IH]; intros [|y b].
  - unfold energy. rewrite !dot_nil_l. lra.
  - pose proof (energy_nonneg (y :: b)). unfold energy at 1 3.
    rewrite !dot_nil_l. lra.
  - pose proof (energy_nonneg (x :: a)). unfold energy at 2 4.
    rewrite !dot_nil_r. lra.
  - rewrite dot_cons, !energy_cons. specialize (IH b).
    pose proof (Rle_0_sqr (x - y)) as Hm. pose proof (Rle_0_sqr (x + y)) as Hp.
    unfold Rsqr in Hm, Hp. lra.
Qed.

(** X10.  Over the real numbers every first order fit that succeeds (the
    first fit of the gross estimation and the fit of each pass of its
    loop) is [[1, k]] with a reflection coefficient [-1 <= k <= 1]: the
    zero of each first order factor of the gross estimate lies in the
    closed unit disc. *)
Theorem first_order_fit_bounded (m : nat -> Z -> R) (y a : list R) :
  lpc m y 1 = Ok a -> exists k, a = [1; k] /\ -1 <= k <= 1.
Proof.
  intros H. apply lpc_first_order in H as (HD & ->).
  eexists. split; [reflexivity|].
  pose proof (dot_bound (removelast y) (tl y)) as Hb. unfold energy in Hb.
  set (C := dot (removelast y) (tl y)) in *.
  set (D := dot (tl y) (tl y) + dot (removelast y) (removelast y)) in *.
  replace (0 + -2 * C / D * 1) with ((-2 * C) * / D) by (unfold Rdiv; ring).
  assert (Hi : 0 < / D) by (apply Rinv_0_lt_compat; exact HD).
  assert (Hone : D * / D = 1) by (apply Rinv_r; lra).
  assert (HC : - D <= -2 * C <= D) by (unfold D; lra).
  split.
  - apply Rle_trans with (- D * / D); [lra|].
    apply Rmult_le_compat_r; lra.
  - apply Rle_trans with (D * / D); [|lra].
    apply Rmult_le_compat_r; lra.
Qed.

Lemma energy_zero (x : list R) : energy x = 0 -> silent x.
Proof.
  induction x as [|v x IH]; intros H; [constructor|].
  rewrite energy_cons in H. pose proof (energy_nonneg x).
  constructor; [simpl; nra | apply IH; nra].
Qed.

Lemma energy_silent (x : list R) : silent x -> energy x = 0.
Proof. intros H. unfold energy. now rewrite dot_silent. Qed.

Lemma forallb_isfinite_real (y : list R) : forallb isfinite y = true.
Proof. apply forallb_forall. reflexivity. Qed.

Lemma getitem_last_Ok {F : Type} {A : Arith F} (l : list F) :
  l <> [] -> exists v, getitem l (-1) = Ok v.
Proof.
  intros Hl. unfold getitem.
  destruct l as [|x l]; [contradiction|].
  replace ((0 <=? -1) && (-1 <? Z.of_nat (length (x :: l))))%Z with false by reflexivity.
  replace ((- Z.of_nat (length (x :: l)) <=? -1) && (-1 <? 0))%Z with true.
  - eexists. reflexivity.
  - symmetry. apply andb_true_iff. split; [apply Z.leb_le | apply Z.ltb_lt];
      cbn [length]; lia.
Qed.

(** The first order fit of a signal whose prediction errors have energy. *)
Lemma lpc_first_order_Ok (m : nat -> Z -> R) (y : list R) :
  0 < energy (tl y) + energy (removelast y) -> exists a, lpc m y 1 = Ok a.
Proof.
  intros HD. unfold lpc. rewrite forallb_isfinite_real.
  change (1 <? 1)%Z with false. change (Z.to_nat 1) with 1%nat.
  cbn [negb seq burg_loop].
  unfold burg_step.
  cbn [den burg_init fwd_pred_error bwd_pred_error ar_coeffs ar_coeffs_prev].
  change (add (dot (tl y) (tl y)) (dot (removelast y) (removelast y)))
    with (energy (tl y) + energy (removelast y)).
  change (leb ?u zero) with (Real.leb u 0). unfold Real.leb.
  destruct (Rle_dec _ 0) as [Hd|_]; [lra|].
  cbn [bind]. eexists. reflexivity.
Qed.

Lemma lpc_first_order_Raise (m : nat -> Z -> R) (y : list R) :
  energy (tl y) + energy (removelast y) <= 0 ->
  lpc m y 1 = Raise FloatingPointError.
Proof.
  intros HD. unfold lpc. rewrite forallb_isfinite_real.
  change (1 <? 1)%Z with false. change (Z.to_nat 1) with 1%nat.
  cbn [negb seq burg_loop].
  unfold burg_step.
  cbn [den burg_init fwd_pred_error bwd_pred_error ar_coeffs ar_coeffs_prev].
  change (add (dot (tl y) (tl y)) (dot (removelast y) (removelast y)))
    with (energy (tl y) + energy (removelast y)).
  change (leb ?u zero) with (Real.leb u 0). unfold Real.leb.
  destruct (Rle_dec _ 0) as [_|Hd]; [reflexivity | contradiction].
Qed.

(** X11.  Over the real numbers a first order fit succeeds on every signal
    of two samples or more that is not zero everywhere, and raises
    [FloatingPointError] on every other signal. *)
Theorem first_order_fit_outcome (m : nat -> Z -> R) (y : list R) :
  match lpc m y 1 with
  | Ok _ => (2 <= length y)%nat /\ ~ silent y
  | Raise e => e = FloatingPointError /\ ((length y < 2)%nat \/ silent y)
  end.
Proof.
  pose proof (energy_nonneg (tl y)) as Ht.
  pose proof (energy_nonneg (removelast y)) as Hr.
  destruct (Rle_dec (energy (tl y) + energy (removelast y)) 0) as [Hd|Hd].
  - rewrite (lpc_first_order_Raise m y Hd). split; [reflexivity|].
    destruct y as [|y0 [|y1 r]]; [left; simpl; lia | left; simpl; lia | right].
    assert (H1 : silent (tl (y0 :: y1 :: r))) by (apply energy_zero; lra).
    assert (H2 : silent (removelast (y0 :: y1 :: r))) by (apply energy_zero; lra).
    change (removelast (y0 :: y1 :: r)) with (y0 :: removelast (y1 :: r)) in H2.
    constructor; [now inversion H2 | exact H1].
  - destruct (lpc_first_order_Ok m y) as (a & ->); [lra|]. split.
    + destruct y as [|y0 [|y1 r]]; [exfalso; apply Hd; cbv; lra
                                   |exfalso; apply Hd; cbv; lra | simpl; lia].
    + intros Hs. apply Hd.
      rewrite (energy_silent (tl y)), (energy_silent (removelast y));
        [lra | now apply silent_removelast | now apply silent_tl].
Qed.

End FirstOrderReal.

Lemma two_samples_fit : exists a : list R, lpc (heap fresh) [1; 2]%R 1 = Ok a.
Proof. real_fit. eexists. reflexivity. Qed.

Lemma first_order_fit_bounded_witness :
  exists a : list R,
    lpc (heap fresh) [1; 2]%R 1 = Ok a /\
    exists k, a = [1; k]%R /\ (-1 <= k <= 1)%R.
Proof.
  destruct two_samples_fit as (a & H). exists a.
  split; [exact H|]. exact (first_order_fit_bounded _ _ _ H).
Defined.

(** ** The default window and the ramp of the pre-frame, over the real numbers *)

Section DefaultWindow.

Local Open Scope R_scope.

(** The weights of [np.hanning(M)]. *)
Lemma hanning_real (M : Z) :
  (2 <= M)%Z ->
  hanning (F := R) M
  = map (fun k => 1 / 2 - 1 / 2 * Rtrigo_def.cos (2 * PI * INR k / IZR (M - 1)))
        (seq 0 (Z.to_nat M)).
Proof.
  intros HM. unfold hanning.
  destruct (Z.ltb_spec M 1); [lia|]. destruct (Z.eqb_spec M 1); [lia|].
  unfold arange. rewrite map_map, Z.sub_0_r. apply map_ext. intros k. unfold half.
  cbn [add sub mul div of_Z pi cos one Real_Arith].
  rewrite INR_IZR_INZ. reflexivity.
Qed.

Lemma rev_seq (m : nat) : rev (seq 0 m) = map (fun k => (m - 1 - k)%nat) (seq 0 m).
Proof.
  induction m as [|m IH]; [reflexivity|].
  rewrite seq_S at 1. rewrite rev_app_distr, IH. cbn [rev app Nat.add seq map].
  f_equal; [lia|]. rewrite <- seq_shift, map_map.
  apply map_ext. intros k. lia.
Qed.

(** X12.  Over the real numbers the default window of a frame of two
    samples or more starts and ends with the weight zero, has all its
    weights between zero and one, and is symmetric: the first and the last
    sample of the frame are weighted with zero in every LPC fit. *)
Theorem default_window_shape (s : list R) (nv0 ng0 : Z) (d0 : R) (g0 : globals R) :
  (2 <= length s)%nat ->
  let w := win (cell_defaults (cell_parameters s nv0 ng0 d0 [] g0)) in
  nth 0 w 0 = 0 /\ nth (length s - 1) w 0 = 0 /\
  Forall (fun v => 0 <= v <= 1) w /\ rev w = w.
Proof.
  intros Hs w.
  assert (Hw : w = hanning (Z.of_nat (length s))) by reflexivity.
  rewrite hanning_real in Hw by lia. rewrite Nat2Z.id in Hw.
  set (q := IZR (Z.of_nat (length s) - 1)) in Hw.
  assert (Hq : q <> 0) by (apply not_0_IZR; lia).
  assert (Hend : INR (length s - 1) = q).
  { unfold q. rewrite INR_IZR_INZ. f_equal. lia. }
  set (f := fun k => 1 / 2 - 1 / 2 * Rtrigo_def.cos (2 * PI * INR k / q)) in Hw.
  assert (Hn : forall k, (k < length s)%nat -> nth k w 0 = f k).
  { intros k Hk. rewrite Hw.
    rewrite (nth_indep _ 0 (f 0%nat)) by (now rewrite length_map, length_seq).
    rewrite map_nth, seq_nth by assumption. reflexivity. }
  assert (H0 : f 0%nat = 0).
  { unfold f. cbn [INR]. replace (2 * PI * 0 / q) with 0 by (field; exact Hq).
    rewrite cos_0. lra. }
  assert (Hsym : forall k, (k < length s)%nat -> f (length s - 1 - k)%nat = f k).
  { intros k Hk. unfold f. rewrite minus_INR, Hend by lia.
    replace (2 * PI * (q - INR k) / q) with (2 * PI - 2 * PI * INR k / q)
      by (field; exact Hq).
    rewrite cos_minus, cos_2PI, sin_2PI. f_equal. ring. }
  repeat split.
  - rewrite Hn by lia. exact H0.
  - rewrite Hn by lia. rewrite <- (Nat.sub_0_r (length s - 1)), Hsym by lia. exact H0.
  - rewrite Hw. apply Forall_forall. intros v Hv.
    apply in_map_iff in Hv as (k & <- & _). unfold f.
    pose proof (COS_bound (2 * PI * INR k / q)). lra.
  - rewrite Hw, <- map_rev, rev_seq, map_map.
    apply map_ext_in. intros k Hk. apply in_seq in Hk. apply Hsym. lia.
Qed.

(** The ramp from [-a] to [a] in [num >= 2] samples. *)
Lemma linspace_real (a : R) (num : Z) (y : list R) :
  (2 <= num)%Z ->
  linspace (- a) a num = Ok y ->
  y = map (fun k => INR k * (2 * a / IZR (num - 1)) + - a)
          (seq 0 (Z.to_nat (num - 1))) ++ [a].
Proof.
  intros Hn. unfold linspace.
  destruct (Z.ltb_spec num 0) as [|_]; [lia|].
  destruct (Z.ltb_spec 0 (num - 1)) as [_|]; [|lia].
  destruct (Z.ltb_spec 1 num) as [_|]; [|lia].
  assert (Hq : IZR (num - 1) <> 0) by (apply not_0_IZR; lia).
  intros Hy. inv_Ok Hy. f_equal.
  unfold arange. rewrite Z.sub_0_r.
  replace (Z.to_nat num) with (S (Z.to_nat (num - 1))) by lia.
  assert (Hb : forall h : R -> R,
             removelast (map (fun v => add v (- a))
                           (map h (map of_Z (map (fun k => (0 + Z.of_nat k)%Z)
                                                  (seq 0 (S (Z.to_nat (num - 1))))))))
             = map (fun k => h (INR k) + - a) (seq 0 (Z.to_nat (num - 1)))).
  { intros h. rewrite !map_map, seq_S, map_app. cbn [map].
    rewrite removelast_last. apply map_ext. intros k.
    cbn [add of_Z Real_Arith]. now rewrite INR_IZR_INZ. }
  match goal with |- context [if ?c then _ else _] => destruct c end;
    rewrite Hb; apply map_ext; intros k;
    cbn [add sub mul div of_Z Real_Arith]; field; exact Hq.
Qed.

Lemma total_ramp (t c : R) (m : nat) :
  total (map (fun k => INR k * t + c) (seq 0 m))
  = t * (INR m * (INR m - 1) / 2) + INR m * c.
Proof.
  induction m as [|m IH].
  - unfold total. simpl. lra.
  - rewrite seq_S, map_app, total_app, IH. cbn [map Nat.add].
    rewrite total_cons, S_INR. unfold total. cbn [fold_left add zero Real_Arith].
    lra.
Qed.

(** X13.  Over the real numbers and for [nv >= 1] the ramp of the
    pre-frame starts at [-s_gvl[0]] and has the mean zero: its [Lpf]
    samples sum to zero. *)
Theorem preframe_ramp_mean (g g' : globals R) :
  cell_preframe g = Ok g' ->
  (1 <= nv g)%Z ->
  nth 0 (x_gvl g') 0 = - nth 0 (s_gvl g) 0 /\
  total (firstn (Z.to_nat (Lpf g')) (x_gvl g')) = 0.
Proof.
  intros H Hnv. apply cell_preframe_Ok in H as (s0 & ramp & Hs & Hr & ->).
  read_globals.
  pose proof (length_linspace _ _ _ _ Hr) as (Hlen & _).
  assert (H0 : nth 0 (s_gvl g) 0 = s0).
  { destruct (s_gvl g) as [|s1 s']; [discriminate|].
    rewrite getitem_first in Hs. now inv_Ok Hs. }
  rewrite H0.
  apply linspace_real in Hr; [|lia].
  replace (nv g + 1 - 1)%Z with (nv g) in Hr by lia.
  assert (Hq : IZR (nv g) <> 0) by (apply not_0_IZR; lia).
  assert (Hm : INR (Z.to_nat (nv g)) = IZR (nv g)).
  { rewrite INR_IZR_INZ. f_equal. lia. }
  split.
  - rewrite Hr. destruct (Z.to_nat (nv g)) as [|m] eqn:Em; [lia|].
    cbn [seq map app nth INR]. ring.
  - rewrite <- Hlen, firstn_app, Nat.sub_diag, firstn_all. cbn [firstn].
    rewrite app_nil_r, Hr, total_app, total_ramp, Hm.
    unfold total. cbn [fold_left add zero Real_Arith]. field. exact Hq.
Qed.

End DefaultWindow.

Lemma default_window_shape_witness :
  let w := win (cell_defaults (cell_parameters [1; 2; 3]%R 16 3 (99 / 100)%R [] fresh)) in
  nth 0 w 0%R = 0%R /\ nth (3 - 1) w 0%R = 0%R /\
  Forall (fun v => (0 <= v <= 1)%R) w /\ rev w = w.
Proof.
  assert (Hs : 2 <= length [1; 2; 3]%R) by (simpl; lia).
  exact (default_window_shape [1; 2; 3]%R 16 3 (99 / 100)%R fresh Hs).
Defined.

Lemma preframe_ramp_mean_witness :
  let g := cell_parameters [1; 2; 3]%R 2 1 (1 / 2)%R [] fresh in
  exists gp,
    cell_preframe g = Ok gp /\
    nth 0 (x_gvl gp) 0%R = (- nth 0 (s_gvl g) 0)%R /\
    total (firstn (Z.to_nat (Lpf gp)) (x_gvl gp)) = 0%R.
Proof.
  intros g.
  assert (Hs : s_gvl g <> []) by discriminate.
  assert (Hnv : (-1 <= nv g)%Z) by (simpl; lia).
  assert (Hnv' : (1 <= nv g)%Z) by (simpl; lia).
  destruct (cell_preframe_succeeds g Hs Hnv) as (gp & Hp).
  exists gp. split; [exact Hp|].
  exact (preframe_ramp_mean g gp Hp Hnv').
Defined.

(** ** Burg's recursion: what it reads, and its denominator over the real
    numbers *)

Section Reads.

Context {F : Type} {A : Arith F}.

(** The two reads of a pass of the loop, in an array that has samples. *)
Lemma peek_first (m : Z -> F) (l : list F) : l <> [] -> peek m l 0 = nth 0 l zero.
Proof.
  destruct l as [|x l]; [contradiction|]. intros _.
  unfold peek. now rewrite getitem_first.
Qed.

Lemma peek_last (m : Z -> F) (l : list F) : l <> [] -> peek m l (-1) = last l zero.
Proof.
  destruct l as [|x l]; [contradiction|]. intros _. unfold peek, getitem.
  set (n := Z.of_nat (length (x :: l))).
  assert (Hn : Z.to_nat (n + -1) = length (x :: l) - 1) by (subst n; lia).
  replace (0 <=? -1)%Z with false by reflexivity. cbn [andb].
  replace ((- n <=? -1) && (-1 <? 0))%Z with true.
  - rewrite Hn. exact (nth_pred_last (x :: l)).
  - symmetry. apply andb_true_iff. split; [apply Z.leb_le | apply Z.ltb_lt];
      subst n; cbn [length]; lia.
Qed.

Lemma getitem_first_Ok (l : list F) : l <> [] -> exists v, getitem l 0 = Ok v.
Proof.
  destruct l as [|x l]; [contradiction|]. intros _. rewrite getitem_first. eauto.
Qed.

(** In an empty array they find what the memory holds. *)
Lemma peek_nil (m : Z -> F) (i : Z) : peek m [] i = m i.
Proof.
  unfold peek, getitem. cbn [length Z.of_nat].
  destruct ((0 <=? i) && (i <? 0))%Z eqn:E1.
  - apply andb_true_iff in E1 as (H1 & H2).
    apply Z.leb_le in H1. apply Z.ltb_lt in H2. lia.
  - destruct ((- 0 <=? i) && (i <? 0))%Z eqn:E2; [|reflexivity].
    apply andb_true_iff in E2 as (H1 & H2).
    apply Z.leb_le in H1. apply Z.ltb_lt in H2. lia.
Qed.

Lemma length_removelast (l : list F) : length (removelast l) = length l - 1.
Proof. rewrite removelast_firstn_len, length_firstn. lia. Qed.

Lemma length_tl (l : list F) : length (tl l) = length l - 1.
Proof. destruct l; simpl; lia. Qed.

Lemma map2_nonempty (f : F -> F -> F) (a b : list F) :
  a <> [] -> b <> [] -> map2 f a b <> [].
Proof. destruct a, b; try contradiction; discriminate. Qed.

(** A pass of the loop raises nothing but [FloatingPointError]. *)
Lemma burg_step_Raise (m : nat -> Z -> F) (st : burg F) (i : nat) (e : exn) :
  burg_step m st i = Raise e -> e = FloatingPointError.
Proof.
  unfold burg_step. destruct (leb (den st) zero); [|discriminate].
  intros H. now injection H.
Qed.

Lemma burg_loop_Raise (m : nat -> Z -> F) (orders : list nat) (st : burg F)
    (e : exn) :
  burg_loop m st orders = Raise e -> e = FloatingPointError.
Proof.
  revert st. induction orders as [|i orders IH]; intros st H; [discriminate|].
  cbn [burg_loop] in H. destruct (burg_step m st i) as [st'|e'] eqn:Hs.
  - eauto.
  - cbn [bind] in H. injection H as <-. eauto using burg_step_Raise.
Qed.

End Reads.

Section BurgReal.

Variable m : nat -> Z -> R.

Local Open Scope R_scope.

Lemma dot_comm (a b : list R) : dot a b = dot b a.
Proof.
  revert b. induction a as [|x a IH]; intros [|y b];
    rewrite ?dot_nil_l, ?dot_nil_r, ?dot_cons, ?(IH b); try reflexivity. ring.
Qed.

Lemma energy_tl (x : list R) : energy (tl x) = energy x - nth 0 x 0 * nth 0 x 0.
Proof.
  destruct x as [|v x]; cbn [tl nth].
  - unfold energy. rewrite dot_nil_l. ring.
  - rewrite energy_cons. ring.
Qed.

Lemma energy_removelast (x : list R) :
  energy (removelast x) = energy x - last x 0 * last x 0.
Proof.
  induction x as [|v x IH].
  - cbn [removelast last]. unfold energy. rewrite dot_nil_l. ring.
  - destruct x as [|u x].
    + cbn [removelast last]. rewrite energy_cons. unfold energy.
      rewrite dot_nil_l. ring.
    + change (removelast (v :: u :: x)) with (v :: removelast (u :: x)).
      change (last (v :: u :: x) 0) with (last (u :: x) 0).
      rewrite !energy_cons in *. rewrite IH. ring.
Qed.

(** The energy of an updated prediction error. *)
Lemma energy_update (k : R) (a b : list R) :
  length a = length b ->
  energy (map2 (fun u v => u + k * v) a b)
  = energy a + 2 * k * dot a b + k * k * energy b.
Proof.
  revert b. induction a as [|x a IH]; intros [|y b] Hl; try discriminate.
  - unfold energy. cbn [map2]. rewrite !dot_nil_l. ring.
  - cbn [map2]. rewrite !energy_cons, dot_cons, IH by (simpl in Hl; lia). ring.
Qed.

Lemma getitem_first_inv (l : list R) (v : R) : getitem l 0 = Ok v -> v = nth 0 l 0.
Proof.
  destruct l as [|x l]; [discriminate|]. rewrite getitem_first.
  intros H. now inv_Ok H.
Qed.

Lemma getitem_last_inv (l : list R) (v : R) : getitem l (-1) = Ok v -> v = last l 0.
Proof.
  destruct l as [|x l]; [discriminate|]. unfold getitem.
  set (n := Z.of_nat (length (x :: l))).
  assert (Hn : Z.to_nat (n + -1) = (length (x :: l) - 1)%nat) by (subst n; lia).
  replace (0 <=? -1)%Z with false by reflexivity. cbn [andb].
  destruct ((- n <=? -1) && (-1 <? 0))%Z; [|discriminate].
  rewrite Hn. intros H. injection H as <-.
  exact (nth_pred_last (F := R) (x :: l)).
Qed.

Lemma burg_init_balanced (y : list R) (order : nat) :
  burg_balanced (burg_init y order).
Proof.
  split; cbn [burg_init fwd_pred_error bwd_pred_error den].
  - now rewrite length_tl, length_removelast.
  - reflexivity.
Qed.

(** A positive denominator is the energy of prediction errors that have
    samples. *)
Lemma burg_balanced_samples (st : burg R) :
  burg_balanced st -> 0 < den st ->
  fwd_pred_error st <> [] /\ bwd_pred_error st <> [].
Proof.
  intros (Hl & Hd) Hpos.
  destruct (fwd_pred_error st) as [|f0 fw], (bwd_pred_error st) as [|b0 bw];
    try discriminate; [|split; discriminate].
  exfalso. unfold energy in Hd. rewrite !dot_nil_l in Hd. lra.
Qed.

(** The reads of a pass from a balanced state stay inside of the
    prediction errors: the pass is the same in every memory. *)
Lemma burg_step_inside (m' : nat -> Z -> R) (st : burg R) (i : nat) :
  burg_balanced st -> burg_step m st i = burg_step m' st i.
Proof.
  intros Hb. unfold burg_step.
  change (leb (den st) zero) with (Real.leb (den st) 0). unfold Real.leb.
  destruct (Rle_dec (den st) 0) as [|Hpos]; [reflexivity|].
  destruct (burg_balanced_samples st Hb) as (Hf & Hw); [lra|].
  rewrite !peek_first, !peek_last by now apply map2_nonempty.
  reflexivity.
Qed.

(** The recursion for the denominator gives the energy of the two new
    prediction errors. *)
Lemma burg_step_balanced (st st' : burg R) (i : nat) :
  burg_balanced st -> burg_step m st i = Ok st' -> burg_balanced st'.
Proof.
  intros Hb H. pose proof Hb as (Hl & Hd). unfold burg_step in H.
  change (leb (den st) zero) with (Real.leb (den st) 0) in H. unfold Real.leb in H.
  destruct (Rle_dec (den st) 0) as [|Hpos]; [discriminate|].
  destruct (burg_balanced_samples st Hb) as (Hf & Hw); [lra|].
  rewrite peek_first, peek_last in H by now apply map2_nonempty.
  inv_Ok H.
  split; cbn [fwd_pred_error bwd_pred_error den].
  - rewrite length_tl, length_removelast, !length_map2. lia.
  - unfold sq. cbn [add mul sub div of_Z one zero Real_Arith].
    rewrite (dot_comm (bwd_pred_error st)).
    set (C := dot (fwd_pred_error st) (bwd_pred_error st)).
    set (k := -2 * C / den st).
    rewrite energy_tl, energy_removelast, !energy_update by congruence.
    rewrite (dot_comm (bwd_pred_error st)). fold C.
    assert (Hk : k * den st = -2 * C) by (unfold k; field; lra).
    replace C with (- (k * den st) / 2) by lra. rewrite Hd. field.
Qed.

Lemma burg_loop_balanced (orders : list nat) (st st' : burg R) :
  burg_balanced st -> burg_loop m st orders = Ok st' -> burg_balanced st'.
Proof.
  revert st. induction orders as [|i orders IH]; intros st Hb H.
  - now inv_Ok H.
  - cbn [burg_loop] in H. inv_bind H. eauto using burg_step_balanced.
Qed.

(** Over the real numbers [lpc] fails in two ways only: with
    [ParameterError] exactly when the order is below one, and otherwise
    with [FloatingPointError]. *)
Lemma lpc_Raise_real (y : list R) (order : Z) (e : exn) :
  lpc m y order = Raise e ->
  ((order < 1)%Z /\ e = ParameterError) \/
  ((1 <= order)%Z /\ e = FloatingPointError).
Proof.
  unfold lpc. destruct (Z.ltb_spec order 1) as [Ho|Ho].
  - intros H. injection H as <-. left. split; [assumption | reflexivity].
  - rewrite forallb_isfinite_real. cbn [negb]. intros H. right.
    split; [assumption|].
    destruct (burg_loop _ _) as [st|e'] eqn:Hl; [discriminate|].
    cbn [bind] in H. injection H as <-.
    eauto using burg_loop_Raise.
Qed.

End BurgReal.

(** ** The exceptions of a run *)

Section Exceptions.

Context {F : Type} {A : Arith F}.

Lemma bind_Raise {X Y : Type} (r : result X) (k : X -> result Y) (e : exn) :
  bind r k = Raise e -> r = Raise e \/ exists a, r = Ok a /\ k a = Raise e.
Proof.
  destruct r as [a|e']; cbn [bind]; intros H; [right; eauto|].
  left. injection H as <-. reflexivity.
Qed.

(** [np.multiply] accepts the lengths that broadcast and no others. *)
Lemma multiply_outcome (a b : list F) :
  match multiply a b with
  | Ok _ => broadcasts (length a) (length b) = true
  | Raise e => e = ValueError /\ broadcasts (length a) (length b) = false
  end.
Proof.
  unfold multiply, broadcasts.
  destruct (Nat.eqb_spec (length a) (length b)) as [|Hn]; [reflexivity|].
  destruct b as [|y [|y' b]]; destruct a as [|x [|x' a]]; cbn in *;
    try reflexivity; try (split; reflexivity); try contradiction.
Qed.

Lemma multiply_same_shape (a a' b c : list F) :
  length a' = length a -> multiply a b = Ok c -> exists c', multiply a' b = Ok c'.
Proof.
  intros Hl H. pose proof (multiply_outcome a b) as Ho. rewrite H in Ho.
  pose proof (multiply_outcome a' b) as Ho'. rewrite Hl in Ho'.
  destruct (multiply a' b) as [c'|e]; [eauto|]. destruct Ho' as (_ & Ho'). congruence.
Qed.

Lemma getitem_Raise (l : list F) (i : Z) (e : exn) :
  getitem l i = Raise e -> e = IndexError.
Proof.
  unfold getitem. destruct (_ && _); [discriminate|].
  destruct (_ && _); [discriminate|]. intros H. now injection H.
Qed.

(** [lpc] raises nothing but [ParameterError] and [FloatingPointError]. *)
Lemma lpc_Raise_cases (m : nat -> Z -> F) (y : list F) (order : Z) (e : exn) :
  lpc m y order = Raise e -> e = ParameterError \/ e = FloatingPointError.
Proof.
  unfold lpc. destruct (order <? 1)%Z; [intros H; left; now injection H|].
  destruct (negb _); [intros H; left; now injection H|].
  intros H. right.
  apply bind_Raise in H as [H|(st & _ & H)]; [|discriminate].
  eauto using burg_loop_Raise.
Qed.

Lemma convolve_Ok (a v : list F) :
  a <> [] -> v <> [] -> exists c, convolve a v = Ok c.
Proof.
  intros Ha Hv. unfold convolve.
  destruct a; [contradiction|]. destruct v; [contradiction|].
  destruct (Nat.ltb _ _); eexists; reflexivity.
Qed.

Section AfterPreFrame.

(** The globals [g] before and [gp] after the pre-frame cell, and later
    globals [g1] with a window that the frame broadcasts with. *)
Variables g gp : globals F.
Hypothesis Hp : cell_preframe g = Ok gp.

Lemma residual_windowed (g1 : globals F) (b : list F) :
  context_of g1 = context_of (cell_lip gp) ->
  broadcasts (length (s_gvl g)) (length (win g1)) = true ->
  exists r y,
    take (lfilter b [one] (x_gv g1)) (idx_pf g1) = Ok r /\
    multiply r (win g1) = Ok y.
Proof.
  intros Hc Hb.
  destruct (take_frame _ _ g1 (lfilter b [one] (x_gv g1)) Hp Hc
              (length_lfilter _ _ _)) as (Ht & Hl).
  rewrite Ht. set (r := skipn _ _) in *.
  pose proof (multiply_outcome r (win g1)) as Ho. rewrite Hl, Hb in Ho.
  destruct (multiply r (win g1)) as [y|e] eqn:Hm; [eauto|].
  destruct Ho as (_ & Ho). discriminate.
Qed.

Lemma gross_step_Raise (g1 : globals F) (e : exn) :
  context_of g1 = context_of (cell_lip gp) ->
  broadcasts (length (s_gvl g)) (length (win g1)) = true ->
  ag1 g1 <> [] ->
  gross_step g1 = Raise e -> exists m y, lpc m y 1 = Raise e.
Proof.
  intros Hc Hb Ha H.
  destruct (residual_windowed g1 (ag1 g1) Hc Hb) as (r & y & Hr & Hy).
  unfold gross_step in H. read_globals_in H. rewrite Hr in H.
  cbn [bind] in H. read_globals_in H. rewrite Hy in H. cbn [bind] in H.
  destruct (lpc (heap g1) y 1) as [a|e'] eqn:Hl.
  - cbn [bind] in H. read_globals_in H.
    destruct (convolve_Ok (ag1 g1) a) as (c & Hcv); [assumption| |].
    + apply lpc_monic in Hl as (_ & Hl & _). destruct a; [discriminate|discriminate].
    + rewrite Hcv in H. discriminate.
  - cbn [bind] in H. injection H as <-. eauto.
Qed.

Lemma gross_loop_Raise (n : nat) (g1 : globals F) (e : exn) :
  context_of g1 = context_of (cell_lip gp) ->
  broadcasts (length (s_gvl g)) (length (win g1)) = true ->
  ag1 g1 <> [] ->
  gross_loop n g1 = Raise e -> exists m y, lpc m y 1 = Raise e.
Proof.
  revert g1. induction n as [|n IH]; intros g1 Hc Hb Ha H; [discriminate|].
  cbn [gross_loop] in H.
  apply bind_Raise in H as [H|(g2 & H2 & H)]; [eauto using gross_step_Raise|].
  pose proof (gross_step_context _ _ H2) as Hc2.
  apply (IH g2); try assumption.
  - now rewrite Hc2.
  - apply context_of_eq in Hc2 as (_ & _ & _ & _ & -> & _). assumption.
  - apply gross_step_length in H2. intros Hn. rewrite Hn in H2. simpl in H2. lia.
Qed.

(** The gross estimation fails at the first product with the window, with
    [ValueError], or in a first order fit. *)
Lemma cell_gross_Raise (e : exn) :
  cell_gross (cell_lip gp) = Raise e ->
  (e = ValueError /\ broadcasts (length (s_gvl g)) (length (win g)) = false) \/
  (broadcasts (length (s_gvl g)) (length (win g)) = true /\
   exists m y, lpc m y 1 = Raise e).
Proof.
  intros H. unfold cell_gross in H.
  pose proof (cell_preframe_inputs _ _ Hp) as (Hs & _ & _ & _ & Hw).
  pose proof (multiply_outcome (s_gv (cell_lip gp)) (win (cell_lip gp))) as Ho.
  assert (Hlen : length (s_gv (cell_lip gp)) = length (s_gvl g)).
  { unfold cell_lip. read_globals. now rewrite length_lfilter, Hs. }
  assert (Hwin : win (cell_lip gp) = win g) by exact Hw.
  revert H Ho.
  destruct (multiply (s_gv (cell_lip gp)) (win (cell_lip gp))) as [y|e'];
    intros H Ho; rewrite Hlen, Hwin in Ho.
  - right. split; [assumption|]. cbn [bind] in H.
    destruct (lpc (heap (cell_lip gp)) y 1) as [a|e'] eqn:Hl.
    + cbn [bind] in H. apply (gross_loop_Raise _ _ _) in H; try assumption.
      * reflexivity.
      * read_globals. now rewrite Hwin.
      * read_globals. apply lpc_monic in Hl as (_ & Hl & _).
        destruct a; discriminate.
    + cbn [bind] in H. injection H as <-. eauto.
  - left. cbn [bind] in H. injection H as <-. assumption.
Qed.

Lemma cell_fine_glottis_Raise (g1 : globals F) (e : exn) :
  context_of g1 = context_of (cell_lip gp) ->
  broadcasts (length (s_gvl g)) (length (win g1)) = true ->
  cell_fine_glottis g1 = Raise e -> exists m y, lpc m y (ng g1) = Raise e.
Proof.
  intros Hc Hb H.
  destruct (residual_windowed g1 (ag1 g1) Hc Hb) as (r & y & Hr & Hy).
  unfold cell_fine_glottis in H. read_globals_in H. rewrite Hr in H.
  cbn [bind] in H. read_globals_in H. rewrite Hy in H. cbn [bind] in H.
  destruct (lpc (heap g1) y (ng g1)) as [a|e'] eqn:Hl; [discriminate|].
  cbn [bind] in H. injection H as <-. eauto.
Qed.

Lemma cell_fine_vocal_tract_Raise (g1 : globals F) (e : exn) :
  context_of g1 = context_of (cell_lip gp) ->
  broadcasts (length (s_gvl g)) (length (win g1)) = true ->
  cell_fine_vocal_tract g1 = Raise e -> exists m y, lpc m y (nv g1) = Raise e.
Proof.
  intros Hc Hb H.
  destruct (residual_windowed g1 (ag g1) Hc Hb) as (r & y & Hr & Hy).
  unfold cell_fine_vocal_tract in H. read_globals_in H. rewrite Hr in H.
  cbn [bind] in H. read_globals_in H. rewrite Hy in H. cbn [bind] in H.
  destruct (lpc (heap g1) y (nv g1)) as [a|e'] eqn:Hl; [discriminate|].
  cbn [bind] in H. injection H as <-. eauto.
Qed.

End AfterPreFrame.

End Exceptions.

Section RunExceptions.

Context {F : Type} {A : Arith F}.

(** The frame, the orders and the window of a run, after the defaults. *)
Lemma run_inputs (s : list F) (nv0 ng0 : Z) (d0 : F) (w : list F) (g0 : globals F) :
  let g := cell_defaults (cell_parameters s nv0 ng0 d0 w g0) in
  s_gvl g = s /\ nv g = nv0 /\ ng g = ng0 /\
  (w = [] -> length (win g) = length s) /\ (w <> [] -> win g = w).
Proof.
  intros g.
  destruct (cell_defaults_inputs (cell_parameters s nv0 ng0 d0 w g0))
    as (Hs & Hnv & Hng & _).
  repeat split; try assumption.
  - intros ->. apply (cell_defaults_window_length (length s)); auto.
  - apply cell_defaults_window.
Qed.

Lemma broadcasts_refl (n : nat) : broadcasts n n = true.
Proof. unfold broadcasts. now rewrite Nat.eqb_refl. Qed.

Lemma broadcasts_false (n m : nat) :
  broadcasts n m = false <-> n <> m /\ m <> 1 /\ n <> 1.
Proof. unfold broadcasts. rewrite !orb_false_iff, !Nat.eqb_neq. tauto. Qed.

Lemma cell_preframe_Ok_inputs (g gp : globals F) :
  cell_preframe g = Ok gp -> s_gvl g <> [] /\ (-1 <= nv g)%Z.
Proof.
  intros H. apply cell_preframe_Ok in H as (s0 & ramp & Hs & Hr & _).
  apply length_linspace in Hr as (_ & Hr). split; [|lia].
  intros Hn. rewrite Hn in Hs. discriminate.
Qed.

Lemma cell_preframe_Raise (g : globals F) (e : exn) :
  cell_preframe g = Raise e ->
  (s_gvl g = [] /\ e = IndexError) \/
  (s_gvl g <> [] /\ (nv g < -1)%Z /\ e = ValueError).
Proof.
  intros H. destruct (s_gvl g) as [|s0 s'] eqn:Hs.
  - left. unfold cell_preframe in H. read_globals_in H. rewrite Hs in H.
    split; [reflexivity|]. now injection H.
  - right. split; [discriminate|].
    destruct (Z.lt_ge_cases (nv g) (-1)) as [Hnv|Hnv].
    + split; [assumption|].
      unfold cell_preframe in H. read_globals_in H. rewrite Hs, getitem_first in H.
      cbn [bind] in H.
      apply bind_Raise in H as [H|(ramp & _ & H)]; [|discriminate].
      eauto using linspace_Raise.
    + destruct (cell_preframe_succeeds g) as (gp & Hp); [congruence | assumption |].
      congruence.
Qed.

Lemma cell_gross_Ok_broadcasts (g gp gg : globals F) :
  cell_preframe g = Ok gp ->
  cell_gross (cell_lip gp) = Ok gg ->
  broadcasts (length (s_gvl g)) (length (win g)) = true.
Proof.
  intros Hp H. unfold cell_gross in H. inv_bind H.
  pose proof (multiply_outcome (s_gv (cell_lip gp)) (win (cell_lip gp))) as Ho.
  rewrite E in Ho.
  pose proof (cell_preframe_inputs _ _ Hp) as (Hs & _ & _ & _ & Hw).
  unfold cell_lip in Ho. read_globals_in Ho.
  now rewrite length_lfilter, Hs, Hw in Ho.
Qed.

(** Where the exception of a run comes from: the first sample of an empty
    frame, the ramp of the pre-frame, the first product with the window,
    or an LPC fit of the order one, [ng] or [nv]. *)
Lemma run_exception_cases (s : list F) (nv0 ng0 : Z) (d0 : F) (w : list F)
    (g0 : globals F) (e : exn) :
  gfmiaif s nv0 ng0 d0 w g0 = Raise e ->
  (s = [] /\ e = IndexError) \/
  (s <> [] /\ (nv0 < -1)%Z /\ e = ValueError) \/
  (s <> [] /\ (-1 <= nv0)%Z /\ w <> [] /\
   broadcasts (length s) (length w) = false /\ e = ValueError) \/
  (s <> [] /\ (-1 <= nv0)%Z /\
   (w = [] \/ broadcasts (length s) (length w) = true) /\
   exists m y order,
     (order = 1 \/ order = ng0 \/ order = nv0)%Z /\ lpc m y order = Raise e).
Proof.
  intros H. unfold gfmiaif in H.
  apply bind_Raise in H as [H|(gf & _ & H)]; [|discriminate].
  destruct (run_inputs s nv0 ng0 d0 w g0) as (Hs & Hnv & Hng & Hw0 & Hw1).
  unfold run_cells in H.
  set (g := cell_defaults (cell_parameters s nv0 ng0 d0 w g0)) in *.
  apply bind_Raise in H as [H|(gp & Hp & H)].
  { apply cell_preframe_Raise in H. rewrite Hs, Hnv in H.
    destruct H as [H|H]; [left | right; left]; exact H. }
  right. right.
  pose proof (cell_preframe_Ok_inputs _ _ Hp) as (Hne & Hge).
  rewrite Hs in Hne. rewrite Hnv in Hge.
  assert (Hbw : broadcasts (length (s_gvl g)) (length (win g)) = true ->
                w = [] \/ broadcasts (length s) (length w) = true).
  { intros Hb. destruct w as [|w0 w']; [left; reflexivity|right].
    rewrite Hs, Hw1 in Hb by discriminate. exact Hb. }
  pose proof (cell_preframe_inputs _ _ Hp) as (_ & _ & Hng' & _ & Hwp).
  apply bind_Raise in H as [H|(gg & Hg & H)].
  { apply (cell_gross_Raise g gp Hp) in H as [(-> & Hb)|(Hb & m & y & Hy)].
    - left. destruct w as [|w0 w'].
      + rewrite Hw0, Hs, broadcasts_refl in Hb by reflexivity. discriminate.
      + rewrite Hs, Hw1 in Hb by discriminate.
        repeat split; try assumption; discriminate.
    - right. repeat split; auto. exists m, y, 1%Z. auto. }
  right. repeat split; try assumption.
  { eauto using cell_gross_Ok_broadcasts. }
  pose proof (cell_gross_context _ _ Hg) as Hcg.
  pose proof (cell_gross_Ok_broadcasts _ _ _ Hp Hg) as Hb.
  assert (Hwg : win gg = win g).
  { apply context_of_eq in Hcg as (_ & _ & _ & _ & -> & _). exact Hwp. }
  assert (Hngg : ng gg = ng0).
  { apply context_of_eq in Hcg as (_ & _ & -> & _). cbn. congruence. }
  apply bind_Raise in H as [H|(ga & Ha & H)].
  { apply (cell_fine_glottis_Raise g gp Hp) in H as (m & y & Hy);
      [|assumption|now rewrite Hwg].
    exists m, y, ng0. rewrite Hngg in Hy. auto. }
  pose proof (cell_fine_glottis_context _ _ Ha) as (Hca & _).
  rewrite Hcg in Hca.
  assert (Hwa : win ga = win g).
  { apply context_of_eq in Hca as (_ & _ & _ & _ & -> & _). exact Hwp. }
  assert (Hnva : nv ga = nv0).
  { apply context_of_eq in Hca as (_ & -> & _). cbn.
    apply cell_preframe_inputs in Hp as (_ & -> & _). exact Hnv. }
  apply (cell_fine_vocal_tract_Raise g gp Hp) in H as (m & y & Hy);
    [|assumption|now rewrite Hwa].
  exists m, y, nv0. rewrite Hnva in Hy. auto.
Qed.

(** What a run that returns has accepted. *)
Lemma run_Ok_inputs (s : list F) (nv0 ng0 : Z) (d0 : F) (w : list F)
    (g0 : globals F) (r : list F * list F * list F) :
  gfmiaif s nv0 ng0 d0 w g0 = Ok r ->
  s <> [] /\ (-1 <= nv0)%Z /\ (w = [] \/ broadcasts (length s) (length w) = true).
Proof.
  intros H. unfold gfmiaif in H. inv_bind H.
  destruct (run_cells_Ok _ _ E) as (gp & gg & _ & Hp & Hg & _).
  destruct (run_inputs s nv0 ng0 d0 w g0) as (Hs & Hnv & _ & _ & Hw1).
  pose proof (cell_preframe_Ok_inputs _ _ Hp) as (Hne & Hge).
  pose proof (cell_gross_Ok_broadcasts _ _ _ Hp Hg) as Hb.
  rewrite Hs in Hne, Hb. rewrite Hnv in Hge.
  repeat split; try assumption.
  destruct w as [|w0 w']; [left; reflexivity|right].
  now rewrite Hw1 in Hb by discriminate.
Qed.

(** X14.  A run raises [ValueError] in two cases and no others, whatever
    the arithmetic: the frame has samples, and either [nv < -1] (the
    pre-frame would have a negative length) or a window is given whose
    length does not broadcast with the frame's, that is, the two lengths
    differ and neither of them is one. *)
Theorem value_error_cases (s : list F) (nv0 ng0 : Z) (d0 : F) (w : list F)
    (g0 : globals F) :
  gfmiaif s nv0 ng0 d0 w g0 = Raise ValueError <->
  s <> [] /\
  ((nv0 < -1)%Z \/
   (w <> [] /\ length s <> length w /\ length w <> 1 /\ length s <> 1)).
Proof.
  rewrite <- (broadcasts_false (length s) (length w)).
  split.
  - intros H.
    apply run_exception_cases in H
      as [(_ & H)|[(Hs & Hnv & _)|[(Hs & _ & Hw & Hb & _)
                                  |(_ & _ & _ & m & y & o & _ & H)]]].
    + discriminate.
    + auto.
    + auto.
    + apply lpc_Raise_cases in H as [H|H]; discriminate.
  - intros (Hs & Hc).
    destruct (gfmiaif s nv0 ng0 d0 w g0) as [r|e] eqn:H.
    + exfalso. apply run_Ok_inputs in H as (_ & Hnv & Hw).
      destruct Hc as [Hc|(Hc & Hb)]; [lia|].
      destruct Hw as [Hw|Hw]; congruence.
    + f_equal.
      apply run_exception_cases in H
        as [(H & _)|[(_ & _ & H)|[(_ & _ & _ & _ & H)|(_ & Hnv & Hw & _)]]];
        try assumption; try contradiction.
      exfalso. destruct Hc as [Hc|(Hc & Hb)]; [lia|].
      destruct Hw as [Hw|Hw]; congruence.
Qed.

End RunExceptions.

(** X15.  Over the real numbers the exception of a run tells its cause:
    [IndexError] is raised for the empty frame only, [ValueError] for
    [nv < -1] or a window that does not broadcast, [ParameterError] only
    when [ng] or [nv] is below one (and the frame and [nv] passed the
    pre-frame), and [FloatingPointError] only for a frame with samples and
    [nv >= -1]. *)
Theorem run_exceptions_real (s : list R) (nv0 ng0 : Z) (d0 : R) (w : list R)
    (g0 : globals R) (e : exn) :
  gfmiaif s nv0 ng0 d0 w g0 = Raise e ->
  match e with
  | IndexError => s = []
  | ValueError =>
      s <> [] /\
      ((nv0 < -1)%Z \/
       (w <> [] /\ length s <> length w /\ length w <> 1 /\ length s <> 1))
  | ParameterError => s <> [] /\ (-1 <= nv0)%Z /\ ((ng0 < 1)%Z \/ (nv0 < 1)%Z)
  | FloatingPointError => s <> [] /\ (-1 <= nv0)%Z
  end.
Proof.
  intros H.
  apply run_exception_cases in H
    as [(Hs & ->)|[(Hs & Hnv & ->)|[(Hs & _ & Hw & Hb & ->)
                                   |(Hs & Hnv & _ & m & y & o & Ho & H)]]].
  - exact Hs.
  - auto.
  - apply broadcasts_false in Hb. auto.
  - apply lpc_Raise_real in H as [(Hlt & ->)|(_ & ->)]; [|auto].
    repeat split; try assumption. lia.
Qed.

Lemma run_exceptions_real_witness :
  gfmiaif [0; 0; 0]%R 16 3 (99 / 100)%R [1; 1; 1]%R fresh = Raise FloatingPointError /\
  [0; 0; 0]%R <> [] /\ (-1 <= 16)%Z.
Proof.
  assert (H : gfmiaif [0; 0; 0]%R 16 3 (99 / 100)%R [1; 1; 1]%R fresh
              = Raise FloatingPointError).
  { unfold gfmiaif, run_cells.
    destruct (cell_preframe_silent (F := R) 3
                (cell_defaults (cell_parameters [0; 0; 0]%R 16 3 (99 / 100)%R
                                  [1; 1; 1]%R fresh)))
      as (gp & -> & Hsp & Hwp); [lia | simpl; lia | reflexivity |].
    cbn [bind]. rewrite cell_gross_silent; [reflexivity | |].
    - unfold cell_lip. read_globals. rewrite Hsp.
      apply silent_lfilter, (silent_repeat (F := R)).
    - unfold cell_lip. read_globals. now rewrite length_lfilter, Hsp, Hwp. }
  split; [exact H|].
  exact (run_exceptions_real _ _ _ _ _ _ _ H).
Defined.

(** ** The gain of the frame *)

Section Scaling.

Context {F : Type} {A : Arith F} {E : ExactArith F}.

Add Ring scaling_ring : arith_ring.

Lemma length_scaled (c : F) (x : list F) : length (scaled c x) = length x.
Proof. apply length_map. Qed.

Lemma scaled_repeat_zero (c : F) (n : nat) : scaled c (repeat zero n) = repeat zero n.
Proof.
  induction n as [|n IH]; [reflexivity|].
  cbn [repeat scaled map]. fold (scaled c (repeat zero n)). rewrite IH.
  f_equal. ring.
Qed.

Lemma delays_cons (b a z : list F) (z0 z1 x y : F) :
  delays b a (z0 :: z1 :: z) x y
  = sub (add z1 (mul x (hd zero b))) (mul y (hd zero a))
      :: delays (tl b) (tl a) (z1 :: z) x y.
Proof. reflexivity. Qed.

Lemma scaled_delays (c : F) (b a z : list F) (x y : F) :
  delays b a (scaled c z) (mul c x) (mul c y) = scaled c (delays b a z x y).
Proof.
  revert b a. induction z as [|z0 z IH]; intros b a; [reflexivity|].
  destruct z as [|z1 z].
  - cbn [scaled map delays]. f_equal. ring.
  - change (scaled c (z0 :: z1 :: z)) with (mul c z0 :: mul c z1 :: scaled c z).
    rewrite !delays_cons.
    change (mul c z1 :: scaled c z) with (scaled c (z1 :: z)).
    rewrite IH. cbn [scaled map]. f_equal. ring.
Qed.

Lemma scaled_output (c b0 : F) (z : list F) (x : F) :
  output b0 (scaled c z) (mul c x) = mul c (output b0 z x).
Proof. destruct z; cbn [scaled map output]; ring. Qed.

Lemma scaled_lfilter_run (c b0 : F) (b a z x : list F) :
  lfilter_run b0 b a (scaled c z) (scaled c x) = scaled c (lfilter_run b0 b a z x).
Proof.
  revert z. induction x as [|xn x IH]; intros z; [reflexivity|].
  cbn [scaled map lfilter_run]. fold (scaled c x).
  rewrite scaled_output, scaled_delays, IH. reflexivity.
Qed.

(** A filter is linear in its signal. *)
Lemma scaled_lfilter (c : F) (b a x : list F) :
  lfilter b a (scaled c x) = scaled c (lfilter b a x).
Proof.
  unfold lfilter. rewrite <- scaled_lfilter_run, scaled_repeat_zero. reflexivity.
Qed.

Lemma nth_scaled (c : F) (a : list F) (i : nat) :
  nth i (scaled c a) zero = mul c (nth i a zero).
Proof.
  unfold scaled. replace (zero : F) with (mul c zero) at 1 by ring.
  apply map_nth.
Qed.

Lemma getitem_scaled (c : F) (a : list F) (i : Z) :
  getitem (scaled c a) i = rmap (mul c) (getitem a i).
Proof.
  unfold getitem. rewrite length_scaled.
  destruct (_ && _); [cbn [rmap]; now rewrite nth_scaled|].
  destruct (_ && _); [cbn [rmap]; now rewrite nth_scaled|reflexivity].
Qed.

Lemma take_scaled (c : F) (a : list F) (idx : list Z) :
  take (scaled c a) idx = rmap (scaled c) (take a idx).
Proof.
  induction idx as [|i idx IH]; [reflexivity|].
  cbn [take]. rewrite getitem_scaled, IH.
  destruct (getitem a i); [|reflexivity].
  destruct (take a idx); reflexivity.
Qed.

Lemma multiply_scaled (c : F) (a w : list F) :
  multiply (scaled c a) w = rmap (scaled c) (multiply a w).
Proof.
  unfold multiply. rewrite length_scaled.
  destruct (Nat.eqb (length a) (length w)).
  - cbn [rmap]. f_equal. revert w. induction a as [|x a IH]; intros [|y w];
      try reflexivity.
    cbn [scaled map map2]. fold (scaled c a). rewrite IH.
    cbn [scaled map]. f_equal. ring.
  - destruct w as [|y [|y' w]]; destruct a as [|x [|x' a]]; try reflexivity;
      cbn [scaled map rmap]; f_equal.
    + f_equal. ring.
    + f_equal; [ring|]. f_equal; [ring|].
      rewrite !map_map. apply map_ext. intros. ring.
    + f_equal; [ring|]. f_equal; [ring|].
      rewrite map_map. apply map_ext. intros. ring.
Qed.

Lemma scaled_tl (c : F) (x : list F) : tl (scaled c x) = scaled c (tl x).
Proof. destruct x; reflexivity. Qed.

Lemma scaled_removelast (c : F) (x : list F) :
  removelast (scaled c x) = scaled c (removelast x).
Proof.
  induction x as [|v x IH]; [reflexivity|].
  destruct x as [|u x]; [reflexivity|].
  change (scaled c (v :: u :: x)) with (mul c v :: scaled c (u :: x)).
  change (removelast (v :: u :: x)) with (v :: removelast (u :: x)).
  cbn [scaled map]. fold (scaled c (removelast (u :: x))). rewrite <- IH.
  reflexivity.
Qed.

Lemma dot_cons_exact (x y : F) (a b : list F) :
  dot (x :: a) (y :: b) = add (mul x y) (dot a b).
Proof. unfold dot. cbn [map2 fold_left]. rewrite fold_add_acc. ring. Qed.

Lemma dot_scaled (c : F) (a b : list F) :
  dot (scaled c a) (scaled c b) = mul (mul c c) (dot a b).
Proof.
  revert b. induction a as [|x a IH]; intros [|y b];
    try (unfold dot; cbn [scaled map map2 fold_left]; ring).
  cbn [scaled map]. fold (scaled c a) (scaled c b).
  rewrite !dot_cons_exact, IH. ring.
Qed.

Lemma map2_scaled (k c : F) (a b : list F) :
  map2 (fun u v => add u (mul k v)) (scaled c a) (scaled c b)
  = scaled c (map2 (fun u v => add u (mul k v)) a b).
Proof.
  revert b. induction a as [|x a IH]; intros [|y b]; try reflexivity.
  cbn [scaled map map2]. fold (scaled c a) (scaled c b). rewrite IH.
  cbn [scaled map]. f_equal. ring.
Qed.

End Scaling.

Lemma both_bind {X Y : Type} (P : X -> X -> Prop) (Q : Y -> Y -> Prop)
    (r r' : result X) (k k' : X -> result Y) :
  both P r r' -> (forall a a', P a a' -> both Q (k a) (k' a')) ->
  both Q (bind r k) (bind r' k').
Proof.
  destruct r as [a|e], r' as [a'|e']; cbn [both bind]; auto; contradiction.
Qed.

Lemma both_eq {X : Type} (r r' : result X) : both eq r r' -> r = r'.
Proof. destruct r, r'; cbn [both]; intros H; congruence || contradiction. Qed.

Section GainReal.

Local Open Scope R_scope.

Variable c : R.
Hypothesis Hc : c <> 0.

Lemma burg_init_scaled (y : list R) (n : nat) :
  burg_scaled c (burg_init y n) (burg_init (scaled c y) n).
Proof.
  unfold burg_scaled, burg_init.
  cbn [ar_coeffs ar_coeffs_prev fwd_pred_error bwd_pred_error den].
  rewrite scaled_tl, scaled_removelast, !dot_scaled.
  repeat split; try reflexivity. cbn [add mul Real_Arith]. ring.
Qed.

(** A pass of Burg's loop on the scaled signal finds the same reflection
    coefficient, in whatever memory: the prediction errors of a balanced
    state with a positive denominator have the samples that the pass
    reads. *)
Lemma burg_step_scaled (m m' : nat -> Z -> R) (st st' : burg R) (i : nat) :
  burg_balanced st -> burg_scaled c st st' ->
  both (burg_scaled c) (burg_step m st i) (burg_step m' st' i).
Proof.
  intros Hbal (Ha & Hp & Hf & Hb & Hd).
  unfold burg_step. rewrite Ha, Hp, Hf, Hb, Hd.
  change (leb ?u zero) with (Real.leb u 0). unfold Real.leb.
  assert (Hcc : 0 < c * c) by nra.
  destruct (Rle_dec (den st) 0) as [Hle|Hgt];
    destruct (Rle_dec (c * c * den st) 0) as [Hle'|Hgt'];
    try (exfalso; nra); [reflexivity|].
  rewrite dot_scaled.
  set (k := div (mul (of_Z (-2)) (dot (bwd_pred_error st) (fwd_pred_error st)))
                (den st)).
  assert (Hk : div (mul (of_Z (-2))
                      (mul (mul c c) (dot (bwd_pred_error st) (fwd_pred_error st))))
                   (c * c * den st) = k).
  { unfold k. cbn [div mul of_Z Real_Arith]. field. split; lra. }
  rewrite Hk, !map2_scaled. unfold peek. rewrite !getitem_scaled.
  destruct (burg_balanced_samples st Hbal) as (Hfw & Hbw); [lra|].
  match goal with
  | |- context [getitem ?l (-1)%Z] =>
      destruct (getitem_last_Ok l) as (bl & ->); [now apply map2_nonempty|]
  end.
  match goal with
  | |- context [getitem ?l 0%Z] =>
      destruct (getitem_first_Ok l) as (f0 & ->); [now apply map2_nonempty|]
  end.
  cbn [rmap both]. unfold burg_scaled.
  cbn [ar_coeffs ar_coeffs_prev fwd_pred_error bwd_pred_error den].
  rewrite scaled_tl, scaled_removelast.
  repeat split; try reflexivity.
  unfold sq. cbn [sub mul one Real_Arith]. ring.
Qed.

Lemma burg_loop_scaled (m m' : nat -> Z -> R) (orders : list nat)
    (st st' : burg R) :
  burg_balanced st -> burg_scaled c st st' ->
  both (burg_scaled c) (burg_loop m st orders) (burg_loop m' st' orders).
Proof.
  revert st st'. induction orders as [|i orders IH]; intros st st' Hb H; [exact H|].
  cbn [burg_loop].
  pose proof (burg_step_scaled m m' st st' i Hb H) as Hs.
  pose proof (fun a => burg_step_balanced m st a i Hb) as Hn.
  destruct (burg_step m st i) as [a|e], (burg_step m' st' i) as [a'|e'];
    cbn [both bind] in *; try contradiction; [|assumption].
  apply IH; auto.
Qed.

(** The LPC estimate does not depend on the gain of the signal. *)
Lemma lpc_scaled (m m' : nat -> Z -> R) (y : list R) (order : Z) :
  lpc m' (scaled c y) order = lpc m y order.
Proof.
  unfold lpc. destruct (order <? 1)%Z; [reflexivity|].
  rewrite !forallb_isfinite_real. cbn [negb].
  pose proof (burg_loop_scaled m m' (seq 0 (Z.to_nat order)) _ _
                (burg_init_balanced y (Z.to_nat order))
                (burg_init_scaled y (Z.to_nat order))) as H.
  destruct (burg_loop m (burg_init y _) _) as [st|e],
           (burg_loop m' (burg_init (scaled c y) _) _) as [st'|e'];
    cbn [both] in H; cbn [bind]; try contradiction.
  - destruct H as (-> & _). reflexivity.
  - congruence.
Qed.

(** The ramp of the pre-frame is scaled with the first sample. *)
Lemma linspace_scaled (s0 : R) (num : Z) :
  linspace (opp (mul c s0)) (mul c s0) num
  = rmap (scaled c) (linspace (opp s0) s0 num).
Proof.
  unfold linspace. destruct (num <? 0)%Z; [reflexivity|]. cbn [rmap]. f_equal.
  set (ks := map of_Z (arange 0 num)).
  assert (Hy : forall t t' : R -> R, (forall v, t' v = c * t v) ->
               map (fun v => add v (opp (mul c s0))) (map t' ks)
               = scaled c (map (fun v => add v (opp s0)) (map t ks))).
  { intros t t' Ht. unfold scaled. rewrite !map_map. apply map_ext. intros v.
    rewrite Ht. cbn [add opp mul Real_Arith]. ring. }
  assert (Hbody :
    map (fun v => add v (opp (mul c s0)))
        (if (0 <? num - 1)%Z
         then if eqb (div (sub (mul c s0) (opp (mul c s0))) (of_Z (num - 1))) zero
              then map (fun v => mul (div v (of_Z (num - 1)))
                                     (sub (mul c s0) (opp (mul c s0)))) ks
              else map (fun v => mul v (div (sub (mul c s0) (opp (mul c s0)))
                                            (of_Z (num - 1)))) ks
         else map (fun v => mul v (sub (mul c s0) (opp (mul c s0)))) ks)
    = scaled c
        (map (fun v => add v (opp s0))
           (if (0 <? num - 1)%Z
            then if eqb (div (sub s0 (opp s0)) (of_Z (num - 1))) zero
                 then map (fun v => mul (div v (of_Z (num - 1))) (sub s0 (opp s0))) ks
                 else map (fun v => mul v (div (sub s0 (opp s0)) (of_Z (num - 1)))) ks
            else map (fun v => mul v (sub s0 (opp s0))) ks))).
  { destruct (Z.ltb_spec 0 (num - 1)) as [Hdv|Hdv].
    - assert (Hq : IZR (num - 1) <> 0) by (apply not_0_IZR; lia).
      assert (Hstep : div (sub (mul c s0) (opp (mul c s0))) (of_Z (num - 1))
                      = c * div (sub s0 (opp s0)) (of_Z (num - 1))).
      { cbn [div sub mul opp of_Z Real_Arith]. field. exact Hq. }
      assert (Hb : eqb (div (sub (mul c s0) (opp (mul c s0))) (of_Z (num - 1))) zero
                   = eqb (div (sub s0 (opp s0)) (of_Z (num - 1))) zero).
      { rewrite Hstep. cbn [eqb zero Real_Arith]. unfold Real.eqb.
        destruct (Req_dec_T _ 0) as [H1|H1], (Req_dec_T _ 0) as [H2|H2];
          try reflexivity; exfalso.
        - apply Rmult_integral in H1 as [H1|H1]; contradiction.
        - apply H1. rewrite H2. ring. }
      rewrite Hb. clear Hb Hstep.
      destruct (eqb (div (sub s0 (opp s0)) (of_Z (num - 1))) zero); apply Hy; intros v;
        cbn [div sub mul opp of_Z Real_Arith]; field; exact Hq.
    - apply Hy. intros v. cbn [sub mul opp Real_Arith]. ring. }
  fold ks. rewrite Hbody.
  destruct (1 <? num)%Z; [|reflexivity].
  rewrite scaled_removelast. unfold scaled. rewrite map_app. reflexivity.
Qed.

(** The cells on the scaled frame. *)
Lemma cell_preframe_scaled (s : list R) (nv0 ng0 : Z) (d0 : R) (w : list R)
    (g0 : globals R) :
  both (fun gp gp' => globals_scaled c (cell_lip gp) (cell_lip gp'))
    (cell_preframe (cell_defaults (cell_parameters s nv0 ng0 d0 w g0)))
    (cell_preframe (cell_defaults (cell_parameters (scaled c s) nv0 ng0 d0 w g0))).
Proof.
  unfold cell_preframe, cell_defaults, cell_parameters. read_globals.
  rewrite length_scaled.
  destruct w as [|w0 w']; read_globals; rewrite getitem_scaled;
    (destruct (getitem s 0) as [s0|e]; [|reflexivity]); cbn [rmap bind];
    rewrite linspace_scaled;
    (destruct (linspace (opp s0) s0 (nv0 + 1)) as [ramp|e]; [|reflexivity]);
    cbn [rmap bind both]; unfold globals_scaled, cell_lip; read_globals;
    rewrite <- !scaled_lfilter, !length_app, !length_scaled;
    unfold scaled; rewrite map_app; repeat split; reflexivity.
Qed.

Lemma gross_step_scaled (g g' : globals R) :
  globals_scaled c g g' -> both (globals_scaled c) (gross_step g) (gross_step g').
Proof.
  intros (Hnv & Hng & Hw & Hi & Hal & Ha1 & Hag & Hav & Hs & Hx).
  unfold gross_step. read_globals.
  rewrite Ha1, Hx, Hi, Hw, scaled_lfilter, take_scaled.
  destruct (take _ (idx_pf g)) as [r|e]; [|reflexivity]. cbn [rmap bind].
  rewrite multiply_scaled.
  destruct (multiply r (win g)) as [y|e]; [|reflexivity]. cbn [rmap bind].
  rewrite (lpc_scaled (heap g) (heap g')).
  destruct (lpc (heap g) y 1) as [a|e]; [|reflexivity]. cbn [bind].
  destruct (convolve (ag1 g) a) as [cv|e]; [|reflexivity]. cbn [bind both].
  unfold globals_scaled. read_globals. repeat split; assumption || reflexivity.
Qed.

Lemma gross_loop_scaled (n : nat) (g g' : globals R) :
  globals_scaled c g g' ->
  both (globals_scaled c) (gross_loop n g) (gross_loop n g').
Proof.
  revert g g'. induction n as [|n IH]; intros g g' H; [exact H|].
  cbn [gross_loop]. eapply both_bind; [apply gross_step_scaled, H|].
  intros a a' Ha. apply IH, Ha.
Qed.

Lemma cell_gross_scaled (g g' : globals R) :
  globals_scaled c g g' -> both (globals_scaled c) (cell_gross g) (cell_gross g').
Proof.
  intros H. pose proof H as (Hnv & Hng & Hw & Hi & Hal & Ha1 & Hag & Hav & Hs & Hx).
  unfold cell_gross. rewrite Hs, Hw, Hng, multiply_scaled.
  destruct (multiply (s_gv g) (win g)) as [y|e]; [|reflexivity]. cbn [rmap bind].
  rewrite (lpc_scaled (heap g) (heap g')).
  destruct (lpc (heap g) y 1) as [a|e]; [|reflexivity]. cbn [bind].
  apply gross_loop_scaled.
  unfold globals_scaled. read_globals. repeat split; assumption || reflexivity.
Qed.

Lemma cell_fine_glottis_scaled (g g' : globals R) :
  globals_scaled c g g' ->
  both (globals_scaled c) (cell_fine_glottis g) (cell_fine_glottis g').
Proof.
  intros (Hnv & Hng & Hw & Hi & Hal & Ha1 & Hag & Hav & Hs & Hx).
  unfold cell_fine_glottis. read_globals.
  rewrite Ha1, Hx, Hi, Hw, Hng, scaled_lfilter, take_scaled.
  destruct (take _ (idx_pf g)) as [r|e]; [|reflexivity]. cbn [rmap bind].
  rewrite multiply_scaled.
  destruct (multiply r (win g)) as [y|e]; [|reflexivity]. cbn [rmap bind].
  rewrite (lpc_scaled (heap g) (heap g')).
  destruct (lpc (heap g) y (ng g)) as [a|e]; [|reflexivity].
  cbn [bind both].
  unfold globals_scaled. read_globals. repeat split; assumption || reflexivity.
Qed.

Lemma cell_fine_vocal_tract_scaled (g g' : globals R) :
  globals_scaled c g g' ->
  both (globals_scaled c) (cell_fine_vocal_tract g) (cell_fine_vocal_tract g').
Proof.
  intros (Hnv & Hng & Hw & Hi & Hal & Ha1 & Hag & Hav & Hs & Hx).
  unfold cell_fine_vocal_tract. read_globals.
  rewrite Hag, Hx, Hi, Hw, Hnv, scaled_lfilter, take_scaled.
  destruct (take _ (idx_pf g)) as [r|e]; [|reflexivity]. cbn [rmap bind].
  rewrite multiply_scaled.
  destruct (multiply r (win g)) as [y|e]; [|reflexivity]. cbn [rmap bind].
  rewrite (lpc_scaled (heap g) (heap g')).
  destruct (lpc (heap g) y (nv g)) as [a|e]; [|reflexivity].
  cbn [bind both].
  unfold globals_scaled. read_globals. repeat split; assumption || reflexivity.
Qed.

Lemma run_cells_scaled (s : list R) (nv0 ng0 : Z) (d0 : R) (w : list R)
    (g0 : globals R) :
  both (globals_scaled c)
    (run_cells (cell_parameters s nv0 ng0 d0 w g0))
    (run_cells (cell_parameters (scaled c s) nv0 ng0 d0 w g0)).
Proof.
  unfold run_cells.
  eapply both_bind; [apply cell_preframe_scaled|]. cbn beta.
  intros gp gp' Hp.
  eapply both_bind; [apply cell_gross_scaled, Hp|].
  intros gg gg' Hg.
  eapply both_bind; [apply cell_fine_glottis_scaled, Hg|].
  intros ga ga' Ha. apply cell_fine_vocal_tract_scaled, Ha.
Qed.

End GainReal.

(** X16.  Over the real numbers the three filters do not depend on the
    gain of the frame: a run on the frame multiplied by a constant that is
    not zero returns the same filters, or raises the same exception, as the
    run on the frame. *)
Theorem gain_invariance (c : R) (s : list R) (nv0 ng0 : Z) (d0 : R) (w : list R)
    (g0 : globals R) :
  c <> 0%R ->
  gfmiaif (scaled c s) nv0 ng0 d0 w g0 = gfmiaif s nv0 ng0 d0 w g0.
Proof.
  intros Hc. symmetry. apply both_eq. unfold gfmiaif.
  eapply both_bind; [apply (run_cells_scaled c Hc)|].
  intros g g' (_ & _ & _ & _ & Hal & _ & Hag & Hav & _).
  cbn [both]. now rewrite Hal, Hag, Hav.
Qed.

Lemma gain_invariance_witness :
  gfmiaif (scaled 3%R [2; -1]%R) 1 1 (1 / 2)%R [1; 1]%R fresh
  = Ok ([1; - (636008245940 / 1201423513421)]%R, [1; 20460 / 97189]%R,
        [1; - (1 / 2)]%R).
Proof.
  assert (Hc : 3%R <> 0%R) by lra.
  pose proof (gain_invariance 3%R [2; -1]%R 1 1 (1 / 2)%R [1; 1]%R fresh Hc) as H.
  rewrite real_run in H. exact H.
Defined.

(** ** The last coefficient of an LPC estimate, over the real numbers *)

Section Reflection.

Local Open Scope R_scope.

Lemma nth_set_nth_eq (j : nat) (v : R) (l : list R) :
  (j < length l)%nat -> nth j (set_nth j v l) 0 = v.
Proof.
  revert j. induction l as [|x l IH]; intros [|j] Hj; simpl in *; try lia; auto.
  apply IH. lia.
Qed.

Lemma nth_set_nth_neq (j j' : nat) (v : R) (l : list R) :
  j <> j' -> nth j (set_nth j' v l) 0 = nth j l 0.
Proof.
  revert j j'. induction l as [|x l IH]; intros [|j] [|j'] Hj; simpl; auto; try lia.
Qed.

Lemma fold_set_length (f : nat -> R) (js : list nat) (ar : list R) :
  length (fold_left (fun ar j => set_nth j (f j) ar) js ar) = length ar.
Proof.
  revert ar. induction js as [|j js IH]; intros ar; [reflexivity|].
  cbn [fold_left]. now rewrite IH, length_set_nth.
Qed.

Lemma fold_set_beyond (f : nat -> R) (js : list nat) (ar : list R) (j : nat) :
  ~ In j js ->
  nth j (fold_left (fun ar j => set_nth j (f j) ar) js ar) 0 = nth j ar 0.
Proof.
  revert ar. induction js as [|j' js IH]; intros ar Hj; [reflexivity|].
  cbn [fold_left]. rewrite IH by (intros H; apply Hj; now right).
  apply nth_set_nth_neq. intros ->. apply Hj. now left.
Qed.

(** The new coefficient of the highest order. *)
Lemma levinson_last (i : nat) (k : R) (ar ar_prev : list R) :
  (i + 1 < length ar)%nat ->
  nth (i + 1) (levinson i k ar ar_prev) 0
  = nth (i + 1) ar_prev 0 + k * nth 0 ar_prev 0.
Proof.
  intros Hl. unfold levinson. rewrite Nat.add_1_r, seq_S, fold_left_app.
  cbn [fold_left]. rewrite nth_set_nth_eq.
  - replace (1 + i)%nat with (S i) by lia.
    replace (S i - S i)%nat with 0%nat by lia. reflexivity.
  - rewrite (fold_set_length (fun j => add (nth j ar_prev zero)
                                (mul k (nth (S i - j) ar_prev zero)))). lia.
Qed.

Lemma levinson_beyond (i j : nat) (k : R) (ar ar_prev : list R) :
  (i + 1 < j)%nat -> nth j (levinson i k ar ar_prev) 0 = nth j ar 0.
Proof.
  intros Hj. unfold levinson.
  apply (fold_set_beyond (fun j => add (nth j ar_prev zero)
                            (mul k (nth (i + 1 - j) ar_prev zero)))).
  intros H. apply in_seq in H. lia.
Qed.

(** A reflection coefficient lies between minus one and one. *)
Lemma reflection_bounded (f b : list R) (D : R) :
  0 < D -> D = energy f + energy b -> -1 <= -2 * dot b f / D <= 1.
Proof.
  intros HD HE. pose proof (dot_bound b f) as Hb.
  set (C := dot b f) in *.
  replace (-2 * C / D) with ((-2 * C) * / D) by (unfold Rdiv; ring).
  assert (Hi : 0 < / D) by (apply Rinv_0_lt_compat; exact HD).
  assert (Hone : D * / D = 1) by (apply Rinv_r; lra).
  assert (HC : - D <= -2 * C <= D) by lra.
  split.
  - apply Rle_trans with (- D * / D); [lra|].
    apply Rmult_le_compat_r; lra.
  - apply Rle_trans with (D * / D); [|lra].
    apply Rmult_le_compat_r; lra.
Qed.

Lemma monic_first (n : nat) (a : list R) : monic n a -> nth 0 a 0 = 1.
Proof. intros (_ & H). destruct a; [discriminate|]. now injection H. Qed.

Lemma burg_step_order (h : nat -> Z -> R) (n i : nat) (st st' : burg R) :
  burg_order n i st -> burg_balanced st -> (i < n)%nat ->
  burg_step h st i = Ok st' -> burg_order n (i + 1) st'.
Proof.
  intros (Hm & Hz & Hzp & _) (_ & Hd) Hi H.
  pose proof (burg_step_monic _ _ _ _ _ Hm H) as Hm'.
  unfold burg_step in H.
  change (leb (den st) zero) with (Real.leb (den st) 0) in H. unfold Real.leb in H.
  destruct (Rle_dec (den st) 0) as [|Hpos]; [discriminate|].
  inv_Ok H.
  destruct Hm as ((Hla & Hha) & (Hlp & Hhp)).
  split; [exact Hm'|]. cbn [ar_coeffs ar_coeffs_prev].
  repeat split.
  - intros j Hj. rewrite levinson_beyond by lia. apply Hzp. lia.
  - intros j Hj. apply Hz. lia.
  - rewrite levinson_last by lia.
    rewrite Hz, (monic_first n) by (lia || (split; assumption)).
    pose proof (reflection_bounded (fwd_pred_error st) (bwd_pred_error st)
                  (den st)) as Hk.
    cbn [div mul of_Z Real_Arith]. lra.
  - rewrite levinson_last by lia.
    rewrite Hz, (monic_first n) by (lia || (split; assumption)).
    pose proof (reflection_bounded (fwd_pred_error st) (bwd_pred_error st)
                  (den st)) as Hk.
    cbn [div mul of_Z Real_Arith]. lra.
Qed.

Lemma burg_loop_order (h : nat -> Z -> R) (n m i : nat) (st st' : burg R) :
  burg_order n i st -> burg_balanced st -> (i + m <= n)%nat ->
  burg_loop h st (seq i m) = Ok st' -> burg_order n (i + m) st'.
Proof.
  revert i st. induction m as [|m IH]; intros i st Ho Hb Hm H.
  - inv_Ok H. now rewrite Nat.add_0_r.
  - cbn [seq burg_loop] in H. inv_bind H.
    replace (i + S m)%nat with (S i + m)%nat by lia.
    apply (IH (S i) v); [| |lia|exact H].
    + rewrite <- Nat.add_1_r. eapply burg_step_order; eauto. lia.
    + eapply burg_step_balanced; eauto.
Qed.

(** The last coefficient of an estimate is its last reflection
    coefficient. *)
Lemma lpc_last_bounded (h : nat -> Z -> R) (y a : list R) (order : Z) :
  lpc h y order = Ok a -> -1 <= last a 0 <= 1.
Proof.
  intros H. pose proof (lpc_monic _ _ _ _ H) as (Ho & Hl & _).
  unfold lpc in H. destruct (Z.ltb_spec order 1) as [|_]; [lia|].
  rewrite forallb_isfinite_real in H. cbn [negb] in H. inv_bind H. inv_Ok H.
  apply (burg_loop_order h (Z.to_nat order) (Z.to_nat order) 0) in E.
  - destruct E as (_ & _ & _ & E). cbn [Nat.add] in E.
    pose proof (nth_pred_last (F := R) (ar_coeffs v)) as Hlast.
    cbn [zero Real_Arith] in Hlast. rewrite <- Hlast, Hl.
    now replace (S (Z.to_nat order) - 1)%nat with (Z.to_nat order) by lia.
  - unfold burg_order, burg_init.
    repeat split;
      cbn [ar_coeffs ar_coeffs_prev length hd_error nth one zero Real_Arith];
      try (now rewrite repeat_length); try lra;
      intros [|j] Hj; try lia; apply nth_repeat.
  - apply burg_init_balanced.
  - lia.
Qed.

(** X17.  Over the real numbers the last coefficient of the vocal tract
    filter and of the glottis filter that a run returns lies between minus
    one and one: it is the last reflection coefficient of Burg's
    recursion. *)
Theorem last_coefficient_bounded (s : list R) (nv0 ng0 : Z) (d0 : R) (w : list R)
    (g0 : globals R) (av' ag' al' : list R) :
  gfmiaif s nv0 ng0 d0 w g0 = Ok (av', ag', al') ->
  -1 <= last av' 0 <= 1 /\ -1 <= last ag' 0 <= 1.
Proof.
  intros H. unfold gfmiaif in H. inv_bind H. inv_Ok H.
  destruct (run_cells_Ok _ _ E) as (gp & gg & ga & _ & _ & Ha & Hf).
  pose proof (cell_fine_vocal_tract_context _ _ Hf) as (_ & _ & Hag).
  destruct (cell_fine_glottis_ag _ _ Ha) as (y & Hy).
  destruct (cell_fine_vocal_tract_av _ _ Hf) as (y' & Hy').
  rewrite Hag. eauto using lpc_last_bounded.
Qed.

End Reflection.

Lemma last_coefficient_bounded_witness :
  (-1 <= last [1; - (636008245940 / 1201423513421)] 0 <= 1)%R /\
  (-1 <= last [1; 20460 / 97189] 0 <= 1)%R.
Proof. exact (last_coefficient_bounded _ _ _ _ _ _ _ _ _ real_run). Defined.

(** ** The gain of the window *)

Section WindowScaling.

Context {F : Type} {A : Arith F} {E : ExactArith F}.

Add Ring window_ring : arith_ring.

Lemma multiply_scaled_window (c : F) (a w : list F) :
  multiply a (scaled c w) = rmap (scaled c) (multiply a w).
Proof.
  unfold multiply. rewrite length_scaled.
  destruct (Nat.eqb (length a) (length w)).
  - cbn [rmap]. f_equal. revert w. induction a as [|x a IH]; intros [|y w];
      try reflexivity.
    cbn [scaled map map2]. fold (scaled c w). rewrite IH.
    cbn [scaled map]. f_equal. ring.
  - destruct w as [|y [|y' w]]; destruct a as [|x [|x' a]]; try reflexivity;
      cbn [scaled map rmap]; f_equal.
    + f_equal. ring.
    + f_equal; [ring|]. f_equal; [ring|].
      rewrite !map_map. apply map_ext. intros. ring.
    + f_equal; [ring|]. f_equal; [ring|].
      rewrite !map_map. apply map_ext. intros. ring.
Qed.

End WindowScaling.

Section WindowGainReal.

Local Open Scope R_scope.

Variable c : R.
Hypothesis Hc : c <> 0.

Lemma gross_step_window (g g' : globals R) :
  window_scaled c g g' -> both (window_scaled c) (gross_step g) (gross_step g').
Proof.
  intros (Hnv & Hng & Hw & Hi & Hal & Ha1 & Hag & Hav & Hs & Hx).
  unfold gross_step. read_globals. rewrite Ha1, Hx, Hi, Hw.
  destruct (take _ (idx_pf g)) as [r|e]; [|reflexivity]. cbn [bind].
  rewrite multiply_scaled_window.
  destruct (multiply r (win g)) as [y|e]; [|reflexivity]. cbn [rmap bind].
  rewrite (lpc_scaled c Hc (heap g) (heap g')).
  destruct (lpc (heap g) y 1) as [a|e]; [|reflexivity]. cbn [bind].
  destruct (convolve (ag1 g) a) as [cv|e]; [|reflexivity]. cbn [bind both].
  unfold window_scaled. read_globals. repeat split; assumption || reflexivity.
Qed.

Lemma gross_loop_window (n : nat) (g g' : globals R) :
  window_scaled c g g' -> both (window_scaled c) (gross_loop n g) (gross_loop n g').
Proof.
  revert g g'. induction n as [|n IH]; intros g g' H; [exact H|].
  cbn [gross_loop]. eapply both_bind; [apply gross_step_window, H|].
  intros a a' Ha. apply IH, Ha.
Qed.

Lemma cell_gross_window (g g' : globals R) :
  window_scaled c g g' -> both (window_scaled c) (cell_gross g) (cell_gross g').
Proof.
  intros H. pose proof H as (Hnv & Hng & Hw & Hi & Hal & Ha1 & Hag & Hav & Hs & Hx).
  unfold cell_gross. rewrite Hs, Hw, Hng, multiply_scaled_window.
  destruct (multiply (s_gv g) (win g)) as [y|e]; [|reflexivity]. cbn [rmap bind].
  rewrite (lpc_scaled c Hc (heap g) (heap g')).
  destruct (lpc (heap g) y 1) as [a|e]; [|reflexivity]. cbn [bind].
  apply gross_loop_window.
  unfold window_scaled. read_globals. repeat split; assumption || reflexivity.
Qed.

Lemma cell_fine_glottis_window (g g' : globals R) :
  window_scaled c g g' ->
  both (window_scaled c) (cell_fine_glottis g) (cell_fine_glottis g').
Proof.
  intros (Hnv & Hng & Hw & Hi & Hal & Ha1 & Hag & Hav & Hs & Hx).
  unfold cell_fine_glottis. read_globals. rewrite Ha1, Hx, Hi, Hw, Hng.
  destruct (take _ (idx_pf g)) as [r|e]; [|reflexivity]. cbn [bind].
  rewrite multiply_scaled_window.
  destruct (multiply r (win g)) as [y|e]; [|reflexivity]. cbn [rmap bind].
  rewrite (lpc_scaled c Hc (heap g) (heap g')).
  destruct (lpc (heap g) y (ng g)) as [a|e]; [|reflexivity].
  cbn [bind both].
  unfold window_scaled. read_globals. repeat split; assumption || reflexivity.
Qed.

Lemma cell_fine_vocal_tract_window (g g' : globals R) :
  window_scaled c g g' ->
  both (window_scaled c) (cell_fine_vocal_tract g) (cell_fine_vocal_tract g').
Proof.
  intros (Hnv & Hng & Hw & Hi & Hal & Ha1 & Hag & Hav & Hs & Hx).
  unfold cell_fine_vocal_tract. read_globals. rewrite Hag, Hx, Hi, Hw, Hnv.
  destruct (take _ (idx_pf g)) as [r|e]; [|reflexivity]. cbn [bind].
  rewrite multiply_scaled_window.
  destruct (multiply r (win g)) as [y|e]; [|reflexivity]. cbn [rmap bind].
  rewrite (lpc_scaled c Hc (heap g) (heap g')).
  destruct (lpc (heap g) y (nv g)) as [a|e]; [|reflexivity].
  cbn [bind both].
  unfold window_scaled. read_globals. repeat split; assumption || reflexivity.
Qed.

Lemma cell_preframe_window (s : list R) (nv0 ng0 : Z) (d0 : R) (w0 : R) (w : list R)
    (g0 : globals R) :
  both (fun gp gp' => window_scaled c (cell_lip gp) (cell_lip gp'))
    (cell_preframe (cell_defaults (cell_parameters s nv0 ng0 d0 (w0 :: w) g0)))
    (cell_preframe (cell_defaults
                      (cell_parameters s nv0 ng0 d0 (scaled c (w0 :: w)) g0))).
Proof.
  unfold cell_preframe, cell_defaults, cell_parameters. read_globals.
  cbn [scaled map]. read_globals.
  destruct (getitem s 0) as [s0|e]; [|reflexivity]. cbn [bind].
  destruct (linspace (opp s0) s0 (nv0 + 1)) as [ramp|e]; [|reflexivity].
  cbn [bind both]. unfold window_scaled, cell_lip. read_globals.
  repeat split; reflexivity.
Qed.

End WindowGainReal.

(** X18.  Over the real numbers the three filters do not depend on the
    gain of the window: a run with the window multiplied by a constant
    that is not zero returns the same filters, or raises the same
    exception, as the run with the window.  So a window of one weight
    that is not zero, which numpy broadcasts, acts as the window [[1]]. *)
Theorem window_gain_invariance (c : R) (s : list R) (nv0 ng0 : Z) (d0 : R)
    (w : list R) (g0 : globals R) :
  c <> 0%R ->
  gfmiaif s nv0 ng0 d0 (scaled c w) g0 = gfmiaif s nv0 ng0 d0 w g0 /\
  gfmiaif s nv0 ng0 d0 [c] g0 = gfmiaif s nv0 ng0 d0 [1%R] g0.
Proof.
  intros Hc.
  assert (H : forall w', gfmiaif s nv0 ng0 d0 (scaled c w') g0
                         = gfmiaif s nv0 ng0 d0 w' g0).
  { intros [|w0 w']; [reflexivity|].
    symmetry. apply both_eq. unfold gfmiaif, run_cells.
    eapply both_bind with (P := window_scaled c).
    - eapply both_bind; [apply cell_preframe_window|]. cbn beta.
      intros gp gp' Hp.
      eapply both_bind; [apply (cell_gross_window c Hc), Hp|].
      intros gg gg' Hg.
      eapply both_bind; [apply (cell_fine_glottis_window c Hc), Hg|].
      intros ga ga' Ha. apply (cell_fine_vocal_tract_window c Hc), Ha.
    - intros g g' (_ & _ & _ & _ & Hal & _ & Hag & Hav & _).
      cbn [both]. now rewrite Hal, Hag, Hav. }
  split; [apply H|].
  rewrite <- (H [1%R]). cbn [scaled map mul Real_Arith].
  now rewrite Rmult_1_r.
Qed.

Lemma window_gain_invariance_witness :
  gfmiaif [2; -1]%R 1 1 (1 / 2)%R (scaled 3%R [1; 1]%R) fresh
  = Ok ([1; - (636008245940 / 1201423513421)]%R, [1; 20460 / 97189]%R,
        [1; - (1 / 2)]%R) /\
  gfmiaif [2; -1]%R 1 1 (1 / 2)%R [3%R] fresh
  = gfmiaif [2; -1]%R 1 1 (1 / 2)%R [1%R] fresh.
Proof.
  assert (Hc : 3%R <> 0%R) by lra.
  pose proof (window_gain_invariance 3%R [2; -1]%R 1 1 (1 / 2)%R [1; 1]%R fresh Hc)
    as (H & _).
  pose proof (window_gain_invariance 3%R [2; -1]%R 1 1 (1 / 2)%R [] fresh Hc)
    as (_ & H').
  rewrite real_run in H. split; [exact H | exact H'].
Defined.

(** ** Runs from different sessions *)

Section Memory.

Context {F : Type} {A : Arith F}.

(** A pass of Burg's loop whose prediction errors have samples reads
    nothing of the memory. *)
Lemma burg_step_samples (m m' : nat -> Z -> F) (st : burg F) (i : nat) :
  fwd_pred_error st <> [] -> bwd_pred_error st <> [] ->
  burg_step m st i = burg_step m' st i.
Proof.
  intros Hf Hb. unfold burg_step. destruct (leb (den st) zero); [reflexivity|].
  rewrite !(peek_first (m i)), !(peek_last (m i)), !(peek_first (m' i)),
    !(peek_last (m' i)) by now apply map2_nonempty.
  reflexivity.
Qed.

(** A pass that reads the memory takes nothing but its new denominator from
    it. *)
Lemma burg_step_coeffs (m m' : nat -> Z -> F) (st : burg F) (i : nat) :
  both (fun a a' => ar_coeffs a = ar_coeffs a') (burg_step m st i) (burg_step m' st i).
Proof. unfold burg_step. destruct (leb (den st) zero); reflexivity. Qed.

Lemma burg_step_lengths (m : nat -> Z -> F) (st st' : burg F) (i : nat) :
  length (fwd_pred_error st) = length (bwd_pred_error st) ->
  burg_step m st i = Ok st' ->
  length (fwd_pred_error st') = length (fwd_pred_error st) - 1 /\
  length (bwd_pred_error st') = length (fwd_pred_error st) - 1.
Proof.
  intros Hl H. unfold burg_step in H.
  destruct (leb (den st) zero); [discriminate|]. inv_Ok H.
  cbn [fwd_pred_error bwd_pred_error].
  rewrite length_tl, length_removelast, !length_map2. lia.
Qed.

(** The loop up to an order that the signal has the samples for: the
    memory is read in the last pass at most, after the coefficients are
    set. *)
Lemma burg_loop_within (m m' : nat -> Z -> F) (n i : nat) (st : burg F) :
  length (fwd_pred_error st) = length (bwd_pred_error st) ->
  n <= length (fwd_pred_error st) + 1 ->
  both (fun a a' => ar_coeffs a = ar_coeffs a')
    (burg_loop m st (seq i n)) (burg_loop m' st (seq i n)).
Proof.
  revert i st. induction n as [|n IH]; intros i st Hl Hn; [reflexivity|].
  cbn [seq burg_loop]. destruct n as [|n].
  - pose proof (burg_step_coeffs m m' st i) as H.
    destruct (burg_step m st i), (burg_step m' st i); exact H.
  - assert (Hf : fwd_pred_error st <> [])
      by (intros E; rewrite E in Hn; simpl in Hn; lia).
    assert (Hb : bwd_pred_error st <> [])
      by (intros E; rewrite E in Hl; simpl in Hl; lia).
    rewrite (burg_step_samples m m') by assumption.
    destruct (burg_step m' st i) as [st'|e] eqn:Hs; [|reflexivity]. cbn [bind].
    destruct (burg_step_lengths _ _ _ _ Hl Hs) as (Hf' & Hb').
    apply IH; lia.
Qed.

(** The loop in two memories that hold the same. *)
Lemma burg_loop_memory (m m' : nat -> Z -> F) (orders : list nat) (st : burg F) :
  (forall i k, m i k = m' i k) -> burg_loop m st orders = burg_loop m' st orders.
Proof.
  intros H. revert st. induction orders as [|i orders IH]; intros st; [reflexivity|].
  cbn [burg_loop].
  replace (burg_step m' st i) with (burg_step m st i).
  - destruct (burg_step m st i); [apply IH | reflexivity].
  - unfold burg_step, peek. destruct (leb (den st) zero); [reflexivity|].
    destruct (getitem _ (-1)), (getitem _ 0); now rewrite ?H.
Qed.

(** The estimate of an order that does not exceed the number of samples of
    the signal is the same in every memory. *)
Lemma lpc_same (m m' : nat -> Z -> F) (y : list F) (order : Z) :
  (forall i k, m i k = m' i k) \/ Z.to_nat order <= length (tl y) + 1 ->
  lpc m y order = lpc m' y order.
Proof.
  intros H. unfold lpc. destruct (order <? 1)%Z; [reflexivity|].
  destruct (negb _); [reflexivity|].
  destruct H as [H|H]; [now rewrite (burg_loop_memory m m')|].
  pose proof (burg_loop_within m m' (Z.to_nat order) 0
                (burg_init y (Z.to_nat order))) as Hb.
  cbn [burg_init fwd_pred_error bwd_pred_error] in Hb.
  specialize (Hb ltac:(now rewrite length_tl, length_removelast) H).
  destruct (burg_loop m _ _) as [st|e], (burg_loop m' _ _) as [st'|e'];
    cbn [both bind] in *; congruence || contradiction.
Qed.

Lemma length_take (a : list F) (idx : list Z) (r : list F) :
  take a idx = Ok r -> length r = length idx.
Proof.
  revert r. induction idx as [|i idx IH]; intros r H.
  - inv_Ok H. reflexivity.
  - cbn [take] in H. inv_bind H. inv_bind H. inv_Ok H. cbn [length]. now rewrite (IH v0).
Qed.

(** A signal loses no sample in the product with the window. *)
Lemma length_windowed (r w y : list F) :
  multiply r w = Ok y -> length r <= length (tl y) + 1.
Proof.
  unfold multiply. destruct (Nat.eqb_spec (length r) (length w)) as [Hl|Hl].
  - intros H. inv_Ok H. rewrite length_tl, length_map2. lia.
  - destruct w as [|w0 [|w1 w]]; destruct r as [|r0 [|r1 r]]; intros H;
      try discriminate; inv_Ok H; rewrite length_tl; cbn [map length];
      rewrite ?length_map; lia.
Qed.

(** No cell assigns the memory. *)
Lemma gross_step_heap (g g' : globals F) : gross_step g = Ok g' -> heap g' = heap g.
Proof. unfold gross_step. intros H. repeat inv_bind H. inv_Ok H. reflexivity. Qed.

Lemma gross_loop_heap (n : nat) (g g' : globals F) :
  gross_loop n g = Ok g' -> heap g' = heap g.
Proof.
  revert g; induction n as [|n IH]; simpl; intros g H.
  - inv_Ok H. reflexivity.
  - inv_bind H. rewrite (IH _ H). now apply gross_step_heap.
Qed.

Lemma cell_gross_heap (g g' : globals F) : cell_gross g = Ok g' -> heap g' = heap g.
Proof.
  unfold cell_gross. intros H. repeat inv_bind H.
  now rewrite (gross_loop_heap _ _ _ H).
Qed.

Lemma cell_fine_glottis_heap (g g' : globals F) :
  cell_fine_glottis g = Ok g' -> heap g' = heap g.
Proof. unfold cell_fine_glottis. intros H. repeat inv_bind H. inv_Ok H. reflexivity. Qed.

Lemma cell_preframe_heap (g g' : globals F) :
  cell_preframe g = Ok g' -> heap g' = heap g.
Proof.
  intros H. apply cell_preframe_Ok in H as (s0 & ramp & _ & _ & ->). reflexivity.
Qed.

Lemma cell_defaults_heap (g : globals F) : heap (cell_defaults g) = heap g.
Proof. unfold cell_defaults. destruct (win g); reflexivity. Qed.

End Memory.

Section Determinism.

Context {F : Type} {A : Arith F}.

(** [same_step] proves that a cell maps globals that agree on what it reads
    to results that agree on what it assigns, one sequenced call at a
    time. *)
Ltac same_step :=
  match goal with
  | |- same_result _ (bind ?r _) (bind ?r _) =>
      let E := fresh "E" in
      destruct r eqn:E; cbn [bind same_result]; [|reflexivity]
  | |- same_result _ (Ok _) (Ok _) => reflexivity
  end.

(** A first order fit is the same in every memory. *)
Lemma first_order_fit_same (m m' : nat -> Z -> F) (y : list F) :
  lpc m y 1 = lpc m' y 1.
Proof. apply lpc_same. right. simpl. lia. Qed.

(** A fit on a windowed residual of the frame. *)
Lemma fit_same (g g' : globals F) (x r y : list F) (order : Z) :
  fits_alike order g g' ->
  take x (idx_pf g) = Ok r -> multiply r (win g) = Ok y ->
  lpc (heap g) y order = lpc (heap g') y order.
Proof.
  intros [H|[H|H]] Hr Hy; [apply lpc_same; left; exact H | | apply H].
  apply lpc_same. right.
  apply length_take in Hr. apply length_windowed in Hy. lia.
Qed.

Lemma gross_step_same (g g' : globals F) :
  gross_view g = gross_view g' ->
  same_result gross_view (gross_step g) (gross_step g').
Proof.
  unfold gross_view. intros H.
  pose proof (f_equal fst H) as Hc. pose proof (f_equal snd H) as Ha.
  cbn [fst snd] in Hc, Ha.
  pose proof (context_of_eq _ _ Hc) as (_ & _ & _ & _ & Hw & _ & Hi & _ & Hx).
  unfold gross_step. read_globals.
  rewrite Ha, Hw, Hi, Hx. do 2 same_step.
  rewrite (first_order_fit_same (heap g) (heap g')). repeat same_step.
  cbn [same_result]. unfold context_of in *. simpl. now rewrite Hc.
Qed.

Lemma gross_loop_same (n : nat) (g g' : globals F) :
  gross_view g = gross_view g' ->
  same_result gross_view (gross_loop n g) (gross_loop n g').
Proof.
  revert g g'. induction n as [|n IH]; intros g g' H; simpl; [assumption|].
  pose proof (gross_step_same _ _ H) as Hs.
  destruct (gross_step g), (gross_step g'); simpl in *; try contradiction; auto.
Qed.

Lemma cell_gross_same (g g' : globals F) :
  context_of g = context_of g' ->
  same_result gross_view (cell_gross g) (cell_gross g').
Proof.
  intros Hc.
  pose proof (context_of_eq _ _ Hc) as (_ & _ & Hng & _ & Hw & _).
  injection Hc as Hsgv. unfold cell_gross.
  rewrite Hw, Hng. replace (s_gv g) with (s_gv g') by congruence.
  destruct (multiply _ _); cbn [bind same_result]; [|reflexivity].
  rewrite (first_order_fit_same (heap g) (heap g')).
  destruct (lpc _ _ _); cbn [bind same_result]; [|reflexivity].
  apply gross_loop_same. unfold gross_view, context_of in *. simpl. congruence.
Qed.

Lemma cell_fine_glottis_same (g g' : globals F) :
  gross_view g = gross_view g' -> fits_alike (ng g) g g' ->
  same_result fine_view (cell_fine_glottis g) (cell_fine_glottis g').
Proof.
  unfold gross_view. intros H Hm.
  pose proof (f_equal fst H) as Hc. pose proof (f_equal snd H) as Ha.
  cbn [fst snd] in Hc, Ha.
  pose proof (context_of_eq _ _ Hc) as (_ & _ & Hng & _ & Hw & _ & Hi & _ & Hx).
  unfold cell_fine_glottis. read_globals.
  rewrite <- Ha, <- Hw, <- Hi, <- Hx, <- Hng. do 2 same_step.
  rewrite (fit_same g g' _ _ _ _ Hm E E0). repeat same_step.
  cbn [same_result]. unfold fine_view, context_of in *. simpl. now rewrite Hc.
Qed.

Lemma cell_fine_vocal_tract_same (g g' : globals F) :
  fine_view g = fine_view g' -> fits_alike (nv g) g g' ->
  same_result outputs_of (cell_fine_vocal_tract g) (cell_fine_vocal_tract g').
Proof.
  unfold fine_view. intros H Hm.
  pose proof (f_equal fst H) as Hc. pose proof (f_equal snd H) as Ha.
  cbn [fst snd] in Hc, Ha.
  pose proof (context_of_eq _ _ Hc) as (_ & Hnv & _ & _ & Hw & _ & Hi & Hal & Hx).
  unfold cell_fine_vocal_tract. read_globals.
  rewrite <- Ha, <- Hw, <- Hi, <- Hx, <- Hnv. do 2 same_step.
  rewrite (fit_same g g' _ _ _ _ Hm E E0). repeat same_step.
  cbn [same_result]. unfold outputs_of. simpl. now rewrite Ha, Hal.
Qed.

Lemma cell_preframe_same (g g' : globals F) :
  inputs_of g = inputs_of g' ->
  same_result context_of (r <- cell_preframe g ;; Ok (cell_lip r))
                         (r <- cell_preframe g' ;; Ok (cell_lip r)).
Proof.
  unfold inputs_of. intros H. injection H as Hs Hnv Hng Hd Hw.
  unfold cell_preframe. cbn [Lpf set_Lpf s_gvl nv x_gvl set_x_gvl].
  rewrite Hs, Hnv.
  destruct (getitem _ _); cbn [bind same_result]; [|reflexivity].
  destruct (linspace _ _ _); cbn [bind same_result]; [|reflexivity].
  unfold cell_lip, context_of. simpl. now rewrite Hs, Hnv, Hng, Hd, Hw.
Qed.

Lemma cell_defaults_same (g g' : globals F) :
  inputs_of g = inputs_of g' ->
  inputs_of (cell_defaults g) = inputs_of (cell_defaults g').
Proof.
  unfold inputs_of. intros H. injection H as Hs Hnv Hng Hd Hw.
  unfold cell_defaults. rewrite Hw, Hs.
  destruct (win g') eqn:E; simpl; congruence.
Qed.

(** The indices of the frame in the padded frame are as many as the frame
    has samples. *)
Lemma length_idx_pf (g gp : globals F) :
  cell_preframe g = Ok gp -> length (idx_pf gp) = length (s_gvl g).
Proof.
  intros H. destruct (preframe_shapes _ _ H) as (_ & Hpos & _ & _ & -> & _).
  rewrite length_arange. lia.
Qed.

(** The cells after the parameters read nothing but the parameters, and
    the memory in a fit of an order above the number of samples of the
    frame, when rounding lets the fit go that far. *)
Lemma run_cells_same (g g' : globals F) :
  inputs_of g = inputs_of g' ->
  (forall i k, heap g i k = heap g' i k) \/
  ((nv g <= Z.of_nat (length (s_gvl g)))%Z /\
   (ng g <= Z.of_nat (length (s_gvl g)))%Z) \/
  (forall y order, lpc (heap g) y order = lpc (heap g') y order) ->
  same_result outputs_of (run_cells g) (run_cells g').
Proof.
  intros H Hm. pose proof (cell_defaults_same _ _ H) as Hd.
  pose proof (cell_preframe_same _ _ Hd) as Hp.
  unfold run_cells.
  destruct (cell_preframe (cell_defaults g)) as [gp|e] eqn:Ep,
           (cell_preframe (cell_defaults g')) as [gp'|e'] eqn:Ep';
    cbn [bind same_result] in *; try contradiction; [|assumption].
  assert (Hfit : forall g1 g1' : globals F,
             context_of g1 = context_of (cell_lip gp) ->
             heap g1 = heap g -> heap g1' = heap g' ->
             fits_alike (nv g1) g1 g1' /\ fits_alike (ng g1) g1 g1').
  { intros g1 g1' Hc Hh Hh'. unfold fits_alike. rewrite Hh, Hh'.
    apply context_of_eq in Hc as (_ & -> & -> & _ & _ & _ & -> & _).
    change (idx_pf (cell_lip gp)) with (idx_pf gp).
    change (nv (cell_lip gp)) with (nv gp). change (ng (cell_lip gp)) with (ng gp).
    rewrite (length_idx_pf _ _ Ep).
    destruct (cell_preframe_inputs _ _ Ep) as (_ & -> & -> & _).
    destruct (cell_defaults_inputs g) as (-> & -> & -> & _).
    destruct Hm as [Hm|[(Hv & Hg)|Hm]]; split; auto. }
  pose proof (cell_preframe_heap _ _ Ep) as Hh.
  pose proof (cell_preframe_heap _ _ Ep') as Hh'.
  rewrite cell_defaults_heap in Hh, Hh'.
  pose proof (cell_gross_same _ _ Hp) as Hg.
  destruct (cell_gross (cell_lip gp)) as [gg|e] eqn:Eg,
           (cell_gross (cell_lip gp')) as [gg'|e'] eqn:Eg';
    cbn [bind same_result] in *; try contradiction; [|assumption].
  apply cell_gross_heap in Eg' as Hhg'. apply cell_gross_heap in Eg as Hhg.
  change (heap (cell_lip gp)) with (heap gp) in Hhg.
  change (heap (cell_lip gp')) with (heap gp') in Hhg'.
  pose proof (cell_gross_context _ _ Eg) as Hcg.
  destruct (Hfit gg gg' Hcg) as (_ & Hng); [congruence | congruence |].
  pose proof (cell_fine_glottis_same _ _ Hg Hng) as Ha.
  destruct (cell_fine_glottis gg) as [ga|e] eqn:Ea,
           (cell_fine_glottis gg') as [ga'|e'] eqn:Ea';
    cbn [bind same_result] in *; try contradiction; [|assumption].
  apply cell_fine_glottis_heap in Ea' as Hha'.
  apply cell_fine_glottis_heap in Ea as Hha.
  pose proof (cell_fine_glottis_context _ _ Ea) as (Hca & _).
  destruct (Hfit ga ga') as (Hnv & _); [congruence | congruence | congruence |].
  now apply cell_fine_vocal_tract_same.
Qed.

Lemma run_same (s : list F) (nv0 ng0 : Z) (d0 : F) (w : list F)
    (g0 g0' : globals F) :
  (forall i k, heap g0 i k = heap g0' i k) \/
  ((nv0 <= Z.of_nat (length s))%Z /\ (ng0 <= Z.of_nat (length s))%Z) \/
  (forall y order, lpc (heap g0) y order = lpc (heap g0') y order) ->
  gfmiaif s nv0 ng0 d0 w g0 = gfmiaif s nv0 ng0 d0 w g0'.
Proof.
  intros Hm. unfold gfmiaif.
  pose proof (run_cells_same (cell_parameters s nv0 ng0 d0 w g0)
                (cell_parameters s nv0 ng0 d0 w g0') eq_refl Hm) as H.
  destruct (run_cells _) as [g|e], (run_cells _) as [g'|e'];
    cbn [bind same_result] in *; try contradiction; [|congruence].
  unfold outputs_of in H. congruence.
Qed.


End Determinism.

(** Over the real numbers no fit reads the memory: the denominator that a
    pass tests is the energy of the prediction errors that are left. *)
Lemma lpc_memory_real (m m' : nat -> Z -> R) (y : list R) (order : Z) :
  lpc m y order = lpc m' y order.
Proof.
  assert (H1 : 1%R <> 0%R) by lra.
  rewrite <- (lpc_scaled 1%R H1 m m' y order). f_equal.
  unfold scaled. rewrite <- (map_id y) at 2. apply map_ext. intros v.
  cbn [mul Real_Arith]. lra.
Qed.

(** So C9 holds as it is worded in exact arithmetic. *)
Lemma deterministic_real : deterministic R.
Proof.
  intros s nv0 ng0 d0 w g0 g0'. apply run_same. right. right.
  intros y order. apply lpc_memory_real.
Qed.



(** The fit that decides it.  After the first pass on the two samples both
    prediction errors are empty and the denominator, zero in exact
    arithmetic, is positive; the second pass reads the memory, and the
    third pass raises or goes on by what was there. *)
Lemma unchecked_read_trace :
  length pair_windowed = 2 /\
  match burg_step (heap fresh) (burg_init pair_windowed 3) 0 with
  | Ok st =>
      fwd_pred_error st = [] /\ bwd_pred_error st = [] /\
      PrimFloat.ltb 0 (den st) = true
  | Raise _ => False
  end /\
  (exists a, lpc (heap fresh) pair_windowed 3 = Ok a) /\
  lpc (heap stale) pair_windowed 3 = Raise FloatingPointError.
Proof.
  split; [reflexivity|]. split; [vm_compute; repeat split|].
  split; [eexists|]; vm_compute; reflexivity.
Qed.
